(** * GrafoDisperso: a CSR graph, its loader and its queries

    Shallow embedding of [src/include/GrafoDisperso.h] (class
    [GrafoDisperso], derived from [GrafoBase]), of the accessors of
    [src/include/GrafoBase.h] and of the test functions [probarBFS],
    [probarDFS] and [analizarNodo] of [src/src/main.cpp].

    Conventions of the embedding.
    - A C++ [int] is a [Z] between [INT_MIN] and [INT_MAX] (32 bits).  An
      addition, subtraction or product of [int]s whose result leaves that
      range is undefined behaviour in C++; the embedding computes each of
      them through [entero], which reports it as [Indefinido].  The
      increment of the control variable of a [for] is not checked: the
      variable is below the bound of the loop, itself an [int].
    - A heap array [new T[n]] is a [list T] of length [n]; the cells that
      C++ leaves uninitialised hold a placeholder that the code never
      reads.  An access [a[i]] goes through [leer] / [escribir], which
      check the index: outside the allocated cells the C++ program has
      undefined behaviour, which the embedding reports as [Indefinido].
    - The text file is the sequence of pairs that the extraction loop
      [while (archivo >> origen >> destino)] yields, or nothing when the
      file cannot be opened.
    - Memory and the call stack are as large as the program needs.  The
      [while] of [BFS] and the recursion of [DFSRecursivo] run on fuel,
      [numNodos] units of it, which is enough on every graph
      ([BFS_no_agota], [DFS_no_agota]).
    - Console output and timing are left out, but for the numbers that the
      test functions of [main.cpp] print, which are what those functions
      return here.  The integers that they extract from [std::cin] are
      their parameters. *)

From Stdlib Require Import ZArith Lia.
From stdpp Require Import base list.

Local Open Scope Z_scope.

(** ** Results of running a piece of the program *)

Inductive res (A : Type) : Type :=
| Ret (a : A)          (* the code runs to the end and yields [a] *)
| Indefinido           (* undefined behaviour: index out of an array, [int] overflow *)
| SinCombustible.      (* the embedding ran out of fuel *)

Arguments Ret {A} a.
Arguments Indefinido {A}.
Arguments SinCombustible {A}.

Definition ligar {A B : Type} (m : res A) (k : A → res B) : res B :=
  match m with
  | Ret a => k a
  | Indefinido => Indefinido
  | SinCombustible => SinCombustible
  end.

Notation "x <- m ;; k" := (ligar m (fun x => k))
  (at level 100, m at next level, right associativity).

(** ** Integers *)

Definition INT_MAX : Z := 2147483647.
Definition INT_MIN : Z := -2147483648.

Definition es_int (z : Z) : Prop := INT_MIN ≤ z ≤ INT_MAX.

(** The [int] that an arithmetic expression of value [z] yields. *)
Definition entero (z : Z) : res Z :=
  if decide (es_int z) then Ret z else Indefinido.

(** ** Arrays *)

(** [a[i]] as an rvalue. *)
Definition leer {A : Type} (a : list A) (i : Z) : res A :=
  if decide (0 ≤ i) then
    match a !! Z.to_nat i with
    | Some x => Ret x
    | None => Indefinido
    end
  else Indefinido.

(** [a[i] = x]. *)
Definition escribir {A : Type} (a : list A) (i : Z) (x : A) : res (list A) :=
  if decide (0 ≤ i < Z.of_nat (length a)) then Ret (<[Z.to_nat i := x]> a)
  else Indefinido.

(** [new T[n]]; [x] stands for the unspecified initial content. *)
Definition nuevo {A : Type} (n : Z) (x : A) : list A := replicate (Z.to_nat n) x.

(** [for (int i = desde; i < hasta; i++) cuerpo]: the body never assigns
    [i], so it runs for [i = desde, ..., hasta - 1]. *)
Fixpoint para_aux {St : Type} (cuerpo : Z → St → res St) (i : Z) (n : nat) (st : St)
  : res St :=
  match n with
  | O => Ret st
  | S n' => st' <- cuerpo i st ;; para_aux cuerpo (i + 1) n' st'
  end.

Definition para {St : Type} (desde hasta : Z) (cuerpo : Z → St → res St) (st : St)
  : res St :=
  para_aux cuerpo desde (Z.to_nat (hasta - desde)) st.

(** [while (archivo >> origen >> destino) cuerpo] over the pairs of the file. *)
Fixpoint mientras_pares {St : Type} (cuerpo : Z → Z → St → res St)
    (ps : list (Z * Z)) (st : St) : res St :=
  match ps with
  | [] => Ret st
  | (origen, destino) :: ps' =>
      st' <- cuerpo origen destino st ;; mientras_pares cuerpo ps' st'
  end.

(** ** The graph object *)

Record GrafoDisperso : Type := mkGrafo {
  numNodos : Z;
  numAristas : Z;
  esDirigido : bool;
  values : list Z;
  column_indices : list Z;
  row_ptr : list Z;
  capacidadAristas : Z;
  capacidadNodos : Z
}.

(** [GrafoDisperso::GrafoDisperso()]; a null pointer is an array without cells. *)
Definition grafo_vacio : GrafoDisperso :=
  {| numNodos := 0; numAristas := 0; esDirigido := true;
     values := []; column_indices := []; row_ptr := [];
     capacidadAristas := 0; capacidadNodos := 0 |}.

(** A file: [None] when [is_open()] fails. *)
Definition Archivo : Type := option (list (Z * Z)).

(** ** cargarDatos *)

(** First pass: [(nodoMaximo, contadorAristas)]. *)
Definition paso_conteo (origen destino : Z) (acc : Z * Z) : res (Z * Z) :=
  let '(nodoMaximo, contadorAristas) := acc in
  let nodoMaximo := if decide (origen > nodoMaximo) then origen else nodoMaximo in
  let nodoMaximo := if decide (destino > nodoMaximo) then destino else nodoMaximo in
  contadorAristas' <- entero (contadorAristas + 1) ;;
  Ret (nodoMaximo, contadorAristas').

Definition primera_pasada (ps : list (Z * Z)) : res (Z * Z) :=
  mientras_pares paso_conteo ps (-1, 0).

(** The temporary adjacency lists of the second pass. *)
Record Temporal : Type := mkTemporal {
  listaAdyacencia : list (list Z);
  contadores : list Z;
  capacidades : list Z
}.

(** The three arrays after the initialisation loop. *)
Definition temporal_inicial (n : Z) : res Temporal :=
  para 0 n
    (fun i t =>
       la <- escribir (listaAdyacencia t) i (nuevo 10 0) ;;
       co <- escribir (contadores t) i 0 ;;
       ca <- escribir (capacidades t) i 10 ;;
       Ret (mkTemporal la co ca))
    (mkTemporal (nuevo n []) (nuevo n 0) (nuevo n 0)).

(** The copy into the doubled array. *)
Definition copiar_fila (vieja : list Z) (cuantos : Z) (nuevoArray : list Z)
  : res (list Z) :=
  para 0 cuantos
    (fun i arr => x <- leer vieja i ;; escribir arr i x)
    nuevoArray.

(** Body of the second [while]. *)
Definition agregar_arista (origen destino : Z) (t : Temporal) : res Temporal :=
  c <- leer (contadores t) origen ;;
  cap <- leer (capacidades t) origen ;;
  t1 <- (if decide (c >= cap) then
           nuevaCapacidad <- entero (cap * 2) ;;
           vieja <- leer (listaAdyacencia t) origen ;;
           nuevoArray <- copiar_fila vieja c (nuevo nuevaCapacidad 0) ;;
           la <- escribir (listaAdyacencia t) origen nuevoArray ;;
           ca <- escribir (capacidades t) origen nuevaCapacidad ;;
           Ret (mkTemporal la (contadores t) ca)
         else Ret t) ;;
  fila <- leer (listaAdyacencia t1) origen ;;
  c1 <- leer (contadores t1) origen ;;
  c1' <- entero (c1 + 1) ;;
  co <- escribir (contadores t1) origen c1' ;;
  fila' <- escribir fila c1 destino ;;
  la <- escribir (listaAdyacencia t1) origen fila' ;;
  Ret (mkTemporal la co (capacidades t1)).

Definition segunda_pasada (n : Z) (ps : list (Z * Z)) : res Temporal :=
  t0 <- temporal_inicial n ;;
  mientras_pares agregar_arista ps t0.

(** ** construirCSR *)

(** The loop that fills [row_ptr]. *)
Definition llenar_row_ptr (n : Z) (conts : list Z) (rp : list Z) : res (list Z) :=
  rp0 <- escribir rp 0 0 ;;
  para 0 n
    (fun i rp =>
       i1 <- entero (i + 1) ;;
       a <- leer rp i ;;
       c <- leer conts i ;;
       ac <- entero (a + c) ;;
       escribir rp i1 ac)
    rp0.

(** State of the nested loops: [values], [column_indices], [indice]. *)
Definition llenar_celda (t : Temporal) (i j : Z) (st : list Z * list Z * Z)
  : res (list Z * list Z * Z) :=
  let '(vals, cols, indice) := st in
  vals' <- escribir vals indice 1 ;;
  fila <- leer (listaAdyacencia t) i ;;
  x <- leer fila j ;;
  cols' <- escribir cols indice x ;;
  indice' <- entero (indice + 1) ;;
  Ret (vals', cols', indice').

Definition llenar_columnas (n : Z) (t : Temporal) (vals cols : list Z)
  : res (list Z * list Z * Z) :=
  para 0 n
    (fun i st =>
       c <- leer (contadores t) i ;;
       para 0 c (llenar_celda t i) st)
    (vals, cols, 0).

Definition construirCSR (g : GrafoDisperso) (t : Temporal) : res GrafoDisperso :=
  let vals := nuevo (numAristas g) 0 in
  let cols := nuevo (numAristas g) 0 in
  tam <- entero (numNodos g + 1) ;;
  let rp := nuevo tam 0 in
  rp' <- llenar_row_ptr (numNodos g) (contadores t) rp ;;
  lleno <- llenar_columnas (numNodos g) t vals cols ;;
  let '(vals', cols', _) := lleno in
  Ret {| numNodos := numNodos g; numAristas := numAristas g;
         esDirigido := esDirigido g;
         values := vals'; column_indices := cols'; row_ptr := rp';
         capacidadAristas := capacidadAristas g;
         capacidadNodos := capacidadNodos g |}.

(** The [int] arithmetic of the memory estimate,
    [numAristas * 2 + numNodos + 1]; the product by [sizeof(int)] is
    unsigned, and the figure is only printed. *)
Definition estimar_memoria (g : GrafoDisperso) : res Z :=
  doble <- entero (numAristas g * 2) ;;
  suma <- entero (doble + numNodos g) ;;
  entero (suma + 1).

(** [cargarDatos]: the returned [bool] and the object afterwards. *)
Definition cargarDatos (archivo : Archivo) (g : GrafoDisperso)
  : res (bool * GrafoDisperso) :=
  match archivo with
  | None => Ret (false, g)
  | Some ps =>
      conteo <- primera_pasada ps ;;
      let '(nodoMaximo, contadorAristas) := conteo in
      n <- entero (nodoMaximo + 1) ;;
      let g1 := {| numNodos := n; numAristas := contadorAristas;
                   esDirigido := esDirigido g;
                   values := values g; column_indices := column_indices g;
                   row_ptr := row_ptr g;
                   capacidadAristas := capacidadAristas g;
                   capacidadNodos := capacidadNodos g |} in
      t <- segunda_pasada (numNodos g1) ps ;;
      g2 <- construirCSR g1 t ;;
      _ <- estimar_memoria g2 ;;
      Ret (true, g2)
  end.

(** ** Degree and neighbour queries *)

Definition obtenerGradoSalida (g : GrafoDisperso) (nodo : Z) : res Z :=
  if decide (nodo < 0 ∨ nodo >= numNodos g) then Ret 0
  else
    nodo1 <- entero (nodo + 1) ;;
    b <- leer (row_ptr g) nodo1 ;;
    a <- leer (row_ptr g) nodo ;;
    entero (b - a).

Definition obtenerGradoEntrada (g : GrafoDisperso) (nodo : Z) : res Z :=
  if decide (nodo < 0 ∨ nodo >= numNodos g) then Ret 0
  else
    para 0 (numAristas g)
      (fun i contador =>
         c <- leer (column_indices g) i ;;
         if decide (c = nodo) then entero (contador + 1) else Ret contador)
      0.

(** The reference parameters [vecinos] and [cantidadVecinos]: the function
    receives the caller's pointer and hands back the pointer and the count.
    The sequence it returns is made of the first [cantidad] cells. *)
Definition getVecinos (g : GrafoDisperso) (nodo : Z) (vecinos : list Z)
  : res (list Z * Z) :=
  if decide (nodo < 0 ∨ nodo >= numNodos g) then Ret (vecinos, 0)
  else
    inicioVecinos <- leer (row_ptr g) nodo ;;
    nodo1 <- entero (nodo + 1) ;;
    finVecinos <- leer (row_ptr g) nodo1 ;;
    cantidadVecinos <- entero (finVecinos - inicioVecinos) ;;
    if decide (cantidadVecinos > 0) then
      vecinos' <- para 0 cantidadVecinos
                    (fun i v =>
                       k <- entero (inicioVecinos + i) ;;
                       x <- leer (column_indices g) k ;;
                       escribir v i x)
                    (nuevo cantidadVecinos 0) ;;
      Ret (vecinos', cantidadVecinos)
    else Ret (vecinos, cantidadVecinos).

(** The sequence that a pointer and a count stand for. *)
Definition secuencia (r : list Z * Z) : list Z := take (Z.to_nat r.2) r.1.

(** Returned node and the reference parameter [gradoMaximo]. *)
Definition obtenerNodoMayorGrado (g : GrafoDisperso) : res (Z * Z) :=
  para 0 (numNodos g)
    (fun i '(nodoMaximo, gradoMaximo) =>
       grado <- obtenerGradoSalida g i ;;
       if decide (grado > gradoMaximo) then Ret (i, grado)
       else Ret (nodoMaximo, gradoMaximo))
    (-1, 0).

(** ** BFS *)

Record EstadoBFS : Type := mkBFS {
  marcados : list bool;
  distancias : list Z;
  cola : list Z;
  resultado : list Z;
  frente : Z;
  final : Z;
  contador : Z
}.

(** Body of the [for] over the CSR slots of [nodoActual]. *)
Definition visitar_vecino (g : GrafoDisperso) (distanciaActual : Z) (i : Z)
    (e : EstadoBFS) : res EstadoBFS :=
  vecino <- leer (column_indices g) i ;;
  m <- leer (marcados e) vecino ;;
  if m then Ret e
  else
    ma <- escribir (marcados e) vecino true ;;
    d1 <- entero (distanciaActual + 1) ;;
    di <- escribir (distancias e) vecino d1 ;;
    co <- escribir (cola e) (final e) vecino ;;
    final' <- entero (final e + 1) ;;
    re <- escribir (resultado e) (contador e) vecino ;;
    contador' <- entero (contador e + 1) ;;
    Ret (mkBFS ma di co re (frente e) final' contador').

(** Body of the [while]. *)
Definition paso_BFS (g : GrafoDisperso) (profundidadMax : Z) (e : EstadoBFS)
  : res EstadoBFS :=
  nodoActual <- leer (cola e) (frente e) ;;
  frente' <- entero (frente e + 1) ;;
  let e1 := mkBFS (marcados e) (distancias e) (cola e) (resultado e)
                  frente' (final e) (contador e) in
  distanciaActual <- leer (distancias e1) nodoActual ;;
  if decide (profundidadMax ≠ -1 ∧ distanciaActual >= profundidadMax) then Ret e1
  else
    inicioVecinos <- leer (row_ptr g) nodoActual ;;
    nodo1 <- entero (nodoActual + 1) ;;
    finVecinos <- leer (row_ptr g) nodo1 ;;
    para inicioVecinos finVecinos (visitar_vecino g distanciaActual) e1.

(** [while (frente < final)]. *)
Fixpoint bucle_BFS (combustible : nat) (g : GrafoDisperso) (profundidadMax : Z)
    (e : EstadoBFS) : res EstadoBFS :=
  if decide (frente e < final e) then
    match combustible with
    | O => SinCombustible
    | S c => e' <- paso_BFS g profundidadMax e ;; bucle_BFS c g profundidadMax e'
    end
  else Ret e.

(** The loop that copies [resultado] into the array handed to the caller. *)
Definition copiar_resultado (resultado : list Z) (contador : Z) : res (list Z) :=
  para 0 contador
    (fun i v => x <- leer resultado i ;; escribir v i x)
    (nuevo contador 0).

Definition inicio_BFS (g : GrafoDisperso) (nodoInicio : Z) : res EstadoBFS :=
  let n := numNodos g in
  md <- para 0 n
          (fun i '(ma, di) =>
             ma' <- escribir ma i false ;;
             di' <- escribir di i (-1) ;;
             Ret (ma', di'))
          (nuevo n false, nuevo n 0) ;;
  let '(ma, di) := md in
  co <- escribir (nuevo n 0) 0 nodoInicio ;;
  ma <- escribir ma nodoInicio true ;;
  di <- escribir di nodoInicio 0 ;;
  re <- escribir (nuevo n 0) 0 nodoInicio ;;
  Ret (mkBFS ma di co re 0 1 1).

(** [BFS]: the caller's pointer [visitados] goes in, the pointer and
    [cantidadVisitados] come out.  Each turn of the [while] takes one node
    out of [cola], which has [numNodos] cells, so [numNodos] units of fuel
    are as many as the loop can use. *)
Definition BFS (g : GrafoDisperso) (nodoInicio profundidadMax : Z)
    (visitados : list Z) : res (list Z * Z) :=
  if decide (nodoInicio < 0 ∨ nodoInicio >= numNodos g) then Ret (visitados, 0)
  else
    e0 <- inicio_BFS g nodoInicio ;;
    e <- bucle_BFS (Z.to_nat (numNodos g)) g profundidadMax e0 ;;
    visitados' <- copiar_resultado (resultado e) (contador e) ;;
    Ret (visitados', contador e).

(** ** DFS *)

Record EstadoDFS : Type := mkDFS {
  dfs_visitados : list bool;
  dfs_resultado : list Z;
  dfs_contador : Z
}.

(** [DFSRecursivo]; the fuel bounds the depth of the recursion. *)
Fixpoint DFSRecursivo (combustible : nat) (g : GrafoDisperso) (nodoActual : Z)
    (e : EstadoDFS) : res EstadoDFS :=
  match combustible with
  | O => SinCombustible
  | S c =>
      vi <- escribir (dfs_visitados e) nodoActual true ;;
      re <- escribir (dfs_resultado e) (dfs_contador e) nodoActual ;;
      contador' <- entero (dfs_contador e + 1) ;;
      let e1 := mkDFS vi re contador' in
      inicioVecinos <- leer (row_ptr g) nodoActual ;;
      nodo1 <- entero (nodoActual + 1) ;;
      finVecinos <- leer (row_ptr g) nodo1 ;;
      para inicioVecinos finVecinos
        (fun i e =>
           vecino <- leer (column_indices g) i ;;
           m <- leer (dfs_visitados e) vecino ;;
           if m then Ret e else DFSRecursivo c g vecino e)
        e1
  end.

(** [DFS].  A call of [DFSRecursivo] marks a node that was not marked, so
    the recursion is at most [numNodos] deep. *)
Definition DFS (g : GrafoDisperso) (nodoInicio : Z) (visitados : list Z)
  : res (list Z * Z) :=
  if decide (nodoInicio < 0 ∨ nodoInicio >= numNodos g) then Ret (visitados, 0)
  else
    let n := numNodos g in
    ma <- para 0 n (fun i ma => escribir ma i false) (nuevo n false) ;;
    e <- DFSRecursivo (Z.to_nat n) g nodoInicio (mkDFS ma (nuevo n 0) 0) ;;
    visitados' <- copiar_resultado (dfs_resultado e) (dfs_contador e) ;;
    Ret (visitados', dfs_contador e).

(** ** The accessors of [GrafoBase] *)

Definition getNumNodos (g : GrafoDisperso) : Z := numNodos g.

Definition getNumAristas (g : GrafoDisperso) : Z := numAristas g.

Definition esGrafoDirigido (g : GrafoDisperso) : bool := esDirigido g.

(** ** The test functions of [main.cpp] *)

(** The statements that print an array, which [probarBFS], [probarDFS]
    (with [maximo = 20]) and [analizarNodo] (with [maximo = 15]) each
    contain: the cells below [limite] are read and printed one by one, and
    then, when the array has more, the number of those left out.  The
    outcome is the list of the numbers printed and that number. *)
Definition listar (arreglo : list Z) (cantidad maximo : Z)
  : res (list Z * option Z) :=
  let limite := if decide (cantidad > maximo) then maximo else cantidad in
  impresos <- para 0 limite
                (fun i impresos =>
                   x <- leer arreglo i ;;
                   _ <- entero (limite - 1) ;;
                   Ret (impresos ++ [x]))
                [] ;;
  if decide (cantidad > maximo) then
    resto <- entero (cantidad - maximo) ;;
    Ret (impresos, Some resto)
  else Ret (impresos, None).

(** What [probarBFS] and [probarDFS] print about a traversal. *)
Record Listado : Type := mkListado {
  total : Z;
  impresos : list Z;
  restantes : option Z
}.

(** [probarBFS]; [nodoInicio] and [profundidadMax] are the integers that
    the two extractions from [std::cin] deliver. *)
Definition probarBFS (grafo : GrafoDisperso) (nodoInicio profundidadMax : Z)
  : res Listado :=
  _ <- entero (getNumNodos grafo - 1) ;;
  r <- BFS grafo nodoInicio profundidadMax [] ;;
  let '(visitados, cantidadVisitados) := r in
  l <- listar visitados cantidadVisitados 20 ;;
  Ret (mkListado cantidadVisitados l.1 l.2).

Definition probarDFS (grafo : GrafoDisperso) (nodoInicio : Z) : res Listado :=
  _ <- entero (getNumNodos grafo - 1) ;;
  r <- DFS grafo nodoInicio [] ;;
  let '(visitados, cantidadVisitados) := r in
  l <- listar visitados cantidadVisitados 20 ;;
  Ret (mkListado cantidadVisitados l.1 l.2).

(** What [analizarNodo] prints about a node. *)
Record Analisis : Type := mkAnalisis {
  gradoSalida : Z;
  gradoEntrada : Z;
  gradoTotal : Z;
  cantidadVecinos : Z;
  vecinos_impresos : list Z;
  vecinos_restantes : option Z
}.

(** [analizarNodo]; [nodo] is the integer that the extraction from
    [std::cin] delivers, and [None] is the report of an invalid node. *)
Definition analizarNodo (grafo : GrafoDisperso) (nodo : Z) : res (option Analisis) :=
  _ <- entero (getNumNodos grafo - 1) ;;
  if decide (nodo < 0 ∨ nodo >= getNumNodos grafo) then Ret None
  else
    gradoSalida <- obtenerGradoSalida grafo nodo ;;
    gradoEntrada <- obtenerGradoEntrada grafo nodo ;;
    gradoTotal <- entero (gradoSalida + gradoEntrada) ;;
    r <- getVecinos grafo nodo [] ;;
    let '(vecinos, cantidadVecinos) := r in
    if decide (cantidadVecinos > 0) then
      l <- listar vecinos cantidadVecinos 15 ;;
      Ret (Some (mkAnalisis gradoSalida gradoEntrada gradoTotal
                            cantidadVecinos l.1 l.2))
    else
      Ret (Some (mkAnalisis gradoSalida gradoEntrada gradoTotal
                            cantidadVecinos [] None)).

(** * Vocabulary of the specification *)

(** [r] returns a value that satisfies [P], or is undefined behaviour and
    then [Q] holds; the fuel has not run out. *)
Definition resultado_es {A : Type} (P : A → Prop) (Q : Prop) (r : res A) : Prop :=
  match r with
  | Ret a => P a
  | Indefinido => Q
  | SinCombustible => False
  end.

(** The cell [i] of [a], when there is one. *)
Definition ver {A : Type} (a : list A) (i : Z) : option A :=
  if decide (0 ≤ i) then a !! Z.to_nat i else None.

(** Destinations of the pairs whose origin is [i], in file order. *)
Definition destinos (ps : list (Z * Z)) (i : Z) : list Z :=
  (filter (λ p, p.1 = i) ps).*2.

(** The rows of the nodes [0 .. n-1]. *)
Definition filas (ps : list (Z * Z)) (n : Z) : list (list Z) :=
  destinos ps <$> seqZ 0 n.

(** Number of edges whose origin is below [j]. *)
Definition desplazamiento (ps : list (Z * Z)) (j : Z) : Z :=
  Z.of_nat (length (concat (filas ps j))).

(** Greatest identifier of the file, or -1 when it has no pair. *)
Definition nodo_maximo (ps : list (Z * Z)) : Z :=
  foldl (λ m p, Z.max (Z.max m p.1) p.2) (-1) ps.

(** The sizes of the file fit the [int] arithmetic of the loader, whose
    largest figure is [numAristas * 2 + numNodos + 1]. *)
Definition cabe_en_int (ps : list (Z * Z)) : Prop :=
  2 * Z.of_nat (length ps) + (nodo_maximo ps + 1) + 1 ≤ INT_MAX.

(** No pair has a negative origin. *)
Definition origenes_validos (ps : list (Z * Z)) : Prop :=
  Forall (λ p, 0 ≤ p.1) ps.

(** An edge list of non-negative pairs. *)
Definition sin_negativos (ps : list (Z * Z)) : Prop :=
  Forall (λ p, 0 ≤ p.1 ∧ 0 ≤ p.2) ps.

(** The temporary lists hold the rows of the pairs [ps] read so far. *)
Definition temporal_de (n : Z) (ps : list (Z * Z)) (t : Temporal) : Prop :=
  length (listaAdyacencia t) = Z.to_nat n ∧
  length (contadores t) = Z.to_nat n ∧
  length (capacidades t) = Z.to_nat n ∧
  ∀ i, 0 ≤ i < n →
    ∃ fila, ver (listaAdyacencia t) i = Some fila ∧
            ver (contadores t) i = Some (Z.of_nat (length (destinos ps i))) ∧
            ver (capacidades t) i = Some (Z.of_nat (length fila)) ∧
            take (length (destinos ps i)) fila = destinos ps i ∧
            (0 < length fila)%nat.

(** The object that the loader leaves behind for the edge list [ps]. *)
Definition csr_de (ps : list (Z * Z)) (g : GrafoDisperso) : Prop :=
  0 ≤ numNodos g ∧
  Forall (λ p, p.1 < numNodos g ∧ p.2 < numNodos g) ps ∧
  (ps = [] → numNodos g = 0) ∧
  numAristas g = Z.of_nat (length ps) ∧
  values g = replicate (length ps) 1 ∧
  column_indices g = concat (filas ps (numNodos g)) ∧
  length (row_ptr g) = Z.to_nat (numNodos g + 1) ∧
  ∀ j, 0 ≤ j ≤ numNodos g → ver (row_ptr g) j = Some (desplazamiento ps j).

(** A graph built by [cargarDatos] from an edge list of non-negative pairs. *)
Definition construido (g : GrafoDisperso) : Prop :=
  ∃ ps g0, sin_negativos ps ∧ cargarDatos (Some ps) g0 = Ret (true, g).

(** The invariants of the CSR arrays that the queries rely on. *)
Record csr_ok (g : GrafoDisperso) : Prop := mk_csr_ok {
  ok_nodos : 0 ≤ numNodos g;
  ok_aristas : 0 < numNodos g → 0 < numAristas g;
  ok_row_len : length (row_ptr g) = Z.to_nat (numNodos g + 1);
  ok_row_0 : ver (row_ptr g) 0 = Some 0;
  ok_row_n : ver (row_ptr g) (numNodos g) = Some (numAristas g);
  ok_row_mono : ∀ i j a b, i ≤ j →
    ver (row_ptr g) i = Some a → ver (row_ptr g) j = Some b → a ≤ b;
  ok_cols_len : Z.of_nat (length (column_indices g)) = numAristas g;
  ok_cols : Forall (λ c, 0 ≤ c < numNodos g) (column_indices g);
  ok_vals_len : Z.of_nat (length (values g)) = numAristas g;
  ok_vals : Forall (λ x, x = 1) (values g);
  ok_nodos_int : numNodos g ≤ INT_MAX;
  ok_aristas_int : numAristas g ≤ INT_MAX
}.

(** The slice of [column_indices] that belongs to [u]. *)
Definition vecinos_de (g : GrafoDisperso) (u : Z) : list Z :=
  match ver (row_ptr g) u, ver (row_ptr g) (u + 1) with
  | Some a, Some b =>
      take (Z.to_nat (b - a)) (drop (Z.to_nat a) (column_indices g))
  | _, _ => []
  end.

(** [u → v] is a directed edge; in a built graph these are the pairs of the
    file, see [arista_construido]. *)
Definition arista (g : GrafoDisperso) (u v : Z) : Prop := v ∈ vecinos_de g u.

(** [camino g s k v]: [k] edges lead from [s] to [v]. *)
Inductive camino (g : GrafoDisperso) (s : Z) : nat → Z → Prop :=
| camino_0 : camino g s 0 s
| camino_S k u v : camino g s k u → arista g u v → camino g s (S k) v.

(** [v] is reachable from [s] along directed edges. *)
Definition alcanzable (g : GrafoDisperso) (s v : Z) : Prop := ∃ k, camino g s k v.

(** [d] is the least number of edges from [s] to [v]. *)
Definition distancia (g : GrafoDisperso) (s v : Z) (d : nat) : Prop :=
  camino g s d v ∧ ∀ k, camino g s k v → (d ≤ k)%nat.

(** Out-degree read off [row_ptr]. *)
Definition grado (g : GrafoDisperso) (i : Z) : Z :=
  default 0 (ver (row_ptr g) (i + 1)) - default 0 (ver (row_ptr g) i).

(** Distance recorded for [v]. *)
Definition dist_de (dis : list Z) (v : Z) : Z := default 0 (ver dis v).

(** The depth test lets a node at distance [d] explore its neighbours. *)
Definition explora (pm d : Z) : Prop := ¬ (pm ≠ -1 ∧ d >= pm).

(** One neighbour seen from a node at distance [d]: the pair holds the
    nodes enqueued so far, in order, and the array of distances. *)
Definition visita (d : Z) (st : list Z * list Z) (w : Z) : list Z * list Z :=
  if decide (w ∈ st.1) then st
  else (st.1 ++ [w], <[Z.to_nat w := d + 1]> st.2).

(** One turn of the [while] for the node at position [f] of the queue. *)
Definition paso_puro (g : GrafoDisperso) (pm : Z) (st : list Z * list Z)
    (f : nat) : list Z * list Z :=
  match st.1 !! f with
  | Some u =>
      let d := dist_de st.2 u in
      if decide (pm ≠ -1 ∧ d >= pm) then st
      else foldl (visita d) st (vecinos_de g u)
  | None => st
  end.

(** Invariant of the breadth-first walk from [s]; the first [p] nodes of
    the queue have been taken out and dealt with. *)
Record inv_BFS (g : GrafoDisperso) (s pm : Z) (st : list Z * list Z) (p : nat)
  : Prop := mk_inv_BFS {
  inv_dis_len : length st.2 = Z.to_nat (numNodos g);
  inv_rango : Forall (λ v, 0 ≤ v < numNodos g) st.1;
  inv_nodup : NoDup st.1;
  inv_inicio : st.1 !! 0%nat = Some s ∧ dist_de st.2 s = 0;
  inv_camino : ∀ v, v ∈ st.1 →
    0 ≤ dist_de st.2 v ∧ camino g s (Z.to_nat (dist_de st.2 v)) v ∧
    (dist_de st.2 v = 0 ∨ explora pm (dist_de st.2 v - 1));
  inv_orden : ∀ i j vi vj, (i ≤ j)%nat →
    st.1 !! i = Some vi → st.1 !! j = Some vj →
    dist_de st.2 vi ≤ dist_de st.2 vj;
  inv_holgura : ∀ i j vi vj, (p ≤ i)%nat →
    st.1 !! i = Some vi → st.1 !! j = Some vj →
    dist_de st.2 vj ≤ dist_de st.2 vi + 1;
  inv_cierre : ∀ i u w, (i < p)%nat →
    st.1 !! i = Some u → explora pm (dist_de st.2 u) → arista g u w →
    w ∈ st.1 ∧ dist_de st.2 w ≤ dist_de st.2 u + 1;
  inv_cota : ∀ i v, st.1 !! i = Some v → dist_de st.2 v ≤ Z.of_nat i
}.

(** The arrays of [e] hold the queue and the distances of [st]. *)
Definition rep_BFS (g : GrafoDisperso) (e : EstadoBFS) (st : list Z * list Z)
  : Prop :=
  length (marcados e) = Z.to_nat (numNodos g) ∧
  length (cola e) = Z.to_nat (numNodos g) ∧
  length (resultado e) = Z.to_nat (numNodos g) ∧
  length st.2 = Z.to_nat (numNodos g) ∧
  NoDup st.1 ∧ Forall (λ v, 0 ≤ v < numNodos g) st.1 ∧
  distancias e = st.2 ∧
  final e = Z.of_nat (length st.1) ∧ contador e = final e ∧
  take (length st.1) (cola e) = st.1 ∧
  take (length st.1) (resultado e) = st.1 ∧
  ∀ v, 0 ≤ v < numNodos g → ver (marcados e) v = Some (bool_decide (v ∈ st.1)).

(** The arrays of [e] hold the visit order [R]. *)
Definition rep_DFS (g : GrafoDisperso) (e : EstadoDFS) (R : list Z) : Prop :=
  length (dfs_visitados e) = Z.to_nat (numNodos g) ∧
  length (dfs_resultado e) = Z.to_nat (numNodos g) ∧
  dfs_contador e = Z.of_nat (length R) ∧
  take (length R) (dfs_resultado e) = R ∧
  NoDup R ∧ Forall (λ v, 0 ≤ v < numNodos g) R ∧
  ∀ v, 0 ≤ v < numNodos g →
       ver (dfs_visitados e) v = Some (bool_decide (v ∈ R)).

(** The queue has [numNodos] cells and [final] does not pass them. *)
Definition cola_acotada (g : GrafoDisperso) (e : EstadoBFS) : Prop :=
  Z.of_nat (length (cola e)) = numNodos g ∧ final e ≤ numNodos g.

(** Number of cells of an array of marks that are not set. *)
Definition falsos (l : list bool) : nat := length (filter (λ b, b = false) l).

(** Sum of a list of integers. *)
Definition suma (l : list Z) : Z := foldr Z.add 0 l.

(** The pairs of the file that leave [u], and those that arrive at [v]. *)
Definition salientes (ps : list (Z * Z)) (u : Z) : list (Z * Z) :=
  filter (λ p, p.1 = u) ps.

Definition entrantes (ps : list (Z * Z)) (v : Z) : list (Z * Z) :=
  filter (λ p, p.2 = v) ps.

(** The object that a load of [ps] into [g0] is expected to leave: the
    pairs grouped by origin, each group in the order of the file, and in
    [row_ptr[j]] the number of pairs whose origin is below [j]. *)
Definition csr_esperado (ps : list (Z * Z)) (g0 : GrafoDisperso) : GrafoDisperso :=
  let n := nodo_maximo ps + 1 in
  {| numNodos := n; numAristas := Z.of_nat (length ps);
     esDirigido := esDirigido g0;
     values := replicate (length ps) 1;
     column_indices := concat ((λ u, (salientes ps u).*2) <$> seqZ 0 n);
     row_ptr := (λ j, Z.of_nat (length (filter (λ p, p.1 < j) ps))) <$> seqZ 0 (n + 1);
     capacidadAristas := capacidadAristas g0;
     capacidadNodos := capacidadNodos g0 |}.

(** The first neighbour of [x], in the order of its CSR slice, that is not
    among [vistos]. *)
Definition primer_vecino_nuevo (g : GrafoDisperso) (vistos : list Z) (x : Z)
  : option Z :=
  head (filter (λ w, w ∉ vistos) (vecinos_de g x)).

(** The rule of a depth-first order, from the position [desde] on: a node
    that has a neighbour not yet listed is followed by the first such
    neighbour. *)
Definition regla_profundidad (g : GrafoDisperso) (L : list Z) (desde : nat) : Prop :=
  ∀ j x w, (desde ≤ j)%nat → L !! j = Some x →
    primer_vecino_nuevo g (take (S j) L) x = Some w → L !! (S j) = Some w.

(** The walk on lists: [combustible] turns of the [while], from the
    position [p] of the queue on. *)
Fixpoint recorrido_puro (combustible : nat) (g : GrafoDisperso) (pm : Z)
    (st : list Z * list Z) (p : nat) : list Z * list Z :=
  match combustible with
  | O => st
  | S c =>
      if decide (p < length st.1)%nat
      then recorrido_puro c g pm (paso_puro g pm st p) (S p)
      else st
  end.

(** The scenario of the specification. *)
Definition ejemplo : list (Z * Z) := [(0, 1); (0, 2); (1, 2); (2, 0)].

(** The object that the loader builds for it. *)
Definition grafo_ejemplo : GrafoDisperso :=
  {| numNodos := 3; numAristas := 4; esDirigido := true;
     values := [1; 1; 1; 1]; column_indices := [1; 2; 2; 0];
     row_ptr := [0; 2; 3; 4];
     capacidadAristas := 0; capacidadNodos := 0 |}.

(** A chain with a shortcut: [0→1→2→3→4], [0→4], [4→5], and [6→0]. *)
Definition cadena : list (Z * Z) :=
  [(0, 1); (1, 2); (2, 3); (3, 4); (0, 4); (4, 5); (6, 0)].

Definition grafo_cadena : GrafoDisperso :=
  {| numNodos := 7; numAristas := 7; esDirigido := true;
     values := [1; 1; 1; 1; 1; 1; 1];
     column_indices := [1; 4; 2; 3; 4; 5; 0];
     row_ptr := [0; 2; 3; 4; 5; 6; 6; 7];
     capacidadAristas := 0; capacidadNodos := 0 |}.

(** * Reasoning about the embedding *)

(** ** Arrays seen through integer indices *)

Lemma leer_ver {A : Type} (a : list A) (i : Z) :
  leer a i = match ver a i with Some x => Ret x | None => Indefinido end.
Proof. unfold leer, ver. by destruct (decide (0 ≤ i)). Qed.

Lemma ver_Some_rango {A : Type} (a : list A) (i : Z) (x : A) :
  ver a i = Some x → 0 ≤ i < Z.of_nat (length a).
Proof.
  unfold ver. destruct (decide (0 ≤ i)) as [Hi|Hi]; [|done].
  intros H%lookup_lt_Some. lia.
Qed.

Lemma ver_rango_Some {A : Type} (a : list A) (i : Z) :
  0 ≤ i < Z.of_nat (length a) → ∃ x, ver a i = Some x.
Proof.
  intros Hi. unfold ver. rewrite decide_True by lia.
  apply lookup_lt_is_Some. lia.
Qed.

Lemma ver_fuera {A : Type} (a : list A) (i : Z) :
  ¬ (0 ≤ i < Z.of_nat (length a)) → ver a i = None.
Proof.
  intros Hi. destruct (ver a i) as [x|] eqn:E; [|done].
  apply ver_Some_rango in E. lia.
Qed.

Lemma ver_insert {A : Type} (a : list A) (i j : Z) (x : A) :
  0 ≤ i < Z.of_nat (length a) →
  ver (<[Z.to_nat i := x]> a) j = if decide (j = i) then Some x else ver a j.
Proof.
  intros Hi. unfold ver. destruct (decide (j = i)) as [->|Hne].
  - rewrite decide_True by lia. apply list_lookup_insert_eq. lia.
  - destruct (decide (0 ≤ j)); [|done].
    apply list_lookup_insert_ne. lia.
Qed.

Lemma length_nuevo {A : Type} (n : Z) (x : A) :
  length (nuevo n x) = Z.to_nat n.
Proof. apply length_replicate. Qed.

Lemma leer_Ret {A : Type} (a : list A) (i : Z) (x : A) :
  ver a i = Some x → leer a i = Ret x.
Proof. intros H. by rewrite leer_ver, H. Qed.

Lemma leer_Indefinido {A : Type} (a : list A) (i : Z) :
  ¬ (0 ≤ i < Z.of_nat (length a)) → leer a i = Indefinido.
Proof. intros H. by rewrite leer_ver, ver_fuera. Qed.

Lemma escribir_Ret {A : Type} (a : list A) (i : Z) (x : A) :
  0 ≤ i < Z.of_nat (length a) → escribir a i x = Ret (<[Z.to_nat i := x]> a).
Proof. intros H. unfold escribir. by rewrite decide_True. Qed.

Lemma entero_Ret (z : Z) : es_int z → entero z = Ret z.
Proof. intros H. unfold entero. by rewrite decide_True. Qed.

Lemma entero_Indefinido (z : Z) : ¬ es_int z → entero z = Indefinido.
Proof. intros H. unfold entero. by rewrite decide_False. Qed.

Ltac int_lia := unfold es_int, INT_MAX, INT_MIN in *; lia.

(** Runs the accesses whose index is known to be in range and the
    arithmetic that is known to stay within [int]. *)
Ltac corre :=
  cbn [ligar];
  repeat (first [ rewrite escribir_Ret by (rewrite ?length_insert; lia)
                | rewrite entero_Ret by int_lia
                | erewrite leer_Ret by eassumption ];
          cbn [ligar]).

(** ** The rule of the [for] loop *)

Lemma para_aux_regla {St : Type} (I : Z → St → Prop) (cuerpo : Z → St → res St)
    (n : nat) : ∀ (i : Z) (st : St),
  (∀ j s, i ≤ j < i + Z.of_nat n → I j s →
          ∃ s', cuerpo j s = Ret s' ∧ I (j + 1) s') →
  I i st →
  ∃ st', para_aux cuerpo i n st = Ret st' ∧ I (i + Z.of_nat n) st'.
Proof.
  induction n as [|n IH]; intros i st Hc Hi; simpl.
  - exists st. split; [done|]. by replace (i + Z.of_nat 0) with i by lia.
  - destruct (Hc i st) as (s' & -> & Hs'); [lia|done|]. simpl.
    destruct (IH (i + 1) s') as (st' & -> & Hst'); [|done|].
    + intros j s Hj. apply Hc. lia.
    + exists st'. split; [done|].
      by replace (i + Z.of_nat (S n)) with (i + 1 + Z.of_nat n) by lia.
Qed.

Lemma para_regla {St : Type} (I : Z → St → Prop) (cuerpo : Z → St → res St)
    (a b : Z) (st : St) :
  a ≤ b →
  (∀ j s, a ≤ j < b → I j s → ∃ s', cuerpo j s = Ret s' ∧ I (j + 1) s') →
  I a st →
  ∃ st', para a b cuerpo st = Ret st' ∧ I b st'.
Proof.
  intros Hab Hc Hi. unfold para.
  destruct (para_aux_regla I cuerpo (Z.to_nat (b - a)) a st) as (st' & E & H);
    [|done|].
  - intros j s Hj. apply Hc. lia.
  - exists st'. split; [done|].
    replace (a + Z.of_nat (Z.to_nat (b - a))) with b in H by lia. done.
Qed.

(** ** What the loader computes, in terms of the edge list *)

Lemma destinos_app ps qs i : destinos (ps ++ qs) i = destinos ps i ++ destinos qs i.
Proof. unfold destinos. by rewrite filter_app, fmap_app. Qed.

Lemma destinos_uno o d i :
  destinos [(o, d)] i = if decide (o = i) then [d] else [].
Proof.
  unfold destinos. rewrite filter_cons. simpl.
  by destruct (decide (o = i)).
Qed.

Lemma filas_S ps (j : Z) :
  0 ≤ j → filas ps (j + 1) = filas ps j ++ [destinos ps j].
Proof.
  intros Hj. unfold filas.
  replace (j + 1) with (Z.of_nat (S (Z.to_nat j))) by lia.
  rewrite seqZ_S, fmap_app. simpl.
  by replace (Z.of_nat (Z.to_nat j)) with j by lia.
Qed.

Lemma desplazamiento_0 ps : desplazamiento ps 0 = 0.
Proof. done. Qed.

Lemma desplazamiento_S ps j :
  0 ≤ j →
  desplazamiento ps (j + 1) = desplazamiento ps j + Z.of_nat (length (destinos ps j)).
Proof.
  intros Hj. unfold desplazamiento.
  rewrite filas_S, concat_app, length_app by done. simpl.
  rewrite app_nil_r. lia.
Qed.

Lemma desplazamiento_mono ps i j :
  0 ≤ i ≤ j → desplazamiento ps i ≤ desplazamiento ps j.
Proof.
  intros [Hi Hij]. replace j with (i + Z.of_nat (Z.to_nat (j - i))) by lia.
  induction (Z.to_nat (j - i)) as [|k IH].
  - replace (i + Z.of_nat 0) with i by lia. lia.
  - replace (i + Z.of_nat (S k)) with (i + Z.of_nat k + 1) by lia.
    rewrite desplazamiento_S by lia. lia.
Qed.

(** Each pair is counted in the row of its origin, and nowhere else. *)
Lemma desplazamiento_total ps n :
  Forall (λ p, 0 ≤ p.1 < n) ps → desplazamiento ps n = Z.of_nat (length ps).
Proof.
  intros Hps. destruct (decide (0 ≤ n)) as [Hn|Hn]; last first.
  { destruct ps as [|[o d] ps].
    - unfold desplazamiento, filas. by rewrite seqZ_nil by lia.
    - apply Forall_cons_1 in Hps as [Ho _]. simpl in Ho. lia. }
  assert (∀ j, 0 ≤ j →
    desplazamiento ps j = Z.of_nat (length (filter (λ p, p.1 < j) ps))) as H.
  { intros j Hj. replace j with (Z.of_nat (Z.to_nat j)) by lia.
    induction (Z.to_nat j) as [|k IH]; simpl.
    - rewrite desplazamiento_0.
      clear Hj. induction Hps as [|[o d] ps Ho _ IH]; [done|].
      rewrite filter_cons_False; [done|simpl in *; lia].
    - replace (Z.of_nat (S k)) with (Z.of_nat k + 1) by lia.
      rewrite desplazamiento_S, IH by lia.
      unfold destinos. rewrite length_fmap.
      clear. induction ps as [|[o d] ps IH]; [done|].
      rewrite !filter_cons. simpl.
      destruct (decide (o < Z.of_nat k + 1)), (decide (o < Z.of_nat k)),
        (decide (o = Z.of_nat k)); simpl; lia. }
  rewrite H by done. f_equal. f_equal.
  clear H. induction Hps as [|[o d] ps Ho _ IH]; [done|].
  rewrite filter_cons_True; [by f_equal|simpl in *; lia].
Qed.

(** *** First pass *)

Lemma resultado_es_total {A : Type} (P : A → Prop) (Q : Prop) (r : res A) :
  resultado_es P Q r → ¬ Q → ∃ a, r = Ret a ∧ P a.
Proof. destruct r as [a| |]; simpl; intros H HQ; [by exists a|done..]. Qed.

Lemma foldl_max_cota (ps : list (Z * Z)) : ∀ m,
  m ≤ foldl (λ m p, Z.max (Z.max m p.1) p.2) m ps ∧
  Forall (λ p, p.1 ≤ foldl (λ m p, Z.max (Z.max m p.1) p.2) m ps ∧
               p.2 ≤ foldl (λ m p, Z.max (Z.max m p.1) p.2) m ps) ps.
Proof.
  induction ps as [|[o d] ps IH]; intros m; simpl; [split; [lia|constructor]|].
  destruct (IH (Z.max (Z.max m o) d)) as [Hm Hps].
  split; [lia|]. constructor; [simpl; lia|done].
Qed.

Lemma nodo_maximo_cota ps :
  -1 ≤ nodo_maximo ps ∧
  Forall (λ p, p.1 ≤ nodo_maximo ps ∧ p.2 ≤ nodo_maximo ps) ps.
Proof. apply foldl_max_cota. Qed.

Lemma mientras_conteo ps : ∀ m c,
  0 ≤ c ≤ INT_MAX →
  resultado_es
    (λ r, r.1 = foldl (λ m p, Z.max (Z.max m p.1) p.2) m ps ∧
          r.2 = c + Z.of_nat (length ps) ∧ r.2 ≤ INT_MAX)
    (INT_MAX < c + Z.of_nat (length ps))
    (mientras_pares paso_conteo ps (m, c)).
Proof.
  induction ps as [|[o d] ps IH]; intros m c Hc; simpl.
  - split_and!; try done; try lia.
  - destruct (decide (c + 1 ≤ INT_MAX)) as [Hle|Hgt].
    + rewrite entero_Ret by int_lia. cbn [ligar].
      match goal with |- resultado_es _ _ (mientras_pares _ _ (?m1, _)) =>
        replace m1 with (Z.max (Z.max m o) d) by (repeat case_decide; lia)
      end.
      specialize (IH (Z.max (Z.max m o) d) (c + 1) ltac:(lia)).
      destruct (mientras_pares paso_conteo ps (Z.max (Z.max m o) d, c + 1))
        as [[m2 c2]| |]; simpl in *; [|lia|done].
      destruct IH as (Hm2 & Hc2 & Hint). split_and!; try done; lia.
    + rewrite entero_Indefinido by int_lia. simpl. lia.
Qed.

Lemma primera_pasada_spec ps :
  resultado_es
    (λ r, r.1 = nodo_maximo ps ∧ r.2 = Z.of_nat (length ps) ∧ r.2 ≤ INT_MAX)
    (INT_MAX < Z.of_nat (length ps))
    (primera_pasada ps).
Proof.
  unfold primera_pasada.
  pose proof (mientras_conteo ps (-1) 0 ltac:(int_lia)) as H.
  by rewrite !Z.add_0_l in H.
Qed.

(** *** Second pass *)

Lemma temporal_inicial_spec n :
  0 ≤ n → ∃ t, temporal_inicial n = Ret t ∧ temporal_de n [] t.
Proof.
  intros Hn. unfold temporal_inicial.
  destruct (para_regla
    (λ i t, length (listaAdyacencia t) = Z.to_nat n ∧
            length (contadores t) = Z.to_nat n ∧
            length (capacidades t) = Z.to_nat n ∧
            ∀ k, 0 ≤ k < i →
              ver (listaAdyacencia t) k = Some (nuevo 10 0) ∧
              ver (contadores t) k = Some 0 ∧
              ver (capacidades t) k = Some 10)
    (fun i t =>
       la <- escribir (listaAdyacencia t) i (nuevo 10 0) ;;
       co <- escribir (contadores t) i 0 ;;
       ca <- escribir (capacidades t) i 10 ;;
       Ret (mkTemporal la co ca))
    0 n (mkTemporal (nuevo n []) (nuevo n 0) (nuevo n 0)))
    as (t & E & Hla & Hco & Hca & Ht); [done| |..].
  - intros j [la co ca] Hj (Hla & Hco & Hca & Hk). simpl in *.
    rewrite !escribir_Ret by lia. simpl. eexists. split; [done|]. simpl.
    rewrite !length_insert. repeat split; try done.
    all: rewrite ver_insert by lia; case_decide; [done|]; apply Hk; lia.
  - simpl. rewrite !length_nuevo. repeat split; try done; lia.
  - exists t. split; [done|]. repeat split; try done.
    intros i Hi. destruct (Ht i Hi) as (H1 & H2 & H3).
    exists (nuevo 10 0). repeat split; try done. simpl. lia.
Qed.

Lemma copiar_fila_spec vieja c arr :
  0 ≤ c ≤ Z.of_nat (length vieja) → c ≤ Z.of_nat (length arr) →
  ∃ arr', copiar_fila vieja c arr = Ret arr' ∧ length arr' = length arr ∧
          take (Z.to_nat c) arr' = take (Z.to_nat c) vieja.
Proof.
  intros Hc Hc'. unfold copiar_fila.
  destruct (para_regla
    (λ i a, length a = length arr ∧ take (Z.to_nat i) a = take (Z.to_nat i) vieja)
    (fun i a => x <- leer vieja i ;; escribir a i x) 0 c arr)
    as (arr' & E & Hl & Ht); [lia| |done|by exists arr'].
  intros j a Hj [Hl Ht].
  destruct (ver_rango_Some vieja j) as [x Hx]; [lia|].
  rewrite (leer_Ret _ _ _ Hx). simpl. rewrite escribir_Ret by lia.
  eexists. split; [done|]. rewrite length_insert. split; [done|].
  replace (Z.to_nat (j + 1)) with (S (Z.to_nat j)) by lia.
  unfold ver in Hx. rewrite decide_True in Hx by lia.
  rewrite (take_S_r vieja _ x) by done.
  rewrite (take_S_r _ _ x) by (apply list_lookup_insert_eq; lia).
  by rewrite take_insert_ge, Ht by lia.
Qed.

Lemma length_destinos ps i : (length (destinos ps i) ≤ length ps)%nat.
Proof. unfold destinos. rewrite length_fmap. apply length_filter. Qed.

(** One pair: the lists grow by it, unless its origin is negative or the
    doubled capacity leaves the range of [int]. *)
Lemma agregar_arista_spec n ps o d t :
  o < n → temporal_de n ps t → Z.of_nat (length ps) < INT_MAX →
  resultado_es
    (λ t', 0 ≤ o ∧ temporal_de n (ps ++ [(o, d)]) t')
    (o < 0 ∨ INT_MAX < 2 * Z.of_nat (length ps))
    (agregar_arista o d t).
Proof.
  intros Hon (Hla & Hco & Hca & Ht) Hint.
  destruct (decide (0 ≤ o)) as [Ho0|Ho0]; last first.
  { unfold agregar_arista. rewrite leer_Indefinido by lia. simpl. lia. }
  assert (0 ≤ o < n) as Ho by lia.
  destruct (Ht o Ho) as (fila & Hfila & Hc & Hcap & Htake & Hpos).
  assert (length (destinos ps o) ≤ length fila)%nat as Hle.
  { rewrite <- Htake at 1. rewrite length_take. lia. }
  pose proof (length_destinos ps o) as Hdest.
  unfold agregar_arista.
  rewrite (leer_Ret _ _ _ Hc), (leer_Ret _ _ _ Hcap). cbn [ligar].
  (* the object after the optional doubling *)
  match goal with |- resultado_es _ _ (ligar ?m _) =>
    assert (resultado_es
      (λ t1, ∃ fila1, temporal_de n ps t1 ∧
         ver (listaAdyacencia t1) o = Some fila1 ∧
         (length (destinos ps o) < length fila1)%nat)
      (INT_MAX < 2 * Z.of_nat (length ps)) m) as H1
  end.
  { case_decide as Hge; [|exists fila; split_and!; try done; lia].
    destruct (decide (Z.of_nat (length fila) * 2 ≤ INT_MAX)) as [Hdoble|Hdoble];
      [|rewrite entero_Indefinido by int_lia; simpl; lia].
    rewrite entero_Ret by int_lia. cbn [ligar].
    rewrite (leer_Ret _ _ _ Hfila). cbn [ligar].
    destruct (copiar_fila_spec fila (Z.of_nat (length (destinos ps o)))
                (nuevo (Z.of_nat (length fila) * 2) 0))
      as (arr & -> & Hlarr & Htarr); [lia|rewrite length_nuevo; lia|].
    corre. rewrite length_nuevo in Hlarr. rewrite Nat2Z.id in Htarr.
    exists arr. split; [|split].
    + repeat split; simpl; rewrite ?length_insert; try done.
      intros i Hi. rewrite !ver_insert by lia. case_decide as Hio.
      * subst i. exists arr. repeat split; try done.
        -- f_equal. lia.
        -- by rewrite Htarr.
        -- lia.
      * apply Ht. done.
    + simpl. rewrite ver_insert by lia. by rewrite decide_True.
    + lia. }
  match goal with |- resultado_es _ _ (ligar ?m _) =>
    destruct m as [t1| |]; simpl in H1; [|simpl; lia|done]
  end.
  cbn [ligar]. destruct H1 as (fila1 & Ht1 & Hfila1 & Hlt).
  clear Ht Hfila Hc Hcap Htake Hpos Hle Hla Hco Hca.
  destruct Ht1 as (Hla & Hco & Hca & Ht).
  destruct (Ht o Ho) as (fila' & Hfila & Hc & Hcap & Htake & Hpos).
  assert (fila' = fila1) as -> by congruence.
  rewrite (leer_Ret _ _ _ Hfila), (leer_Ret _ _ _ Hc). cbn [ligar].
  corre. simpl. split; [done|].
  repeat split; simpl; rewrite ?length_insert; try done.
  intros i Hi. rewrite !ver_insert by lia.
  rewrite destinos_app, destinos_uno, length_app.
  case_decide as Hio.
  - subst i. rewrite decide_True by done. simpl.
    eexists. split; [done|]. rewrite length_insert, Nat2Z.id.
    repeat split; try done.
    + f_equal. lia.
    + replace (length (destinos ps o) + 1)%nat with (S (length (destinos ps o))) by lia.
      rewrite (take_S_r _ _ d) by (apply list_lookup_insert_eq; lia).
      by rewrite take_insert_ge, Htake by lia.
  - rewrite decide_False by done. simpl. rewrite Nat.add_0_r, app_nil_r.
    apply Ht. done.
Qed.

Lemma mientras_agregar_spec n qs : ∀ ps t,
  Forall (λ p, p.1 < n) qs → temporal_de n ps t →
  Z.of_nat (length (ps ++ qs)) ≤ INT_MAX →
  resultado_es
    (λ t', origenes_validos qs ∧ temporal_de n (ps ++ qs) t')
    (¬ (origenes_validos qs ∧ 2 * Z.of_nat (length (ps ++ qs)) ≤ INT_MAX))
    (mientras_pares agregar_arista qs t).
Proof.
  induction qs as [|[o d] qs IH]; intros ps t Hqs Ht Hint; simpl.
  - split; [constructor|]. by rewrite app_nil_r.
  - apply Forall_cons_1 in Hqs as [Ho Hqs]. simpl in Ho.
    rewrite length_app in Hint. simpl in Hint.
    pose proof (agregar_arista_spec n ps o d t Ho Ht ltac:(lia)) as H1.
    destruct (agregar_arista o d t) as [t1| |]; simpl in H1; [| |done].
    + cbn [ligar]. destruct H1 as [Ho0 Ht1].
      specialize (IH (ps ++ [(o, d)]) t1 Hqs Ht1).
      rewrite <- app_assoc in IH. simpl in IH.
      specialize (IH ltac:(rewrite length_app; simpl; lia)).
      destruct (mientras_pares agregar_arista qs t1) as [t'| |]; simpl in *;
        [| |done].
      * destruct IH as [Hv Ht']. split; [by constructor|done].
      * intros [Hv Hlen]. apply IH. split; [|done].
        by apply Forall_cons_1 in Hv as [_ Hv].
    + simpl. intros [Hv Hlen]. apply Forall_cons_1 in Hv as [Hv _].
      simpl in Hv. rewrite length_app in Hlen. simpl in Hlen. lia.
Qed.

Lemma segunda_pasada_spec n ps :
  0 ≤ n → Forall (λ p, p.1 < n) ps → Z.of_nat (length ps) ≤ INT_MAX →
  resultado_es
    (λ t, origenes_validos ps ∧ temporal_de n ps t)
    (¬ (origenes_validos ps ∧ 2 * Z.of_nat (length ps) ≤ INT_MAX))
    (segunda_pasada n ps).
Proof.
  intros Hn Hps Hint. unfold segunda_pasada.
  destruct (temporal_inicial_spec n Hn) as (t0 & -> & Ht0). cbn [ligar].
  apply (mientras_agregar_spec n ps [] t0 Hps Ht0 Hint).
Qed.

(** *** construirCSR *)

Lemma llenar_row_ptr_spec n ps conts rp :
  0 ≤ n ≤ INT_MAX → desplazamiento ps n ≤ INT_MAX →
  length rp = Z.to_nat (n + 1) →
  (∀ i, 0 ≤ i < n → ver conts i = Some (Z.of_nat (length (destinos ps i)))) →
  ∃ rp', llenar_row_ptr n conts rp = Ret rp' ∧ length rp' = Z.to_nat (n + 1) ∧
         ∀ j, 0 ≤ j ≤ n → ver rp' j = Some (desplazamiento ps j).
Proof.
  intros Hn Hint Hl Hconts. unfold llenar_row_ptr.
  rewrite escribir_Ret by lia. cbn [ligar].
  apply (para_regla
    (λ i rp, length rp = Z.to_nat (n + 1) ∧
             ∀ j, 0 ≤ j ≤ i → ver rp j = Some (desplazamiento ps j))); [lia| |].
  - intros i a Hi [Hla Ha].
    pose proof (Ha i ltac:(lia)) as Hai. pose proof (Hconts i Hi) as Hci.
    pose proof (desplazamiento_mono ps (i + 1) n ltac:(lia)) as Hmono.
    rewrite desplazamiento_S in Hmono by lia.
    assert (0 ≤ desplazamiento ps i) by (unfold desplazamiento; lia).
    corre. eexists. split; [done|]. rewrite length_insert. split; [done|].
    intros j Hj. rewrite ver_insert by lia. case_decide as Hji.
    + subst j. by rewrite desplazamiento_S by lia.
    + apply Ha. lia.
  - rewrite length_insert. split; [done|]. intros j Hj.
    replace j with 0 by lia. rewrite ver_insert by lia. by rewrite decide_True.
Qed.

Lemma take_replicate_S {A : Type} (l : list A) (k : nat) (x : A) :
  take k l = replicate k x → l !! k = Some x → take (S k) l = replicate (S k) x.
Proof.
  intros Ht Hk. rewrite (take_S_r _ _ x), Ht by done.
  change (replicate k x ++ replicate 1 x = replicate (S k) x).
  rewrite <- replicate_add. f_equal. lia.
Qed.

Lemma llenar_columnas_spec n ps t vals cols :
  0 ≤ n → temporal_de n ps t → desplazamiento ps n ≤ INT_MAX →
  Z.of_nat (length vals) = desplazamiento ps n →
  Z.of_nat (length cols) = desplazamiento ps n →
  ∃ vals' cols' indice,
    llenar_columnas n t vals cols = Ret (vals', cols', indice) ∧
    vals' = replicate (length vals) 1 ∧ cols' = concat (filas ps n).
Proof.
  intros Hn (Hla & Hco & Hca & Ht) Hint Hlv Hlc. unfold llenar_columnas.
  destruct (para_regla
    (λ i '(vs, cs, indice),
       length vs = length vals ∧ length cs = length cols ∧
       indice = desplazamiento ps i ∧
       take (Z.to_nat indice) vs = replicate (Z.to_nat indice) 1 ∧
       take (Z.to_nat indice) cs = concat (filas ps i))
    (fun i st => c <- leer (contadores t) i ;; para 0 c (llenar_celda t i) st)
    0 n (vals, cols, 0)) as ([[vs cs] indice] & E & Hvs & Hcs & Hind & Htv & Htc);
    [done| |done|].
  - intros i [[vs cs] indice] Hi (Hvs & Hcs & Hind & Htv & Htc).
    destruct (Ht i Hi) as (fila & Hfila & Hc & Hcap & Htake & Hpos).
    corre.
    assert (desplazamiento ps (i + 1) ≤ desplazamiento ps n) as Hmono
      by (apply desplazamiento_mono; lia).
    rewrite desplazamiento_S in Hmono by lia.
    destruct (para_regla
      (λ j '(vs, cs, indice),
         length vs = length vals ∧ length cs = length cols ∧
         indice = desplazamiento ps i + j ∧
         take (Z.to_nat indice) vs = replicate (Z.to_nat indice) 1 ∧
         take (Z.to_nat indice) cs =
           concat (filas ps i) ++ take (Z.to_nat j) (destinos ps i))
      (llenar_celda t i) 0 (Z.of_nat (length (destinos ps i))) (vs, cs, indice))
      as ([[vs' cs'] indice'] & -> & Hvs' & Hcs' & Hind' & Htv' & Htc');
      [lia| | |].
    + intros j [[vs1 cs1] ind1] Hj (Hvs1 & Hcs1 & Hind1 & Htv1 & Htc1).
      assert (0 ≤ desplazamiento ps i) by (unfold desplazamiento; lia).
      assert (ver fila j = Some (default 0 (destinos ps i !! Z.to_nat j))) as Hx.
      { unfold ver. rewrite decide_True by lia.
        rewrite <- (lookup_take_lt fila (length (destinos ps i))) by lia.
        rewrite Htake.
        destruct (lookup_lt_is_Some_2 (destinos ps i) (Z.to_nat j)) as [x ->];
          [lia|done]. }
      unfold llenar_celda. corre.
      eexists. split; [done|]. cbn beta iota. rewrite !length_insert.
      repeat split; try done; try lia.
      * replace (Z.to_nat (ind1 + 1)) with (S (Z.to_nat ind1)) by lia.
        apply take_replicate_S.
        -- by rewrite take_insert_ge by lia.
        -- apply list_lookup_insert_eq. lia.
      * replace (Z.to_nat (ind1 + 1)) with (S (Z.to_nat ind1)) by lia.
        replace (Z.to_nat (j + 1)) with (S (Z.to_nat j)) by lia.
        destruct (lookup_lt_is_Some_2 (destinos ps i) (Z.to_nat j)) as [x Hxj];
          [lia|]. rewrite Hxj. simpl.
        rewrite (take_S_r _ _ x) by (apply list_lookup_insert_eq; lia).
        rewrite (take_S_r (destinos ps i) _ x) by done.
        by rewrite take_insert_ge, Htc1, app_assoc by lia.
    + repeat split; try done; try lia.
      * simpl. by rewrite app_nil_r.
    + eexists. split; [done|]. repeat split; try done.
      * rewrite desplazamiento_S by lia. lia.
      * rewrite Htc'. rewrite filas_S, concat_app by lia. simpl.
        rewrite app_nil_r, Nat2Z.id. by rewrite take_ge by lia.
  - exists vs, cs, indice. split; [done|].
    rewrite take_ge in Htv by lia. rewrite take_ge in Htc by lia.
    split; [|done]. rewrite Htv. f_equal. lia.
Qed.

(** The loader either builds the CSR arrays of [ps], or leaves defined
    behaviour: a negative origin, or a size that an [int] cannot take. *)
Lemma cargarDatos_spec ps g :
  resultado_es
    (λ r, r.1 = true ∧ origenes_validos ps ∧ cabe_en_int ps ∧ csr_de ps r.2 ∧
          numNodos r.2 = nodo_maximo ps + 1 ∧ esDirigido r.2 = esDirigido g)
    (¬ (origenes_validos ps ∧ cabe_en_int ps))
    (cargarDatos (Some ps) g).
Proof.
  unfold cargarDatos, cabe_en_int.
  pose proof (nodo_maximo_cota ps) as [Hm Hmax].
  pose proof (primera_pasada_spec ps) as H1.
  destruct (primera_pasada ps) as [[m c]| |]; simpl in H1; [| |done]; last first.
  { simpl. intros [_ Hlen]. int_lia. }
  cbn [ligar]. destruct H1 as (-> & -> & Hint).
  destruct (decide (nodo_maximo ps + 1 ≤ INT_MAX)) as [Hn|Hn]; last first.
  { rewrite entero_Indefinido by int_lia. simpl. intros [_ Hlen]. lia. }
  rewrite entero_Ret by int_lia. cbn [ligar numNodos numAristas].
  assert (Forall (λ p, p.1 < nodo_maximo ps + 1) ps) as Hlt.
  { eapply Forall_impl; [exact Hmax|]. simpl. lia. }
  pose proof (segunda_pasada_spec (nodo_maximo ps + 1) ps
                ltac:(lia) Hlt ltac:(lia)) as H2.
  destruct (segunda_pasada (nodo_maximo ps + 1) ps) as [t| |]; simpl in H2;
    [| |done]; last first.
  { simpl. intros [Hv Hlen]. apply H2. split; [done|lia]. }
  destruct H2 as [Hps Ht].
  assert (Forall (λ p, 0 ≤ p.1 < nodo_maximo ps + 1) ps) as Hrango.
  { unfold origenes_validos in Hps. rewrite Forall_forall in *.
    intros p Hp. specialize (Hps p Hp). specialize (Hmax p Hp). lia. }
  pose proof (desplazamiento_total ps (nodo_maximo ps + 1) Hrango) as Htot.
  cbn [ligar]. unfold construirCSR. cbn [numNodos numAristas].
  destruct (decide (nodo_maximo ps + 1 + 1 ≤ INT_MAX)) as [Hn1|Hn1]; last first.
  { rewrite entero_Indefinido by int_lia. simpl. intros [_ Hlen]. lia. }
  rewrite entero_Ret by int_lia. cbn [ligar].
  destruct (llenar_row_ptr_spec (nodo_maximo ps + 1) ps (contadores t)
              (nuevo (nodo_maximo ps + 1 + 1) 0))
    as (rp & -> & Hlrp & Hrp); [lia|lia|by rewrite length_nuevo| |].
  { intros i Hi. destruct Ht as (_ & _ & _ & Ht).
    destruct (Ht i Hi) as (fila & _ & Hc & _). done. }
  cbn [ligar].
  destruct (llenar_columnas_spec (nodo_maximo ps + 1) ps t
              (nuevo (Z.of_nat (length ps)) 0) (nuevo (Z.of_nat (length ps)) 0))
    as (vals & cols & indice & -> & Hvals & Hcols);
    [lia|done|lia|rewrite length_nuevo; lia|rewrite length_nuevo; lia|].
  cbn [ligar]. unfold estimar_memoria. cbn [numNodos numAristas].
  destruct (decide (2 * Z.of_nat (length ps) + (nodo_maximo ps + 1) + 1 ≤ INT_MAX))
    as [Hmem|Hmem]; last first.
  { assert (resultado_es (λ _ : Z, False) True
      (doble <- entero (Z.of_nat (length ps) * 2) ;;
       suma <- entero (doble + (nodo_maximo ps + 1)) ;; entero (suma + 1))) as H.
    { unfold entero. repeat (case_decide; cbn [ligar]); simpl; try done. int_lia. }
    match goal with |- resultado_es _ _ (ligar ?m _) =>
      destruct m; simpl in H; [done| |done]
    end.
    simpl. tauto. }
  corre. simpl.
  unfold csr_de. cbn [numNodos numAristas values column_indices row_ptr].
  rewrite length_nuevo, Nat2Z.id in Hvals.
  split_and!; try done; try lia.
  - eapply Forall_impl; [exact Hmax|]. simpl. lia.
  - intros ->. done.
Qed.

(** What a load that returns has done. *)
Lemma cargarDatos_Ret ps g b g' :
  cargarDatos (Some ps) g = Ret (b, g') →
  b = true ∧ origenes_validos ps ∧ cabe_en_int ps ∧ csr_de ps g' ∧
  numNodos g' = nodo_maximo ps + 1.
Proof.
  intros E. pose proof (cargarDatos_spec ps g) as H. rewrite E in H.
  simpl in H. tauto.
Qed.

(** The files that are loaded. *)
Lemma cargarDatos_total ps g :
  origenes_validos ps → cabe_en_int ps →
  ∃ g', cargarDatos (Some ps) g = Ret (true, g') ∧ csr_de ps g'.
Proof.
  intros Hps Hint.
  destruct (resultado_es_total _ _ _ (cargarDatos_spec ps g))
    as ([b g'] & E & Hb & _ & _ & Hcsr & _); [tauto|].
  simpl in *. subst b. by exists g'.
Qed.

Lemma cabe_en_int_cotas ps g :
  cabe_en_int ps → csr_de ps g → numNodos g = nodo_maximo ps + 1 →
  numNodos g ≤ INT_MAX ∧ numAristas g ≤ INT_MAX.
Proof.
  unfold cabe_en_int. intros Hint (Hn & _ & _ & Hna & _) Hnm. lia.
Qed.

(** ** Built graphs and the CSR invariants *)

Lemma sin_negativos_origenes ps : sin_negativos ps → origenes_validos ps.
Proof. intros H. eapply Forall_impl; [exact H|]. intros p. simpl. lia. Qed.

Lemma elem_of_destinos ps i d : d ∈ destinos ps i ↔ (i, d) ∈ ps.
Proof.
  unfold destinos. rewrite list_elem_of_fmap. split.
  - intros ([o d'] & -> & [Ho Hin]%list_elem_of_filter). simpl in *. by subst.
  - intros Hin. exists (i, d). split; [done|]. by apply list_elem_of_filter.
Qed.

Lemma elem_of_concat_filas ps n d :
  d ∈ concat (filas ps n) → ∃ o, (o, d) ∈ ps.
Proof.
  intros Hd. apply list_elem_of_In, in_concat in Hd as (fila & Hfila & Hd).
  apply list_elem_of_In in Hfila, Hd.
  unfold filas in Hfila. apply list_elem_of_fmap in Hfila as (o & -> & _).
  exists o. by apply elem_of_destinos.
Qed.

Lemma csr_de_ok ps g :
  sin_negativos ps → csr_de ps g →
  numNodos g ≤ INT_MAX → numAristas g ≤ INT_MAX → csr_ok g.
Proof.
  intros Hps (Hn & Hmax & Hnil & Hna & Hvals & Hcols & Hlen & Hrow) Hni Hai.
  assert (desplazamiento ps (numNodos g) = Z.of_nat (length ps)) as Htot.
  { apply desplazamiento_total. unfold sin_negativos in Hps.
    rewrite Forall_forall in *. intros p Hp.
    specialize (Hps p Hp). specialize (Hmax p Hp). lia. }
  constructor; try done.
  - intros Hpos. rewrite Hna. destruct ps; [|simpl; lia].
    specialize (Hnil eq_refl). lia.
  - by rewrite Hrow, desplazamiento_0 by lia.
  - rewrite Hrow by lia. f_equal. lia.
  - intros i j a b Hij Ha Hb.
    pose proof (ver_Some_rango _ _ _ Ha) as Hi.
    pose proof (ver_Some_rango _ _ _ Hb) as Hj.
    rewrite Hrow in Ha, Hb by lia.
    injection Ha as <-. injection Hb as <-.
    apply desplazamiento_mono. lia.
  - rewrite Hcols. fold (desplazamiento ps (numNodos g)). lia.
  - rewrite Hcols. apply Forall_forall. intros d Hd.
    apply elem_of_concat_filas in Hd as [o Hin].
    unfold sin_negativos in Hps. rewrite Forall_forall in Hps, Hmax.
    specialize (Hps _ Hin). specialize (Hmax _ Hin). simpl in *. lia.
  - rewrite Hvals, length_replicate. lia.
  - rewrite Hvals. apply Forall_replicate. done.
Qed.

Lemma construido_csr_de g :
  construido g →
  ∃ ps, sin_negativos ps ∧ csr_de ps g ∧
        numNodos g ≤ INT_MAX ∧ numAristas g ≤ INT_MAX.
Proof.
  intros (ps & g0 & Hps & E). exists ps. split; [done|].
  apply cargarDatos_Ret in E as (_ & _ & Hint & Hcsr & Hnm).
  split; [done|]. by apply (cabe_en_int_cotas ps).
Qed.

Lemma construido_ok g : construido g → csr_ok g.
Proof.
  intros (ps & Hps & Hg & Hn & Ha)%construido_csr_de. by apply (csr_de_ok ps).
Qed.

(** *** Consequences of the invariants *)

Section Invariantes.
Context (g : GrafoDisperso) (Hg : csr_ok g).

Lemma row_ptr_Some i :
  0 ≤ i ≤ numNodos g → ∃ a, ver (row_ptr g) i = Some a.
Proof.
  intros Hi. apply ver_rango_Some. rewrite (ok_row_len g Hg). lia.
Qed.

Lemma row_ptr_rango i a :
  ver (row_ptr g) i = Some a → 0 ≤ i ≤ numNodos g ∧ 0 ≤ a ≤ numAristas g.
Proof.
  intros Ha. pose proof (ver_Some_rango _ _ _ Ha) as Hi.
  rewrite (ok_row_len g Hg) in Hi. split; [lia|]. split.
  - apply (ok_row_mono g Hg 0 i); [lia|apply (ok_row_0 g Hg)|done].
  - apply (ok_row_mono g Hg i (numNodos g)); [lia|done|apply (ok_row_n g Hg)].
Qed.

Lemma column_indices_Some i :
  0 ≤ i < numAristas g → ∃ c, ver (column_indices g) i = Some c.
Proof.
  intros Hi. apply ver_rango_Some. rewrite (ok_cols_len g Hg). lia.
Qed.

Lemma column_indices_rango i c :
  ver (column_indices g) i = Some c → 0 ≤ c < numNodos g.
Proof.
  intros Hc. pose proof (ok_cols g Hg) as H. rewrite Forall_forall in H.
  apply H. unfold ver in Hc. case_decide; [|done].
  by eapply list_elem_of_lookup_2.
Qed.

(** The slots of a node. *)
Lemma tramo i :
  0 ≤ i < numNodos g →
  ∃ a b, ver (row_ptr g) i = Some a ∧ ver (row_ptr g) (i + 1) = Some b ∧
         0 ≤ a ≤ b ∧ b ≤ numAristas g.
Proof.
  intros Hi.
  destruct (row_ptr_Some i) as [a Ha]; [lia|].
  destruct (row_ptr_Some (i + 1)) as [b Hb]; [lia|].
  exists a, b. repeat split; try done.
  - by apply (row_ptr_rango i a).
  - apply (ok_row_mono g Hg i (i + 1)); [lia|done|done].
  - by apply (row_ptr_rango (i + 1) b).
Qed.
End Invariantes.

(** ** Edges, paths and distances of a CSR graph *)

Lemma camino_trans g s k u j v :
  camino g s k u → camino g u j v → camino g s (k + j) v.
Proof.
  intros Hsu Huv. induction Huv as [|j x y _ IH Hxy].
  - by rewrite Nat.add_0_r.
  - rewrite Nat.add_succ_r. by apply camino_S with x.
Qed.

Lemma camino_arista g u v : arista g u v → camino g u 1 v.
Proof. intros H. apply camino_S with u; [constructor|done]. Qed.

Section Vecinos.
Context (g : GrafoDisperso) (Hg : csr_ok g).

Lemma vecinos_de_tramo u a b :
  ver (row_ptr g) u = Some a → ver (row_ptr g) (u + 1) = Some b →
  vecinos_de g u = take (Z.to_nat (b - a)) (drop (Z.to_nat a) (column_indices g)).
Proof. intros Ha Hb. unfold vecinos_de. by rewrite Ha, Hb. Qed.

Lemma vecinos_de_length u a b :
  ver (row_ptr g) u = Some a → ver (row_ptr g) (u + 1) = Some b →
  Z.of_nat (length (vecinos_de g u)) = b - a.
Proof.
  intros Ha Hb. rewrite (vecinos_de_tramo u a b Ha Hb).
  pose proof (row_ptr_rango g Hg _ _ Ha) as [Hu Ha'].
  pose proof (row_ptr_rango g Hg _ _ Hb) as [_ Hb'].
  pose proof (ok_row_mono g Hg u (u + 1) a b ltac:(lia) Ha Hb) as Hab.
  pose proof (ok_cols_len g Hg) as Hlen.
  rewrite length_take, length_drop. lia.
Qed.

Lemma vecinos_de_ver u a b i :
  ver (row_ptr g) u = Some a → ver (row_ptr g) (u + 1) = Some b →
  a ≤ i < b →
  ∃ w, ver (column_indices g) i = Some w ∧
       vecinos_de g u !! Z.to_nat (i - a) = Some w ∧ 0 ≤ w < numNodos g.
Proof.
  intros Ha Hb Hi.
  pose proof (row_ptr_rango g Hg _ _ Ha) as [Hu Ha'].
  pose proof (row_ptr_rango g Hg _ _ Hb) as [_ Hb'].
  destruct (column_indices_Some g Hg i) as [w Hw]; [lia|].
  exists w. split; [done|]. split; [|by eapply column_indices_rango].
  rewrite (vecinos_de_tramo u a b Ha Hb).
  rewrite lookup_take_lt, lookup_drop by lia.
  unfold ver in Hw. rewrite decide_True in Hw by lia.
  rewrite <- Hw. f_equal. lia.
Qed.

Lemma vecinos_de_rango u w : w ∈ vecinos_de g u → 0 ≤ w < numNodos g.
Proof.
  unfold vecinos_de.
  destruct (ver (row_ptr g) u), (ver (row_ptr g) (u + 1));
    try by intros ?%elem_of_nil.
  intros (k & Hk & _)%elem_of_take. rewrite lookup_drop in Hk.
  apply list_elem_of_lookup_2 in Hk. pose proof (ok_cols g Hg) as H.
  rewrite Forall_forall in H. by apply H.
Qed.

Lemma arista_rango u w :
  arista g u w → 0 ≤ u < numNodos g ∧ 0 ≤ w < numNodos g.
Proof.
  intros Hw. split; [|by eapply vecinos_de_rango].
  unfold arista, vecinos_de in Hw.
  destruct (ver (row_ptr g) u) as [a|] eqn:Ha; [|by apply elem_of_nil in Hw].
  destruct (ver (row_ptr g) (u + 1)) as [b|] eqn:Hb; [|by apply elem_of_nil in Hw].
  apply (row_ptr_rango g Hg) in Ha as [? _], Hb as [? _]. lia.
Qed.

(** *** Degrees and neighbours *)

Lemma obtenerGradoSalida_grado i :
  0 ≤ i < numNodos g → obtenerGradoSalida g i = Ret (grado g i).
Proof.
  intros Hi. unfold obtenerGradoSalida, grado.
  rewrite decide_False by lia.
  destruct (tramo g Hg i Hi) as (a & b & Ha & Hb & Hab & HbN).
  pose proof (ok_nodos_int g Hg). pose proof (ok_aristas_int g Hg).
  corre. by rewrite Ha, Hb.
Qed.

Lemma grado_vecinos i :
  0 ≤ i < numNodos g → grado g i = Z.of_nat (length (vecinos_de g i)).
Proof.
  intros Hi. destruct (tramo g Hg i Hi) as (a & b & Ha & Hb & _).
  unfold grado. rewrite Ha, Hb. simpl. symmetry. by apply vecinos_de_length.
Qed.

Lemma getVecinos_vecinos_de nodo vecinos :
  0 ≤ nodo < numNodos g →
  ∃ r, getVecinos g nodo vecinos = Ret r ∧ secuencia r = vecinos_de g nodo ∧
       r.2 = Z.of_nat (length (vecinos_de g nodo)).
Proof.
  intros Hn. unfold getVecinos. rewrite decide_False by lia.
  destruct (tramo g Hg nodo Hn) as (a & b & Ha & Hb & Hab & HbN).
  pose proof (vecinos_de_length nodo a b Ha Hb) as Hlen.
  pose proof (ok_nodos_int g Hg). pose proof (ok_aristas_int g Hg).
  corre. case_decide as Hpos.
  - lazymatch goal with |- context [para 0 _ ?cuerpo ?v0] =>
      destruct (para_regla
        (λ i v, length v = Z.to_nat (b - a) ∧
                take (Z.to_nat i) v = take (Z.to_nat i) (vecinos_de g nodo))
        cuerpo 0 (b - a) v0) as (v & -> & Hlv & Hv)
    end; [lia| | |].
    + intros i v Hi [Hlv Hv].
      destruct (vecinos_de_ver nodo a b (a + i) Ha Hb) as (w & Hw & Hw' & _); [lia|].
      replace (a + i - a) with i in Hw' by lia.
      corre. eexists. split; [done|]. rewrite length_insert. split; [done|].
      replace (Z.to_nat (i + 1)) with (S (Z.to_nat i)) by lia.
      rewrite (take_S_r (vecinos_de g nodo) _ w) by done.
      rewrite (take_S_r _ _ w) by (apply list_lookup_insert_eq; lia).
      by rewrite take_insert_ge, Hv by lia.
    + by rewrite length_nuevo.
    + cbn [ligar]. eexists. split; [done|]. unfold secuencia. simpl.
      split; [|lia]. rewrite Hv. apply take_ge. lia.
  - eexists. split; [done|]. unfold secuencia. simpl.
    assert (length (vecinos_de g nodo) = 0%nat) as Hnil by lia.
    apply nil_length_inv in Hnil. rewrite Hnil.
    split; [|simpl; lia]. replace (Z.to_nat (b - a)) with 0%nat by lia. done.
Qed.

(** *** The node of greatest degree *)

Lemma grados_nulos_row_ptr (k : nat) :
  Z.of_nat k ≤ numNodos g →
  (∀ j, 0 ≤ j < Z.of_nat k → grado g j ≤ 0) →
  ∀ a, ver (row_ptr g) (Z.of_nat k) = Some a → a ≤ 0.
Proof.
  induction k as [|k IH]; intros Hk Hdeg a Ha.
  - change (Z.of_nat 0) with 0 in Ha.
    rewrite (ok_row_0 g Hg) in Ha. injection Ha as <-. lia.
  - destruct (tramo g Hg (Z.of_nat k)) as (x & y & Hx & Hy & _); [lia|].
    replace (Z.of_nat k + 1) with (Z.of_nat (S k)) in Hy by lia.
    assert (y = a) as -> by congruence.
    pose proof (Hdeg (Z.of_nat k) ltac:(lia)) as Hdk. unfold grado in Hdk.
    replace (Z.of_nat k + 1) with (Z.of_nat (S k)) in Hdk by lia.
    rewrite Ha, Hx in Hdk. simpl in Hdk.
    assert (x ≤ 0); [|lia]. apply IH; [lia| |done].
    intros j Hj. apply Hdeg. lia.
Qed.

Lemma obtenerNodoMayorGrado_spec :
  0 < numNodos g →
  ∃ nodo gm, obtenerNodoMayorGrado g = Ret (nodo, gm) ∧
    0 ≤ nodo < numNodos g ∧ grado g nodo = gm ∧
    (∀ j, 0 ≤ j < numNodos g → grado g j ≤ gm) ∧
    (∀ j, 0 ≤ j < nodo → grado g j < gm).
Proof.
  intros Hpos. unfold obtenerNodoMayorGrado.
  destruct (para_regla
    (λ i '(nm, gm),
       (∀ j, 0 ≤ j < i → grado g j ≤ gm) ∧
       ((nm = -1 ∧ gm = 0) ∨
        (0 ≤ nm < i ∧ grado g nm = gm ∧ 0 < gm ∧
         ∀ j, 0 ≤ j < nm → grado g j < gm)))
    (fun i '(nodoMaximo, gradoMaximo) =>
       grado <- obtenerGradoSalida g i ;;
       if decide (grado > gradoMaximo) then Ret (i, grado)
       else Ret (nodoMaximo, gradoMaximo))
    0 (numNodos g) (-1, 0)) as ([nm gm] & -> & Hmax & Hcaso); [lia| | |].
  - intros i [nm gm] Hi [Hmax Hcaso].
    rewrite obtenerGradoSalida_grado by done. cbn [ligar].
    case_decide as Hgt; (eexists; split; [done|]); cbn beta iota.
    + split.
      * intros j Hj. destruct (decide (j = i)) as [->|]; [lia|].
        specialize (Hmax j ltac:(lia)). lia.
      * right. repeat split; try lia.
        intros j Hj. specialize (Hmax j ltac:(lia)). lia.
    + split.
      * intros j Hj. destruct (decide (j = i)) as [->|]; [lia|].
        apply Hmax. lia.
      * destruct Hcaso as [?|(? & ? & ? & ?)]; [by left|right].
        repeat split; try done; lia.
  - split; [intros j Hj; lia|by left].
  - exists nm, gm. split; [done|].
    destruct Hcaso as [[-> ->]|(Hnm & Hgr & Hgm & Hmin)]; [|done].
    exfalso.
    pose proof (grados_nulos_row_ptr (Z.to_nat (numNodos g))) as H.
    replace (Z.of_nat (Z.to_nat (numNodos g))) with (numNodos g) in H by lia.
    specialize (H ltac:(lia) Hmax _ (ok_row_n g Hg)).
    pose proof (ok_aristas g Hg Hpos). lia.
Qed.
End Vecinos.

(** ** BFS on lists: what one turn of the loops does *)

Lemma dist_de_insert dis w d v :
  0 ≤ w < Z.of_nat (length dis) →
  dist_de (<[Z.to_nat w := d]> dis) v = if decide (v = w) then d else dist_de dis v.
Proof.
  intros Hw. unfold dist_de. rewrite ver_insert by done. by case_decide.
Qed.

Section BFS_puro.
Context (g : GrafoDisperso) (Hg : csr_ok g) (s pm : Z).

Lemma visita_inv st p u w :
  inv_BFS g s pm st p → st.1 !! p = Some u →
  explora pm (dist_de st.2 u) → arista g u w →
  let st' := visita (dist_de st.2 u) st w in
  inv_BFS g s pm st' p ∧ st'.1 !! p = Some u ∧
  dist_de st'.2 u = dist_de st.2 u ∧ w ∈ st'.1 ∧ (∀ x, x ∈ st.1 → x ∈ st'.1).
Proof.
  intros Hinv Hu Hexp Hw. destruct st as [Q dis]. simpl in *.
  unfold visita. simpl. case_decide as Hin; simpl; [done|].
  destruct Hinv as [Hlen Hran Hnd [Hs Hs0] Hcam Hord Hhol Hcie Hcot]. simpl in *.
  pose proof (arista_rango g Hg u w Hw) as [Hur Hwr].
  assert (u ∈ Q) as HuQ by (by eapply list_elem_of_lookup_2).
  assert (∀ x, x ∈ Q →
    dist_de (<[Z.to_nat w := dist_de dis u + 1]> dis) x = dist_de dis x) as Hsame.
  { intros x Hx. rewrite dist_de_insert by lia.
    rewrite decide_False; [done|]. by intros ->. }
  assert (dist_de (<[Z.to_nat w := dist_de dis u + 1]> dis) w = dist_de dis u + 1)
    as Hdw.
  { rewrite dist_de_insert by lia. by rewrite decide_True. }
  assert (∀ i x, (Q ++ [w]) !! i = Some x →
    (x ∈ Q ∧ Q !! i = Some x ∨ i = length Q ∧ x = w)) as Hsnoc.
  { intros i x [[? ?]|[? ?]]%lookup_snoc_Some; [left|right; done].
    split; [by eapply list_elem_of_lookup_2|done]. }
  pose proof (lookup_lt_Some _ _ _ Hu) as Hp.
  split; [constructor; simpl|repeat split; simpl].
  - by rewrite length_insert.
  - apply Forall_app. split; [done|]. by constructor.
  - apply NoDup_app. split; [done|]. split; [|apply NoDup_singleton].
    intros x Hx Hx'. apply list_elem_of_singleton in Hx' as ->. done.
  - split; [by apply lookup_app_l_Some|].
    rewrite Hsame; [done|]. by eapply list_elem_of_lookup_2.
  - intros v Hv. apply elem_of_app in Hv as [Hv|Hv].
    + rewrite Hsame by done. by apply Hcam.
    + apply list_elem_of_singleton in Hv as ->. rewrite Hdw.
      destruct (Hcam u HuQ) as (H0 & Hc & _). split; [lia|]. split.
      * replace (Z.to_nat (dist_de dis u + 1)) with (S (Z.to_nat (dist_de dis u)))
          by lia.
        by apply camino_S with u.
      * right. by replace (dist_de dis u + 1 - 1) with (dist_de dis u) by lia.
  - intros i j vi vj Hij Hi Hj.
    destruct (Hsnoc _ _ Hi) as [[HviQ Hi']|[-> ->]],
             (Hsnoc _ _ Hj) as [[HvjQ Hj']|[-> ->]].
    + rewrite !Hsame by done. by eapply Hord.
    + rewrite Hdw, Hsame by done. by eapply (Hhol p i).
    + apply lookup_lt_Some in Hj'. lia.
    + lia.
  - intros i j vi vj Hpi Hi Hj.
    destruct (Hsnoc _ _ Hi) as [[HviQ Hi']|[-> ->]],
             (Hsnoc _ _ Hj) as [[HvjQ Hj']|[-> ->]].
    + rewrite !Hsame by done. by eapply Hhol.
    + rewrite Hdw, Hsame by done.
      pose proof (Hord p i u vi Hpi Hu Hi'). lia.
    + rewrite Hdw, Hsame by done.
      pose proof (Hhol p j u vj ltac:(lia) Hu Hj'). lia.
    + lia.
  - intros i x y Hi Hx Hexp' Hxy.
    destruct (Hsnoc _ _ Hx) as [[HxQ Hx']|[-> ->]]; [|lia].
    rewrite Hsame in Hexp' by done.
    destruct (Hcie i x y Hi Hx' Hexp' Hxy) as [Hy Hd].
    split; [apply elem_of_app; by left|]. by rewrite !Hsame.
  - intros i v Hi. destruct (Hsnoc _ _ Hi) as [[HvQ Hi']|[-> ->]].
    + rewrite Hsame by done. by apply Hcot.
    + rewrite Hdw. specialize (Hcot p u Hu). lia.
  - by apply lookup_app_l_Some.
  - by apply Hsame.
  - apply elem_of_app. right. by apply list_elem_of_singleton.
  - intros x Hx. apply elem_of_app. by left.
Qed.

Lemma foldl_visita_inv vs : ∀ st p u,
  inv_BFS g s pm st p → st.1 !! p = Some u →
  explora pm (dist_de st.2 u) → (∀ w, w ∈ vs → arista g u w) →
  let st' := foldl (visita (dist_de st.2 u)) st vs in
  inv_BFS g s pm st' p ∧ st'.1 !! p = Some u ∧
  dist_de st'.2 u = dist_de st.2 u ∧
  (∀ w, w ∈ vs → w ∈ st'.1) ∧ (∀ x, x ∈ st.1 → x ∈ st'.1).
Proof.
  induction vs as [|w vs IH]; intros st p u Hinv Hu Hexp Hvs; simpl.
  - split_and!; try done. intros w Hw. by apply elem_of_nil in Hw.
  - destruct (visita_inv st p u w Hinv Hu Hexp) as (Hinv1 & Hu1 & Hd1 & Hw1 & Hsub1).
    { apply Hvs. by left. }
    simpl in *.
    destruct (IH (visita (dist_de st.2 u) st w) p u Hinv1 Hu1) as
      (Hinv2 & Hu2 & Hd2 & Hvs2 & Hsub2).
    { by rewrite Hd1. }
    { intros x Hx. apply Hvs. by right. }
    rewrite Hd1 in *. split_and!; try done.
    + intros x [->|Hx]%elem_of_cons; [by apply Hsub2|by apply Hvs2].
    + intros x Hx. by apply Hsub2, Hsub1.
Qed.

Lemma inv_BFS_avanza st p u :
  inv_BFS g s pm st p → st.1 !! p = Some u →
  (explora pm (dist_de st.2 u) → ∀ w, arista g u w → w ∈ st.1) →
  inv_BFS g s pm st (S p).
Proof.
  intros [Hlen Hran Hnd Hs Hcam Hord Hhol Hcie Hcot] Hu Hvec.
  constructor; try done.
  - intros i j vi vj Hpi. apply Hhol. lia.
  - intros i x w Hi Hx Hexp Hw.
    destruct (decide (i = p)) as [->|Hne]; [|apply (Hcie i); [lia|done..]].
    assert (x = u) as -> by congruence.
    pose proof (Hvec Hexp w Hw) as HwQ. split; [done|].
    apply list_elem_of_lookup_1 in HwQ as [j Hj].
    by apply (Hhol p j).
Qed.

Lemma paso_puro_inv st p :
  inv_BFS g s pm st p → (p < length st.1)%nat →
  inv_BFS g s pm (paso_puro g pm st p) (S p) ∧
  (∀ x, x ∈ st.1 → x ∈ (paso_puro g pm st p).1).
Proof.
  intros Hinv Hp. unfold paso_puro.
  destruct (lookup_lt_is_Some_2 _ _ Hp) as [u Hu]. rewrite Hu. simpl.
  case_decide as Hexp.
  - split; [|done]. apply inv_BFS_avanza with u; [done..|].
    intros Hexp'. by destruct Hexp'.
  - destruct (foldl_visita_inv (vecinos_de g u) st p u Hinv Hu Hexp)
      as (Hinv' & Hu' & Hd' & Hvs & Hsub); [done|].
    split; [|done]. apply inv_BFS_avanza with u; done.
Qed.

(** When the queue is exhausted, the enqueued nodes are those within the
    depth bound, and the recorded distances are the least ones. *)
Lemma inv_BFS_completo st v k :
  inv_BFS g s pm st (length st.1) → camino g s k v →
  (pm = -1 ∨ Z.of_nat k ≤ pm) →
  v ∈ st.1 ∧ dist_de st.2 v ≤ Z.of_nat k.
Proof.
  intros [Hlen Hran Hnd [Hs Hs0] Hcam Hord Hhol Hcie Hcot] Hk.
  induction Hk as [|k u v Hk IH Huv]; intros Hpm.
  - split; [by eapply list_elem_of_lookup_2|lia].
  - destruct IH as [Hu Hdu]; [lia|].
    apply list_elem_of_lookup_1 in Hu as Hi. destruct Hi as [i Hi].
    destruct (Hcie i u v) as [Hv Hdv]; try done.
    + by eapply lookup_lt_Some.
    + unfold explora. lia.
    + split; [done|lia].
Qed.
End BFS_puro.

(** ** BFS on arrays follows BFS on lists *)

(** Distinct nodes of a graph are at most [numNodos]. *)
Lemma longitud_acotada (Q : list Z) (n : Z) :
  0 ≤ n → NoDup Q → Forall (λ v, 0 ≤ v < n) Q → Z.of_nat (length Q) ≤ n.
Proof.
  intros Hn Hnd Hran.
  assert (Q ⊆+ seqZ 0 n) as Hsub.
  { apply NoDup_submseteq; [done|]. intros x Hx. rewrite Forall_forall in Hran.
    apply elem_of_seqZ. specialize (Hran x Hx). lia. }
  apply submseteq_length in Hsub. rewrite length_seqZ in Hsub. lia.
Qed.

Lemma take_snoc_insert {A : Type} (l : list A) (k : nat) (x : A) :
  (k < length l)%nat → take (S k) (<[k := x]> l) = take k l ++ [x].
Proof.
  intros Hk. rewrite (take_S_r _ _ x) by (by apply list_lookup_insert_eq).
  by rewrite take_insert_ge by lia.
Qed.

Lemma copiar_resultado_spec r c :
  0 ≤ c ≤ Z.of_nat (length r) → copiar_resultado r c = Ret (take (Z.to_nat c) r).
Proof.
  intros Hc.
  destruct (copiar_fila_spec r c (nuevo c 0)) as (arr & E & Hl & Ht);
    [done|rewrite length_nuevo; lia|].
  unfold copiar_resultado. unfold copiar_fila in E. rewrite E. f_equal.
  rewrite length_nuevo in Hl. rewrite <- Ht. symmetry. apply take_ge. lia.
Qed.

Section BFS_arreglos.
Context (g : GrafoDisperso) (Hg : csr_ok g).

Lemma visitar_vecino_rep e st d i w :
  rep_BFS g e st → es_int (d + 1) →
  ver (column_indices g) i = Some w → 0 ≤ w < numNodos g →
  ∃ e', visitar_vecino g d i e = Ret e' ∧ rep_BFS g e' (visita d st w) ∧
        frente e' = frente e.
Proof.
  intros (Hma & Hco & Hre & Hdi & Hnd & Hran & Hdis & Hfin & Hcon & Hcola &
          Hres & Hmar) Hd Hw Hwr.
  pose proof (ok_nodos_int g Hg) as Hni.
  destruct st as [Q dis]. simpl in *.
  unfold visitar_vecino. rewrite (leer_Ret _ _ _ Hw). cbn [ligar].
  rewrite (leer_Ret _ _ _ (Hmar w Hwr)). cbn [ligar].
  unfold visita. simpl. case_bool_decide as Hin.
  - rewrite decide_True by done. exists e. split; [done|]. split; [|done].
    repeat split; done.
  - rewrite decide_False by done.
    assert (NoDup (Q ++ [w])) as Hnd'.
    { apply NoDup_app. split; [done|]. split; [|apply NoDup_singleton].
      intros x Hx Hx'. apply list_elem_of_singleton in Hx' as ->. done. }
    assert (Forall (λ v, 0 ≤ v < numNodos g) (Q ++ [w])) as Hran'.
    { apply Forall_app. split; [done|]. by constructor. }
    pose proof (longitud_acotada _ _ (ok_nodos g Hg) Hnd' Hran') as Hlen.
    rewrite length_app in Hlen. simpl in Hlen.
    rewrite Hdis, Hcon, Hfin. corre. eexists. split; [done|]. split; [|done].
    unfold rep_BFS. simpl. rewrite !length_insert, length_app. simpl.
    rewrite Nat2Z.id.
    replace (length Q + 1)%nat with (S (length Q)) by lia.
    rewrite !take_snoc_insert by lia. rewrite Hcola, Hres.
    split_and!; try done; try lia.
    intros v Hv. rewrite ver_insert by lia. case_decide as Hvw.
    + subst v. rewrite bool_decide_eq_true_2; [done|].
      apply elem_of_app. right. by apply list_elem_of_singleton.
    + rewrite (Hmar v Hv). f_equal. apply bool_decide_ext.
      rewrite elem_of_app, list_elem_of_singleton. tauto.
Qed.

Lemma para_visitar_rep e st d u a b :
  rep_BFS g e st → es_int (d + 1) →
  ver (row_ptr g) u = Some a → ver (row_ptr g) (u + 1) = Some b →
  ∃ e', para a b (visitar_vecino g d) e = Ret e' ∧
        rep_BFS g e' (foldl (visita d) st (vecinos_de g u)) ∧
        frente e' = frente e.
Proof.
  intros Hrep Hd Ha Hb.
  pose proof (vecinos_de_length g Hg u a b Ha Hb) as Hlen.
  destruct (para_regla
    (λ i e', rep_BFS g e'
               (foldl (visita d) st (take (Z.to_nat (i - a)) (vecinos_de g u))) ∧
             frente e' = frente e)
    (visitar_vecino g d) a b e) as (e' & E & Hrep' & Hf); [lia| | |].
  - intros i e1 Hi [Hrep1 Hf1].
    destruct (vecinos_de_ver g Hg u a b i Ha Hb Hi) as (w & Hw & Hw' & Hwr).
    destruct (visitar_vecino_rep e1 _ d i w Hrep1 Hd Hw Hwr)
      as (e2 & -> & Hrep2 & Hf2).
    exists e2. split; [done|]. split; [|congruence].
    replace (Z.to_nat (i + 1 - a)) with (S (Z.to_nat (i - a))) by lia.
    by rewrite (take_S_r _ _ w), foldl_snoc by done.
  - replace (Z.to_nat (a - a)) with 0%nat by lia. done.
  - exists e'. split; [done|]. split; [|done].
    by rewrite take_ge in Hrep' by lia.
Qed.

Lemma paso_BFS_rep pm e st :
  rep_BFS g e st → 0 ≤ frente e < final e →
  (∀ u, st.1 !! Z.to_nat (frente e) = Some u → es_int (dist_de st.2 u + 1)) →
  ∃ e', paso_BFS g pm e = Ret e' ∧
        rep_BFS g e' (paso_puro g pm st (Z.to_nat (frente e))) ∧
        frente e' = frente e + 1.
Proof.
  intros Hrep Hf Hd.
  pose proof Hrep as (Hma & Hco & Hre & Hdi & Hnd & Hran & Hdis & Hfin & Hcon &
                      Hcola & Hres & Hmar).
  pose proof (ok_nodos_int g Hg) as Hni.
  pose proof (longitud_acotada _ _ (ok_nodos g Hg) Hnd Hran) as HQn.
  destruct (lookup_lt_is_Some_2 st.1 (Z.to_nat (frente e))) as [u Hu]; [lia|].
  specialize (Hd u Hu).
  assert (ver (cola e) (frente e) = Some u) as Hcu.
  { unfold ver. rewrite decide_True by lia.
    rewrite <- Hu, <- Hcola at 1. symmetry. apply lookup_take_lt. lia. }
  assert (0 ≤ u < numNodos g) as Hur.
  { rewrite Forall_forall in Hran. apply Hran. by eapply list_elem_of_lookup_2. }
  assert (ver st.2 u = Some (dist_de st.2 u)) as Hdu.
  { unfold dist_de. destruct (ver_rango_Some st.2 u) as [x ->]; [lia|done]. }
  unfold paso_BFS, paso_puro. rewrite Hu. cbn [distancias marcados cola resultado].
  rewrite (leer_Ret _ _ _ Hcu). cbn [ligar].
  rewrite entero_Ret by int_lia. cbn [ligar]. rewrite Hdis.
  rewrite (leer_Ret _ _ _ Hdu). cbn [ligar].
  case_decide as Hexp.
  - eexists. split; [done|]. split; [|done]. done.
  - destruct (tramo g Hg u Hur) as (a & b & Ha & Hb & _).
    rewrite (leer_Ret _ _ _ Ha). cbn [ligar].
    rewrite entero_Ret by int_lia. cbn [ligar].
    rewrite (leer_Ret _ _ _ Hb). cbn [ligar].
    destruct (para_visitar_rep
      (mkBFS (marcados e) (distancias e) (cola e) (resultado e)
             (frente e + 1) (final e) (contador e)) st (dist_de st.2 u) u a b)
      as (e' & E & Hrep' & Hf'); [done..|].
    rewrite Hdis in E. rewrite E. by exists e'.
Qed.

Lemma bucle_BFS_spec s pm (combustible : nat) : ∀ e st,
  rep_BFS g e st → inv_BFS g s pm st (Z.to_nat (frente e)) →
  0 ≤ frente e ≤ final e →
  numNodos g - frente e ≤ Z.of_nat combustible →
  ∃ e' st', bucle_BFS combustible g pm e = Ret e' ∧ rep_BFS g e' st' ∧
            inv_BFS g s pm st' (length st'.1).
Proof.
  induction combustible as [|c IH]; intros e st Hrep Hinv Hf Hc.
  - pose proof Hrep as (_ & _ & _ & _ & Hnd & Hran & _ & Hfin & _).
    pose proof (longitud_acotada _ _ (ok_nodos g Hg) Hnd Hran).
    simpl. rewrite decide_False by lia.
    exists e, st. split; [done|]. split; [done|].
    by replace (length st.1) with (Z.to_nat (frente e)) by lia.
  - simpl. case_decide as Hlt.
    + destruct (paso_BFS_rep pm e st Hrep) as (e1 & -> & Hrep1 & Hf1); [lia| |].
      { intros u Hu. pose proof (ok_nodos_int g Hg).
        pose proof Hrep as (_ & _ & _ & _ & Hnd & Hran & _ & Hfin & _).
        pose proof (longitud_acotada _ _ (ok_nodos g Hg) Hnd Hran).
        pose proof (inv_cota _ _ _ _ _ Hinv _ _ Hu).
        destruct (inv_camino _ _ _ _ _ Hinv u) as [? _];
          [by eapply list_elem_of_lookup_2|].
        int_lia. }
      cbn [ligar].
      pose proof Hrep as (_ & _ & _ & _ & _ & _ & _ & Hfin & _).
      destruct (paso_puro_inv g Hg s pm st (Z.to_nat (frente e)) Hinv)
        as [Hinv1 Hsub]; [lia|].
      pose proof Hrep1 as (_ & _ & _ & _ & Hnd1 & _ & _ & Hfin1 & _).
      apply (IH e1 _ Hrep1).
      * by replace (Z.to_nat (frente e1)) with (S (Z.to_nat (frente e))) by lia.
      * assert (length st.1 ≤ length (paso_puro g pm st (Z.to_nat (frente e))).1)%nat.
        { apply submseteq_length, NoDup_submseteq; [|done].
          by destruct Hrep as (_ & _ & _ & _ & ? & _). }
        lia.
      * lia.
    + exists e, st. split; [done|]. split; [done|].
      pose proof Hrep as (_ & _ & _ & _ & _ & _ & _ & Hfin & _).
      by replace (length st.1) with (Z.to_nat (frente e)) by lia.
Qed.

Lemma inicio_BFS_spec s pm :
  0 ≤ s < numNodos g →
  ∃ e st, inicio_BFS g s = Ret e ∧ rep_BFS g e st ∧ inv_BFS g s pm st 0 ∧
          frente e = 0 ∧ st.1 = [s] ∧ dist_de st.2 s = 0.
Proof.
  intros Hs. unfold inicio_BFS.
  destruct (para_regla
    (λ i '(ma, di),
       length ma = Z.to_nat (numNodos g) ∧ length di = Z.to_nat (numNodos g) ∧
       ∀ k, 0 ≤ k < i → ver ma k = Some false)
    (fun i '(ma, di) =>
       ma' <- escribir ma i false ;;
       di' <- escribir di i (-1) ;;
       Ret (ma', di'))
    0 (numNodos g) (nuevo (numNodos g) false, nuevo (numNodos g) 0))
    as ([ma di] & -> & Hma & Hdi & Hfalse); [lia| | |].
  - intros i [ma di] Hi (Hma & Hdi & Hfalse). corre.
    eexists. split; [done|]. cbn beta iota. rewrite !length_insert.
    split_and!; try done. intros k Hk. rewrite ver_insert by lia.
    case_decide; [done|]. apply Hfalse. lia.
  - rewrite !length_nuevo. split_and!; try done. lia.
  - cbn [ligar]. rewrite !escribir_Ret by (rewrite ?length_nuevo; lia).
    cbn [ligar].
    assert (dist_de (<[Z.to_nat s := 0]> di) s = 0) as Hd0.
    { rewrite dist_de_insert by lia. by rewrite decide_True. }
    eexists _, ([s], <[Z.to_nat s := 0]> di). split; [done|].
    split_and!; try done.
    + unfold rep_BFS. simpl. rewrite !length_insert, !length_nuevo.
      split_and!; try done.
      * apply NoDup_singleton.
      * by constructor.
      * unfold nuevo. destruct (Z.to_nat (numNodos g)) eqn:E; [lia|done].
      * unfold nuevo. destruct (Z.to_nat (numNodos g)) eqn:E; [lia|done].
      * intros v Hv. rewrite ver_insert by lia. case_decide as Hvs.
        -- subst. rewrite bool_decide_eq_true_2; [done|]. by left.
        -- rewrite Hfalse by lia. rewrite bool_decide_eq_false_2; [done|].
           by intros ->%list_elem_of_singleton.
    + constructor; simpl.
      * by rewrite length_insert.
      * by constructor.
      * apply NoDup_singleton.
      * done.
      * intros v ->%list_elem_of_singleton. rewrite Hd0.
        split; [lia|]. split; [constructor|by left].
      * intros i j vi vj _ Hi Hj.
        apply list_lookup_singleton_Some in Hi as [_ <-].
        apply list_lookup_singleton_Some in Hj as [_ <-]. lia.
      * intros i j vi vj _ Hi Hj.
        apply list_lookup_singleton_Some in Hi as [_ <-].
        apply list_lookup_singleton_Some in Hj as [_ <-]. lia.
      * intros i u w Hi. lia.
      * intros i v Hi. apply list_lookup_singleton_Some in Hi as [-> <-].
        rewrite Hd0. lia.
Qed.

(** [BFS] returns the queue of the exhausted walk. *)
Lemma BFS_spec s pm visitados :
  0 ≤ s < numNodos g →
  ∃ st, BFS g s pm visitados = Ret (st.1, Z.of_nat (length st.1)) ∧
        inv_BFS g s pm st (length st.1).
Proof.
  intros Hs. unfold BFS. rewrite decide_False by lia.
  destruct (inicio_BFS_spec s pm Hs) as (e0 & st0 & -> & Hrep0 & Hinv0 & Hf0 & _).
  cbn [ligar].
  pose proof Hrep0 as (_ & _ & _ & _ & _ & _ & _ & Hfin0 & _).
  destruct (bucle_BFS_spec s pm (Z.to_nat (numNodos g)) e0 st0 Hrep0)
    as (e & st & -> & Hrep & Hinv); [by rewrite Hf0|lia|lia|].
  cbn [ligar].
  destruct Hrep as (_ & _ & Hre & _ & Hnd & Hran & _ & Hfin & Hcon & _ & Hres & _).
  pose proof (longitud_acotada _ _ (ok_nodos g Hg) Hnd Hran).
  rewrite copiar_resultado_spec by lia. cbn [ligar].
  exists st. split; [|done]. rewrite Hcon, Hfin, Nat2Z.id, Hres. done.
Qed.
End BFS_arreglos.

(** ** DFS *)

Lemma alcanzable_arista g u w v :
  arista g u w → alcanzable g w v → alcanzable g u v.
Proof.
  intros Huw [k Hk]. exists (1 + k)%nat.
  apply camino_trans with w; [by apply camino_arista|done].
Qed.

Section DFS_arreglos.
Context (g : GrafoDisperso) (Hg : csr_ok g).

Lemma DFSRecursivo_spec (combustible : nat) : ∀ u e R,
  rep_DFS g e R → 0 ≤ u < numNodos g → u ∉ R →
  numNodos g - Z.of_nat (length R) ≤ Z.of_nat combustible →
  ∃ e' R', DFSRecursivo combustible g u e = Ret e' ∧
    rep_DFS g e' (R ++ u :: R') ∧
    (∀ v, v ∈ u :: R' → alcanzable g u v) ∧
    (∀ x w, x ∈ u :: R' → arista g x w → w ∈ R ++ u :: R').
Proof.
  induction combustible as [|c IH]; intros u e R Hrep Hu HuR Hc.
  all: pose proof Hrep as (Hvi & Hre & Hcon & Hres & Hnd & Hran & Hmar).
  all: assert (NoDup (R ++ [u])) as Hnd1 by
    (apply NoDup_app; split; [done|]; split; [|apply NoDup_singleton];
     intros x Hx Hx'; apply list_elem_of_singleton in Hx' as ->; done).
  all: assert (Forall (λ v, 0 ≤ v < numNodos g) (R ++ [u])) as Hran1 by
    (apply Forall_app; split; [done|]; by constructor).
  all: pose proof (longitud_acotada _ _ (ok_nodos g Hg) Hnd1 Hran1) as Hlen1.
  all: rewrite length_app in Hlen1; simpl in Hlen1.
  - lia.
  - pose proof (ok_nodos_int g Hg) as Hni.
    simpl. corre.
    destruct (tramo g Hg u Hu) as (a & b & Ha & Hb & _).
    corre.
    pose proof (vecinos_de_length g Hg u a b Ha Hb) as Hlen.
    lazymatch goal with |- context [para a b ?cuerpo ?e1] =>
      destruct (para_regla
        (λ i e', ∃ R', rep_DFS g e' (R ++ u :: R') ∧
           (∀ v, v ∈ R' → alcanzable g u v) ∧
           (∀ x w, x ∈ R' → arista g x w → w ∈ R ++ u :: R') ∧
           (∀ k w, (k < Z.to_nat (i - a))%nat →
                   vecinos_de g u !! k = Some w → w ∈ R ++ u :: R'))
        cuerpo a b e1) as (e' & E & R' & Hrep' & Halc & Hcie & Hvec)
    end; [lia| | |].
    + intros i e1 Hi (R1 & Hrep1 & Halc1 & Hcie1 & Hvec1).
      destruct (vecinos_de_ver g Hg u a b i Ha Hb Hi) as (w & Hw & Hw' & Hwr).
      pose proof Hrep1 as (_ & _ & _ & _ & Hnd' & Hran' & Hmar1).
      rewrite (leer_Ret _ _ _ Hw). cbn [ligar].
      rewrite (leer_Ret _ _ _ (Hmar1 w Hwr)). cbn [ligar].
      case_bool_decide as Hin.
      * exists e1. split; [done|]. exists R1. split_and!; try done.
        intros k x Hk Hx.
        destruct (decide (k = Z.to_nat (i - a))) as [->|Hne].
        -- congruence.
        -- apply (Hvec1 k); [lia|done].
      * destruct (IH w e1 (R ++ u :: R1) Hrep1 Hwr Hin)
          as (e2 & R2 & -> & Hrep2 & Halc2 & Hcie2).
        { rewrite length_app. simpl. lia. }
        assert ((R ++ u :: R1) ++ w :: R2 = R ++ u :: (R1 ++ w :: R2)) as Eq
          by (by rewrite <- app_assoc).
        rewrite Eq in *.
        exists e2. split; [done|]. exists (R1 ++ w :: R2).
        assert (∀ x, x ∈ R ++ u :: R1 → x ∈ R ++ u :: R1 ++ w :: R2) as Hsub.
        { intros x Hx. rewrite <- Eq. apply elem_of_app. by left. }
        assert (arista g u w) as Huw.
        { unfold arista. by eapply list_elem_of_lookup_2. }
        split_and!; try done.
        -- intros v [Hv|Hv]%elem_of_app; [by apply Halc1|].
           apply alcanzable_arista with w; [done|by apply Halc2].
        -- intros x y [Hx|Hx]%elem_of_app Hxy.
           ++ apply Hsub. by apply (Hcie1 x).
           ++ by apply (Hcie2 x).
        -- intros k x Hk Hx.
           destruct (decide (k = Z.to_nat (i - a))) as [->|Hne].
           ++ assert (x = w) as -> by congruence.
              rewrite <- Eq. apply elem_of_app. right. by left.
           ++ apply Hsub, (Hvec1 k); [lia|done].
    + exists []. split_and!.
      * unfold rep_DFS. simpl. rewrite !length_insert, length_app. simpl.
        rewrite Hcon, Nat2Z.id.
        replace (length R + 1)%nat with (S (length R)) by lia.
        rewrite take_snoc_insert by lia. rewrite Hres.
        split_and!; try done; try lia.
        intros v Hv. rewrite ver_insert by lia. case_decide as Hvu.
        -- subst v. rewrite bool_decide_eq_true_2; [done|].
           apply elem_of_app. right. by left.
        -- rewrite (Hmar v Hv). f_equal. apply bool_decide_ext.
           rewrite elem_of_app, list_elem_of_singleton. tauto.
      * intros v Hv. by apply elem_of_nil in Hv.
      * intros x w Hx. by apply elem_of_nil in Hx.
      * intros k w Hk. lia.
    + exists e', R'. split; [done|]. split_and!; try done.
      * intros v [->|Hv]%elem_of_cons; [exists 0%nat; constructor|by apply Halc].
      * intros x w [->|Hx]%elem_of_cons Hxw; [|by apply (Hcie x)].
        apply list_elem_of_lookup_1 in Hxw as [k Hk].
        apply (Hvec k); [|done]. apply lookup_lt_Some in Hk. lia.
Qed.

(** [DFS] returns, without repetition, the nodes reachable from the start. *)
Lemma DFS_spec s visitados :
  0 ≤ s < numNodos g →
  ∃ R, DFS g s visitados = Ret (R, Z.of_nat (length R)) ∧ NoDup R ∧
       head R = Some s ∧ ∀ v, v ∈ R ↔ alcanzable g s v.
Proof.
  intros Hs. unfold DFS. rewrite decide_False by lia.
  destruct (para_regla
    (λ i ma, length ma = Z.to_nat (numNodos g) ∧
             ∀ k, 0 ≤ k < i → ver ma k = Some false)
    (fun i ma => escribir ma i false)
    0 (numNodos g) (nuevo (numNodos g) false)) as (ma & -> & Hma & Hfalse);
    [lia| | |].
  - intros i ma Hi (Hma & Hfalse). corre.
    eexists. split; [done|]. rewrite length_insert. split; [done|].
    intros k Hk. rewrite ver_insert by lia. case_decide; [done|].
    apply Hfalse. lia.
  - rewrite length_nuevo. split; [done|]. lia.
  - cbn [ligar].
    destruct (DFSRecursivo_spec (Z.to_nat (numNodos g)) s
                (mkDFS ma (nuevo (numNodos g) 0) 0) [])
      as (e & R & -> & Hrep & Halc & Hcie).
    + unfold rep_DFS. simpl. rewrite length_nuevo. split_and!; try done.
      apply NoDup_nil_2.
    + done.
    + apply not_elem_of_nil.
    + simpl. lia.
    + cbn [ligar]. simpl in Hrep, Hcie.
      destruct Hrep as (_ & Hre & Hcon & Hres & Hnd & Hran & _).
      pose proof (longitud_acotada _ _ (ok_nodos g Hg) Hnd Hran).
      rewrite copiar_resultado_spec by lia. cbn [ligar].
      exists (s :: R). rewrite Hcon, Nat2Z.id, Hres.
      split_and!; try done. intros v. split; [by apply Halc|].
      intros [k Hk]. induction Hk as [|k x y _ IH Hxy]; [by left|].
      by apply (Hcie x).
Qed.
End DFS_arreglos.

(** ** Further facts used by the main results *)

Lemma suma_app l k : suma (l ++ k) = suma l + suma k.
Proof. induction l as [|x l IH]; simpl; [done|]. rewrite IH. lia. Qed.

Lemma suma_grados g (Hg : csr_ok g) (k : nat) :
  Z.of_nat k ≤ numNodos g →
  ∀ a, ver (row_ptr g) (Z.of_nat k) = Some a →
       suma (grado g <$> seqZ 0 (Z.of_nat k)) = a.
Proof.
  induction k as [|k IH]; intros Hk a Ha.
  - change (Z.of_nat 0) with 0 in Ha. rewrite (ok_row_0 g Hg) in Ha.
    by injection Ha as <-.
  - destruct (tramo g Hg (Z.of_nat k)) as (x & y & Hx & Hy & _); [lia|].
    rewrite seqZ_S, fmap_app, suma_app, (IH ltac:(lia) x Hx). simpl.
    rewrite Z.add_0_l. unfold grado. rewrite Hx, Hy. simpl.
    replace (Z.of_nat k + 1) with (Z.of_nat (S k)) in Hy by lia.
    assert (y = a) by congruence. lia.
Qed.

(** The slice of a node of a built graph holds the destinations of its
    edges, in the order of the file. *)
Lemma vecinos_de_destinos ps g u :
  csr_de ps g → Forall (λ p, 0 ≤ p.1) ps → 0 ≤ u < numNodos g →
  vecinos_de g u = destinos ps u.
Proof.
  intros (Hn & Hmax & Hnil & Hna & Hvals & Hcols & Hlen & Hrow) Hps Hu.
  unfold vecinos_de. rewrite !Hrow by lia. rewrite Hcols.
  rewrite desplazamiento_S by lia.
  replace (desplazamiento ps u + Z.of_nat (length (destinos ps u)) -
           desplazamiento ps u) with (Z.of_nat (length (destinos ps u))) by lia.
  unfold desplazamiento. rewrite !Nat2Z.id.
  assert (filas ps (numNodos g) =
          filas ps u ++ destinos ps u :: (destinos ps <$> seqZ (u + 1) (numNodos g - u - 1)))
    as ->.
  { unfold filas. replace (numNodos g) with (u + (numNodos g - u)) at 1 by lia.
    rewrite seqZ_app, fmap_app by lia. f_equal.
    rewrite seqZ_cons by lia. simpl. do 2 f_equal; lia. }
  rewrite concat_app. simpl. rewrite drop_app_length. apply take_app_length.
Qed.

Lemma arista_construido ps g u v :
  sin_negativos ps → csr_de ps g →
  numNodos g ≤ INT_MAX → numAristas g ≤ INT_MAX →
  arista g u v ↔ (u, v) ∈ ps.
Proof.
  intros Hps Hg Hni Hai. pose proof (csr_de_ok ps g Hps Hg Hni Hai) as Hok. split.
  - intros Huv. destruct (arista_rango g Hok u v Huv) as [Hu _].
    unfold arista in Huv.
    rewrite (vecinos_de_destinos ps g u Hg) in Huv; [|by apply sin_negativos_origenes|done].
    by apply elem_of_destinos.
  - intros Hin. unfold arista.
    pose proof Hg as (Hn & Hmax & _). pose proof Hps as Hps'.
    unfold sin_negativos in Hps'. rewrite Forall_forall in Hps', Hmax.
    specialize (Hps' _ Hin). specialize (Hmax _ Hin). simpl in *.
    rewrite (vecinos_de_destinos ps g u); [by apply elem_of_destinos|done|
      by apply sin_negativos_origenes|lia].
Qed.

(** A walk cut at depth [pm <= 0], [pm <> -1], never leaves its start. *)
Lemma inv_BFS_sin_profundidad g s pm st p :
  inv_BFS g s pm st p → pm ≠ -1 → pm ≤ 0 → st.1 = [s].
Proof.
  intros [Hlen Hran Hnd [Hs Hs0] Hcam Hord Hhol Hcie Hcot] Hpm1 Hpm0.
  assert (∀ v, v ∈ st.1 → v = s) as Hall.
  { intros v Hv. destruct (Hcam v Hv) as (Hd & Hc & Hcaso).
    assert (dist_de st.2 v = 0) as E.
    { destruct Hcaso as [?|Hexp]; [done|]. unfold explora in Hexp.
      destruct (decide (dist_de st.2 v = 0)); [done|]. exfalso. apply Hexp. lia. }
    rewrite E in Hc. by inversion Hc. }
  destruct st as [[|x [|y Q]] dis]; simpl in *; [done| |].
  - by injection Hs as ->.
  - rewrite (Hall x), (Hall y) in Hnd by (repeat constructor).
    apply NoDup_cons in Hnd as [Hnd _]. destruct Hnd. by left.
Qed.

Section Resultados.
Context (g : GrafoDisperso) (Hg : csr_ok g).

Lemma BFS_secuencia s pm visitados :
  0 ≤ s < numNodos g →
  ∃ r st, BFS g s pm visitados = Ret r ∧ secuencia r = st.1 ∧
          inv_BFS g s pm st (length st.1).
Proof.
  intros Hs. destruct (BFS_spec g Hg s pm visitados Hs) as (st & E & Hinv).
  eexists _, st. split; [exact E|]. split; [|done].
  unfold secuencia. simpl. rewrite Nat2Z.id. apply take_ge. done.
Qed.

Lemma BFS_sin_limite s visitados :
  0 ≤ s < numNodos g →
  ∃ r, BFS g s (-1) visitados = Ret r ∧ NoDup (secuencia r) ∧
       ∀ v, v ∈ secuencia r ↔ alcanzable g s v.
Proof.
  intros Hs. destruct (BFS_secuencia s (-1) visitados Hs) as (r & st & E & Hsec & Hinv).
  exists r. rewrite Hsec. split; [done|]. split; [apply (inv_nodup _ _ _ _ _ Hinv)|].
  intros v. split.
  - intros Hv. destruct (inv_camino _ _ _ _ _ Hinv v Hv) as (_ & Hc & _).
    by eexists.
  - intros [k Hk].
    destruct (inv_BFS_completo g s (-1) st v k Hinv Hk) as [Hv _]; [by left|done].
Qed.

Lemma BFS_cortado s pm visitados :
  0 ≤ s < numNodos g → pm ≠ -1 → pm ≤ 0 →
  BFS g s pm visitados = Ret ([s], 1).
Proof.
  intros Hs Hpm1 Hpm0.
  destruct (BFS_spec g Hg s pm visitados Hs) as (st & E & Hinv).
  rewrite E. by rewrite (inv_BFS_sin_profundidad g s pm st _ Hinv Hpm1 Hpm0).
Qed.

Lemma BFS_acotado s pm visitados :
  0 ≤ s < numNodos g → 0 ≤ pm →
  ∃ r, BFS g s pm visitados = Ret r ∧ NoDup (secuencia r) ∧
       ∀ v, v ∈ secuencia r ↔ ∃ d, distancia g s v d ∧ Z.of_nat d ≤ pm.
Proof.
  intros Hs Hpm.
  destruct (BFS_secuencia s pm visitados Hs) as (r & st & E & Hsec & Hinv).
  exists r. rewrite Hsec. split; [done|]. split; [apply (inv_nodup _ _ _ _ _ Hinv)|].
  intros v. split.
  - intros Hv. destruct (inv_camino _ _ _ _ _ Hinv v Hv) as (Hd & Hc & Hcaso).
    assert (dist_de st.2 v ≤ pm) as Hle.
    { destruct Hcaso as [->|Hexp]; [done|]. unfold explora in Hexp.
      destruct (decide (dist_de st.2 v ≤ pm)); [done|]. exfalso. apply Hexp. lia. }
    exists (Z.to_nat (dist_de st.2 v)). split; [split; [done|]|lia].
    intros k Hk. destruct (decide (Z.of_nat k ≤ pm)) as [Hkp|Hkp]; [|lia].
    destruct (inv_BFS_completo g s pm st v k Hinv Hk) as [_ Hdk]; [by right|lia].
  - intros (d & [Hc _] & Hd).
    destruct (inv_BFS_completo g s pm st v d Hinv Hc) as [Hv _]; [by right|done].
Qed.

(** One turn of the [while], told on the queue and the distances. *)
Lemma paso_BFS_mecanismo pm e st u :
  rep_BFS g e st → 0 ≤ frente e → st.1 !! Z.to_nat (frente e) = Some u →
  0 ≤ dist_de st.2 u < numNodos g →
  ∃ e', paso_BFS g pm e = Ret e' ∧ frente e' = frente e + 1 ∧
    (pm = -1 ∨ dist_de st.2 u < pm →
       rep_BFS g e' (foldl (visita (dist_de st.2 u)) st (vecinos_de g u))) ∧
    (pm ≠ -1 ∧ dist_de st.2 u >= pm → rep_BFS g e' st).
Proof.
  intros Hrep Hf Hu Hd.
  pose proof Hrep as (_ & _ & _ & _ & _ & _ & _ & Hfin & _).
  pose proof (lookup_lt_Some _ _ _ Hu) as Hlt.
  destruct (paso_BFS_rep g Hg pm e st Hrep) as (e' & E & Hrep' & Hf'); [lia| |].
  { intros u' Hu'. assert (u' = u) as -> by congruence.
    pose proof (ok_nodos_int g Hg). int_lia. }
  exists e'. split; [done|]. split; [done|].
  unfold paso_puro in Hrep'. rewrite Hu in Hrep'. simpl in Hrep'.
  split; intros Hcaso.
  - rewrite decide_False in Hrep' by lia. done.
  - rewrite decide_True in Hrep' by lia. done.
Qed.
End Resultados.

(** ** The fuel is enough on every graph *)

(** The results of this section hold for any object, built or not: a run
    of [BFS] or of [DFS] either returns or leaves defined behaviour, and
    the fuel given to the loop and to the recursion never cuts it short. *)

Lemma resultado_es_impl {A : Type} (P P' : A → Prop) (Q Q' : Prop) (r : res A) :
  resultado_es P Q r → (∀ a, P a → P' a) → (Q → Q') → resultado_es P' Q' r.
Proof. destruct r; simpl; auto. Qed.

Lemma no_agota_ligar {A B : Type} (P : A → Prop) (Q : B → Prop)
    (m : res A) (k : A → res B) :
  resultado_es P True m → (∀ a, P a → resultado_es Q True (k a)) →
  resultado_es Q True (ligar m k).
Proof. destruct m as [a| |]; simpl; intros Hm Hk; [by apply Hk|done|done]. Qed.

Lemma no_agota_leer {A : Type} (a : list A) (i : Z) :
  resultado_es (λ x, ver a i = Some x) True (leer a i).
Proof. rewrite leer_ver. by destruct (ver a i). Qed.

Lemma no_agota_escribir {A : Type} (a : list A) (i : Z) (x : A) :
  resultado_es
    (λ a', a' = <[Z.to_nat i := x]> a ∧ 0 ≤ i < Z.of_nat (length a)) True
    (escribir a i x).
Proof. unfold escribir. by case_decide. Qed.

Lemma no_agota_entero (z : Z) : resultado_es (λ z', z' = z) True (entero z).
Proof. unfold entero. by case_decide. Qed.

Lemma no_agota_para {St : Type} (I : St → Prop) (cuerpo : Z → St → res St)
    (a b : Z) (st : St) :
  (∀ j s, I s → resultado_es I True (cuerpo j s)) → I st →
  resultado_es I True (para a b cuerpo st).
Proof.
  intros Hc. unfold para. generalize (Z.to_nat (b - a)) as n.
  intros n. revert a st. induction n as [|n IH]; intros a st Hst; simpl; [done|].
  apply (no_agota_ligar I I); [by apply Hc|]. intros s Hs. by apply IH.
Qed.

(** One monadic step: names the value and what is known of it. *)
Ltac paso_res lema :=
  eapply no_agota_ligar; [apply lema|]; cbn beta.

Lemma no_agota_copiar (r : list Z) (c : Z) :
  resultado_es (λ _, True) True (copiar_resultado r c).
Proof.
  unfold copiar_resultado. apply no_agota_para; [|done].
  intros j s _. paso_res @no_agota_leer. intros x _.
  eapply resultado_es_impl; [apply no_agota_escribir|done..].
Qed.

Lemma no_agota_no_SinCombustible {A : Type} (P : A → Prop) (r : res A) :
  resultado_es P True r → r ≠ SinCombustible.
Proof. by destruct r. Qed.

Section Combustible.
Context (g : GrafoDisperso).

Lemma no_agota_visitar d i e :
  cola_acotada g e →
  resultado_es (λ e', cola_acotada g e' ∧ frente e' = frente e) True
    (visitar_vecino g d i e).
Proof.
  intros [Hlen Hfin]. unfold visitar_vecino.
  paso_res @no_agota_leer. intros vecino _.
  paso_res @no_agota_leer. intros m _.
  destruct m; [done|].
  paso_res @no_agota_escribir. intros ma _.
  paso_res no_agota_entero. intros d1 _.
  paso_res @no_agota_escribir. intros di _.
  paso_res @no_agota_escribir. intros co [-> Hco].
  paso_res no_agota_entero. intros final' ->.
  paso_res @no_agota_escribir. intros re _.
  paso_res no_agota_entero. intros contador' _.
  simpl. unfold cola_acotada. simpl. rewrite length_insert. lia.
Qed.

Lemma no_agota_paso pm e :
  cola_acotada g e →
  resultado_es (λ e', cola_acotada g e' ∧ frente e' = frente e + 1) True
    (paso_BFS g pm e).
Proof.
  intros Hcola. unfold paso_BFS.
  paso_res @no_agota_leer. intros nodoActual _.
  paso_res no_agota_entero. intros frente' ->.
  paso_res @no_agota_leer. intros distanciaActual _.
  case_decide; [done|].
  paso_res @no_agota_leer. intros inicioVecinos _.
  paso_res no_agota_entero. intros nodo1 _.
  paso_res @no_agota_leer. intros finVecinos _.
  apply no_agota_para; [|done].
  intros j e1 [Hcola1 Hf1].
  eapply resultado_es_impl; [by apply no_agota_visitar| |done].
  intros e2 [Hcola2 Hf2]. split; [done|congruence].
Qed.

Lemma no_agota_bucle pm (combustible : nat) : ∀ e,
  cola_acotada g e → numNodos g - frente e ≤ Z.of_nat combustible →
  resultado_es (λ _, True) True (bucle_BFS combustible g pm e).
Proof.
  induction combustible as [|c IH]; intros e Hcola Hc; simpl;
    (case_decide as Hlt; [|done]).
  - destruct Hcola as [_ Hfin]. lia.
  - paso_res no_agota_paso; [done|]. intros e' [Hcola' Hf'].
    apply IH; [done|lia].
Qed.

(** [BFS] does not run out of fuel. *)
Lemma BFS_no_agota s pm visitados :
  BFS g s pm visitados ≠ SinCombustible.
Proof.
  apply (no_agota_no_SinCombustible (λ _, True)).
  unfold BFS. case_decide as Hs; [done|].
  eapply (no_agota_ligar (λ e0, cola_acotada g e0 ∧ frente e0 = 0)).
  - unfold inicio_BFS.
    eapply (no_agota_ligar (λ _, True)).
    { apply no_agota_para; [|done]. intros j [ma di] _.
      paso_res @no_agota_escribir. intros ma' _.
      paso_res @no_agota_escribir. intros di' _. done. }
    intros [ma di] _.
    paso_res @no_agota_escribir. intros co [-> Hco].
    paso_res @no_agota_escribir. intros ma' _.
    paso_res @no_agota_escribir. intros di' _.
    paso_res @no_agota_escribir. intros re _.
    simpl. unfold cola_acotada. simpl. rewrite length_insert, length_nuevo. lia.
  - intros e0 [Hcola Hf0].
    eapply (no_agota_ligar (λ _, True)).
    + apply no_agota_bucle; [done|lia].
    + intros e _. paso_res no_agota_copiar. done.
Qed.

Lemma falsos_insert (l : list bool) (i : nat) :
  l !! i = Some false → S (falsos (<[i := true]> l)) = falsos l.
Proof.
  intros Hi. unfold falsos.
  rewrite <- (take_drop_middle l i false Hi) at 2.
  rewrite insert_take_drop by (by eapply lookup_lt_Some).
  rewrite !filter_app, !filter_cons, !length_app. simpl. lia.
Qed.

Lemma falsos_length (l : list bool) : (falsos l ≤ length l)%nat.
Proof. apply length_filter. Qed.

Lemma no_agota_DFSRecursivo (combustible : nat) : ∀ u e,
  ver (dfs_visitados e) u = Some false →
  (falsos (dfs_visitados e) ≤ combustible)%nat →
  resultado_es
    (λ e', (falsos (dfs_visitados e') < falsos (dfs_visitados e))%nat) True
    (DFSRecursivo combustible g u e).
Proof.
  induction combustible as [|c IH]; intros u e Hu Hc.
  all: assert (0 ≤ u ∧ dfs_visitados e !! Z.to_nat u = Some false) as [Hu0 Hu'] by
    (unfold ver in Hu; by case_decide).
  all: pose proof (falsos_insert _ _ Hu') as Hmenos.
  - lia.
  - simpl.
    paso_res @no_agota_escribir. intros vi [-> Hvi].
    paso_res @no_agota_escribir. intros re _.
    paso_res no_agota_entero. intros contador' _.
    paso_res @no_agota_leer. intros inicioVecinos _.
    paso_res no_agota_entero. intros nodo1 _.
    paso_res @no_agota_leer. intros finVecinos _.
    eapply resultado_es_impl;
      [apply (no_agota_para
         (λ e', (falsos (dfs_visitados e') ≤
                 falsos (<[Z.to_nat u := true]> (dfs_visitados e)))%nat))| |done].
    + intros j e1 He1.
      paso_res @no_agota_leer. intros vecino _.
      paso_res @no_agota_leer. intros m Hm.
      destruct m; [done|].
      eapply resultado_es_impl; [apply IH; [done|lia]| |done].
      cbn beta. intros e2 He2. lia.
    + done.
    + cbn beta. intros e' He'. lia.
Qed.

(** [DFS] does not run out of fuel. *)
Lemma DFS_no_agota s visitados :
  DFS g s visitados ≠ SinCombustible.
Proof.
  apply (no_agota_no_SinCombustible (λ _, True)).
  unfold DFS. case_decide as Hs; [done|].
  destruct (para_regla
    (λ i ma, length ma = Z.to_nat (numNodos g) ∧
             ∀ k, 0 ≤ k < i → ver ma k = Some false)
    (fun i ma => escribir ma i false)
    0 (numNodos g) (nuevo (numNodos g) false)) as (ma & -> & Hma & Hfalse);
    [lia| | |].
  - intros i ma Hi (Hma & Hfalse). corre.
    eexists. split; [done|]. rewrite length_insert. split; [done|].
    intros k Hk. rewrite ver_insert by lia. case_decide; [done|].
    apply Hfalse. lia.
  - rewrite length_nuevo. split; [done|]. lia.
  - cbn [ligar]. eapply (no_agota_ligar (λ _, True)).
    + eapply resultado_es_impl; [apply no_agota_DFSRecursivo| |done].
      * simpl. apply Hfalse. lia.
      * simpl. rewrite <- Hma. apply falsos_length.
      * done.
    + intros e _. paso_res no_agota_copiar. done.
Qed.
End Combustible.

(** * The embedding at work *)

(** Twelve edges out of node 0: the list of node 0 outgrows its ten cells
    and is copied into twenty. *)
Example carga_con_crecimiento :
  cargarDatos (Some (replicate 11 (0, 1) ++ [(0, 2)])) grafo_vacio =
  Ret (true,
       {| numNodos := 3; numAristas := 12; esDirigido := true;
          values := replicate 12 1;
          column_indices := replicate 11 1 ++ [2];
          row_ptr := [0; 12; 12; 12];
          capacidadAristas := 0; capacidadNodos := 0 |}).
Proof. vm_compute. reflexivity. Qed.

Example carga_cadena :
  cargarDatos (Some cadena) grafo_vacio = Ret (true, grafo_cadena).
Proof. vm_compute. reflexivity. Qed.

Example recorridos_cadena :
  BFS grafo_cadena 0 (-1) [] = Ret ([0; 1; 4; 2; 5; 3], 6) ∧
  BFS grafo_cadena 0 1 [] = Ret ([0; 1; 4], 3) ∧
  BFS grafo_cadena 0 2 [] = Ret ([0; 1; 4; 2; 5], 5) ∧
  BFS grafo_cadena 0 (-2) [] = Ret ([0], 1) ∧
  DFS grafo_cadena 0 [] = Ret ([0; 1; 2; 3; 4; 5], 6) ∧
  DFS grafo_cadena 6 [] = Ret ([6; 0; 1; 2; 3; 4; 5], 7) ∧
  getVecinos grafo_cadena 0 [] = Ret ([1; 4], 2) ∧
  getVecinos grafo_cadena 5 [9] = Ret ([9], 0) ∧
  obtenerGradoEntrada grafo_cadena 4 = Ret 2 ∧
  obtenerNodoMayorGrado grafo_cadena = Ret (0, 2).
Proof. vm_compute. repeat split. Qed.

(** A negative destination is stored as it comes; the walks then index
    their arrays with it. *)
Example destino_negativo :
  cargarDatos (Some [(0, -1)]) grafo_vacio =
    Ret (true,
         {| numNodos := 1; numAristas := 1; esDirigido := true;
            values := [1]; column_indices := [-1]; row_ptr := [0; 1];
            capacidadAristas := 0; capacidadNodos := 0 |}) ∧
  BFS {| numNodos := 1; numAristas := 1; esDirigido := true;
         values := [1]; column_indices := [-1]; row_ptr := [0; 1];
         capacidadAristas := 0; capacidadNodos := 0 |} 0 (-1) [] = Indefinido ∧
  DFS {| numNodos := 1; numAristas := 1; esDirigido := true;
         values := [1]; column_indices := [-1]; row_ptr := [0; 1];
         capacidadAristas := 0; capacidadNodos := 0 |} 0 [] = Indefinido.
Proof. vm_compute. repeat split. Qed.

(** * Main results *)

Ltac sin_negativos_ej :=
  unfold sin_negativos, ejemplo;
  repeat (apply Forall_cons; split; [simpl; lia|]); apply Forall_nil_2.

Ltac construido_ej :=
  exists ejemplo, grafo_vacio; split; [sin_negativos_ej|vm_compute; reflexivity].

(** C1. A graph built by [cargarDatos] from an edge list of non-negative
    pairs satisfies the build invariants of the CSR arrays: [row_ptr] has
    [numNodos + 1] cells, starts at 0, ends at [numAristas] and is
    non-decreasing; [column_indices] and [values] have [numAristas] cells
    (one per pair of the file); every column index is a valid node; every
    value is 1; and the out-degrees of the nodes [0 .. numNodos-1], as
    returned by [obtenerGradoSalida], add up to [numAristas]. *)
Theorem C1_invariantes_de_construccion (ps : list (Z * Z)) (g0 g : GrafoDisperso) :
  sin_negativos ps → cargarDatos (Some ps) g0 = Ret (true, g) →
  numAristas g = Z.of_nat (length ps) ∧
  length (row_ptr g) = Z.to_nat (numNodos g + 1) ∧
  Z.of_nat (length (column_indices g)) = numAristas g ∧
  Z.of_nat (length (values g)) = numAristas g ∧
  ver (row_ptr g) 0 = Some 0 ∧
  ver (row_ptr g) (numNodos g) = Some (numAristas g) ∧
  (∀ i j a b, i ≤ j → ver (row_ptr g) i = Some a →
              ver (row_ptr g) j = Some b → a ≤ b) ∧
  Forall (λ c, 0 ≤ c < numNodos g) (column_indices g) ∧
  Forall (λ x, x = 1) (values g) ∧
  ∃ grados,
    Forall2 (λ i d, obtenerGradoSalida g i = Ret d) (seqZ 0 (numNodos g)) grados ∧
    suma grados = numAristas g.
Proof.
  intros Hps E.
  destruct (cargarDatos_Ret ps g0 true g E) as (_ & _ & Hint & Hcsr & Hnm).
  destruct (cabe_en_int_cotas ps g Hint Hcsr Hnm) as [Hni Hai].
  pose proof (csr_de_ok ps g Hps Hcsr Hni Hai) as Hok.
  split; [by destruct Hcsr as (_ & _ & _ & ? & _)|].
  pose proof Hok as [Hn Har Hlen H0 HN Hmono Hclen Hcols Hvlen Hvals _ _].
  split_and!; try done.
  exists (grado g <$> seqZ 0 (numNodos g)). split.
  - apply Forall2_fmap_r, Forall_Forall2_diag, Forall_forall.
    intros i Hi%elem_of_seqZ. apply obtenerGradoSalida_grado; [done|lia].
  - pose proof (suma_grados g Hok (Z.to_nat (numNodos g))) as H.
    replace (Z.of_nat (Z.to_nat (numNodos g))) with (numNodos g) in H by lia.
    apply H; [lia|done].
Qed.

Lemma C1_witness :
  sin_negativos ejemplo ∧
  cargarDatos (Some ejemplo) grafo_vacio = Ret (true, grafo_ejemplo) ∧
  numAristas grafo_ejemplo = Z.of_nat (length ejemplo) ∧
  length (row_ptr grafo_ejemplo) = Z.to_nat (numNodos grafo_ejemplo + 1) ∧
  Z.of_nat (length (column_indices grafo_ejemplo)) = numAristas grafo_ejemplo ∧
  Z.of_nat (length (values grafo_ejemplo)) = numAristas grafo_ejemplo ∧
  ver (row_ptr grafo_ejemplo) 0 = Some 0 ∧
  ver (row_ptr grafo_ejemplo) (numNodos grafo_ejemplo) =
    Some (numAristas grafo_ejemplo) ∧
  (∀ i j a b, i ≤ j → ver (row_ptr grafo_ejemplo) i = Some a →
              ver (row_ptr grafo_ejemplo) j = Some b → a ≤ b) ∧
  Forall (λ c, 0 ≤ c < numNodos grafo_ejemplo) (column_indices grafo_ejemplo) ∧
  Forall (λ x, x = 1) (values grafo_ejemplo) ∧
  ∃ grados,
    Forall2 (λ i d, obtenerGradoSalida grafo_ejemplo i = Ret d)
      (seqZ 0 (numNodos grafo_ejemplo)) grados ∧
    suma grados = numAristas grafo_ejemplo.
Proof.
  split; [sin_negativos_ej|]. split; [vm_compute; reflexivity|].
  apply (C1_invariantes_de_construccion ejemplo grafo_vacio grafo_ejemplo);
    [sin_negativos_ej|vm_compute; reflexivity].
Defined.

(** C2. On a built graph and from a valid start node, [BFS(start, -1)]
    returns exactly the nodes reachable from the start along directed
    edges, each of them once, and [BFS(start, 0)] returns the sequence
    [[start]]. *)
Theorem C2_BFS_alcanzables (g : GrafoDisperso) (s : Z) (visitados : list Z) :
  construido g → 0 ≤ s < numNodos g →
  (∃ r, BFS g s (-1) visitados = Ret r ∧ NoDup (secuencia r) ∧
        ∀ v, v ∈ secuencia r ↔ alcanzable g s v) ∧
  (∃ r, BFS g s 0 visitados = Ret r ∧ secuencia r = [s]).
Proof.
  intros Hg%construido_ok Hs. split.
  - by apply BFS_sin_limite.
  - exists ([s], 1). split; [|done]. by apply BFS_cortado.
Qed.

Lemma C2_witness :
  construido grafo_ejemplo ∧ 0 ≤ 0 < numNodos grafo_ejemplo ∧
  (∃ r, BFS grafo_ejemplo 0 (-1) [] = Ret r ∧ NoDup (secuencia r) ∧
        ∀ v, v ∈ secuencia r ↔ alcanzable grafo_ejemplo 0 v) ∧
  (∃ r, BFS grafo_ejemplo 0 0 [] = Ret r ∧ secuencia r = [0]).
Proof.
  split; [construido_ej|]. split; [simpl; lia|].
  apply (C2_BFS_alcanzables grafo_ejemplo 0 []); [construido_ej|simpl; lia].
Defined.

(** C3. On a built graph with at least one node, [obtenerNodoMayorGrado]
    returns a valid node and stores its out-degree in [gradoMaximo]; no
    node has a greater out-degree, and every node with a smaller id has a
    strictly smaller out-degree: the node returned is the smallest id of
    maximum out-degree. *)
Theorem C3_nodo_mayor_grado (g : GrafoDisperso) :
  construido g → 0 < numNodos g →
  ∃ nodo gradoMaximo,
    obtenerNodoMayorGrado g = Ret (nodo, gradoMaximo) ∧
    0 ≤ nodo < numNodos g ∧
    obtenerGradoSalida g nodo = Ret gradoMaximo ∧
    (∀ i, 0 ≤ i < numNodos g →
          ∃ d, obtenerGradoSalida g i = Ret d ∧ d ≤ gradoMaximo) ∧
    (∀ i, 0 ≤ i < nodo →
          ∃ d, obtenerGradoSalida g i = Ret d ∧ d < gradoMaximo).
Proof.
  intros Hg%construido_ok Hpos.
  destruct (obtenerNodoMayorGrado_spec g Hg Hpos)
    as (nodo & gm & E & Hnodo & Hgr & Hmax & Hmin).
  exists nodo, gm. split_and!; try done; try lia.
  - rewrite obtenerGradoSalida_grado by done. by f_equal.
  - intros i Hi. exists (grado g i).
    split; [by apply obtenerGradoSalida_grado|by apply Hmax].
  - intros i Hi. exists (grado g i).
    split; [apply obtenerGradoSalida_grado; [done|lia]|by apply Hmin].
Qed.

Lemma C3_witness :
  construido grafo_ejemplo ∧ 0 < numNodos grafo_ejemplo ∧
  ∃ nodo gradoMaximo,
    obtenerNodoMayorGrado grafo_ejemplo = Ret (nodo, gradoMaximo) ∧
    0 ≤ nodo < numNodos grafo_ejemplo ∧
    obtenerGradoSalida grafo_ejemplo nodo = Ret gradoMaximo ∧
    (∀ i, 0 ≤ i < numNodos grafo_ejemplo →
          ∃ d, obtenerGradoSalida grafo_ejemplo i = Ret d ∧ d ≤ gradoMaximo) ∧
    (∀ i, 0 ≤ i < nodo →
          ∃ d, obtenerGradoSalida grafo_ejemplo i = Ret d ∧ d < gradoMaximo).
Proof.
  split; [construido_ej|]. split; [simpl; lia|].
  apply (C3_nodo_mayor_grado grafo_ejemplo); [construido_ej|simpl; lia].
Defined.

(** C4. On a built graph, from a valid start node and with a depth bound
    [maxDepth >= 0], [BFS] returns exactly the nodes whose distance from the
    start (least number of edges) is at most [maxDepth], each of them once.
    The turn of the loop that takes [u] out of the queue (the arrays of [e]
    holding the queue and the distances [st], with a recorded distance of
    [u] that a walk can produce) works as follows: when the distance of
    [u] is below the bound, the neighbours of [u] are
    gone through in the order of its CSR slice, and each one that is not
    yet in the queue is appended to it (marked, and copied to the result)
    with the distance of [u] plus one; when the distance of [u] has reached
    the bound, the queue, the result and the distances stay as they are. *)
Theorem C4_BFS_acotado (g : GrafoDisperso) (s maxDepth : Z) (visitados : list Z) :
  construido g → 0 ≤ s < numNodos g → 0 ≤ maxDepth →
  (∃ r, BFS g s maxDepth visitados = Ret r ∧ NoDup (secuencia r) ∧
        ∀ v, v ∈ secuencia r ↔ ∃ d, distancia g s v d ∧ Z.of_nat d ≤ maxDepth) ∧
  (∀ e st u,
     rep_BFS g e st → 0 ≤ frente e → st.1 !! Z.to_nat (frente e) = Some u →
     0 ≤ dist_de st.2 u < numNodos g →
     ∃ e', paso_BFS g maxDepth e = Ret e' ∧ frente e' = frente e + 1 ∧
       (dist_de st.2 u < maxDepth →
          rep_BFS g e' (foldl (visita (dist_de st.2 u)) st (vecinos_de g u))) ∧
       (dist_de st.2 u >= maxDepth → rep_BFS g e' st)).
Proof.
  intros Hg%construido_ok Hs Hpm. split.
  - by apply BFS_acotado.
  - intros e st u Hrep Hf Hu Hd.
    destruct (paso_BFS_mecanismo g Hg maxDepth e st u Hrep Hf Hu Hd)
      as (e' & E & Hf' & Hmenor & Higual).
    exists e'. split_and!; try done.
    + intros Hlt. apply Hmenor. by right.
    + intros Hge. apply Higual. split; [lia|done].
Qed.

Lemma C4_witness :
  construido grafo_ejemplo ∧ 0 ≤ 0 < numNodos grafo_ejemplo ∧ 0 ≤ 1 ∧
  (∃ r, BFS grafo_ejemplo 0 1 [] = Ret r ∧ NoDup (secuencia r) ∧
        ∀ v, v ∈ secuencia r ↔ ∃ d, distancia grafo_ejemplo 0 v d ∧ Z.of_nat d ≤ 1) ∧
  (∀ e st u,
     rep_BFS grafo_ejemplo e st → 0 ≤ frente e →
     st.1 !! Z.to_nat (frente e) = Some u →
     0 ≤ dist_de st.2 u < numNodos grafo_ejemplo →
     ∃ e', paso_BFS grafo_ejemplo 1 e = Ret e' ∧ frente e' = frente e + 1 ∧
       (dist_de st.2 u < 1 →
          rep_BFS grafo_ejemplo e'
            (foldl (visita (dist_de st.2 u)) st (vecinos_de grafo_ejemplo u))) ∧
       (dist_de st.2 u >= 1 → rep_BFS grafo_ejemplo e' st)).
Proof.
  split; [construido_ej|]. split; [simpl; lia|]. split; [lia|].
  apply (C4_BFS_acotado grafo_ejemplo 0 1 []); [construido_ej|simpl; lia|lia].
Defined.

(** C5. On a built graph and for every start node, [DFS(start)] and
    [BFS(start, -1)] return sequences with the same set of nodes. *)
Theorem C5_DFS_BFS_mismo_conjunto (g : GrafoDisperso) (s : Z)
    (visitados visitados' : list Z) :
  construido g →
  ∃ rd rb, DFS g s visitados = Ret rd ∧ BFS g s (-1) visitados' = Ret rb ∧
           ∀ v, v ∈ secuencia rd ↔ v ∈ secuencia rb.
Proof.
  intros Hg%construido_ok.
  destruct (decide (0 ≤ s < numNodos g)) as [Hs|Hs].
  - destruct (DFS_spec g Hg s visitados Hs) as (R & Ed & _ & _ & Hd).
    destruct (BFS_sin_limite g Hg s visitados' Hs) as (rb & Eb & _ & Hb).
    eexists _, rb. split; [exact Ed|]. split; [done|].
    intros v. rewrite Hb, <- Hd. unfold secuencia. simpl.
    by rewrite Nat2Z.id, take_ge.
  - exists (visitados, 0), (visitados', 0).
    unfold DFS, BFS. rewrite !decide_True by lia. done.
Qed.

Lemma C5_witness :
  construido grafo_ejemplo ∧
  ∃ rd rb, DFS grafo_ejemplo 1 [] = Ret rd ∧
           BFS grafo_ejemplo 1 (-1) [] = Ret rb ∧
           ∀ v, v ∈ secuencia rd ↔ v ∈ secuencia rb.
Proof.
  split; [construido_ej|].
  apply (C5_DFS_BFS_mismo_conjunto grafo_ejemplo 1 [] []). construido_ej.
Defined.

(** C6. On a built graph, [getVecinos] of a valid node returns the cells
    [column_indices[row_ptr[node] .. row_ptr[node+1])] in their order, as
    many as [obtenerGradoSalida] tells; of a node outside [0, numNodos) it
    returns the empty sequence. *)
Theorem C6_getVecinos (g : GrafoDisperso) (nodo : Z) (vecinos : list Z) :
  construido g →
  (0 ≤ nodo < numNodos g →
     ∃ a b r,
       ver (row_ptr g) nodo = Some a ∧ ver (row_ptr g) (nodo + 1) = Some b ∧
       getVecinos g nodo vecinos = Ret r ∧
       secuencia r =
         take (Z.to_nat (b - a)) (drop (Z.to_nat a) (column_indices g)) ∧
       obtenerGradoSalida g nodo = Ret (Z.of_nat (length (secuencia r))) ∧
       r.2 = Z.of_nat (length (secuencia r))) ∧
  (¬ (0 ≤ nodo < numNodos g) →
     ∃ r, getVecinos g nodo vecinos = Ret r ∧ secuencia r = []).
Proof.
  intros Hg%construido_ok. split.
  - intros Hn. destruct (tramo g Hg nodo Hn) as (a & b & Ha & Hb & _).
    destruct (getVecinos_vecinos_de g Hg nodo vecinos Hn) as (r & E & Hsec & Hr).
    exists a, b, r. split_and!; try done.
    + rewrite Hsec. by apply vecinos_de_tramo.
    + rewrite obtenerGradoSalida_grado, Hsec by done.
      f_equal. by apply grado_vecinos.
    + by rewrite Hsec.
  - intros Hn. exists (vecinos, 0). split; [|done].
    unfold getVecinos. rewrite decide_True by lia. done.
Qed.

Lemma C6_witness :
  construido grafo_ejemplo ∧
  (0 ≤ 0 < numNodos grafo_ejemplo →
     ∃ a b r,
       ver (row_ptr grafo_ejemplo) 0 = Some a ∧
       ver (row_ptr grafo_ejemplo) (0 + 1) = Some b ∧
       getVecinos grafo_ejemplo 0 [] = Ret r ∧
       secuencia r =
         take (Z.to_nat (b - a))
           (drop (Z.to_nat a) (column_indices grafo_ejemplo)) ∧
       obtenerGradoSalida grafo_ejemplo 0 = Ret (Z.of_nat (length (secuencia r))) ∧
       r.2 = Z.of_nat (length (secuencia r))) ∧
  (¬ (0 ≤ 0 < numNodos grafo_ejemplo) →
     ∃ r, getVecinos grafo_ejemplo 0 [] = Ret r ∧ secuencia r = []).
Proof.
  split; [construido_ej|].
  apply (C6_getVecinos grafo_ejemplo 0 []). construido_ej.
Defined.

(** C7. On a built graph, a node id outside [0, numNodos) makes every query
    return its neutral result: both degrees are 0, and [getVecinos], [BFS]
    (whatever the depth bound) and [DFS] return the empty sequence. *)
Theorem C7_nodo_invalido (g : GrafoDisperso) (nodo profundidadMax : Z)
    (arreglo : list Z) :
  construido g → nodo < 0 ∨ numNodos g ≤ nodo →
  obtenerGradoSalida g nodo = Ret 0 ∧
  obtenerGradoEntrada g nodo = Ret 0 ∧
  (∃ r, getVecinos g nodo arreglo = Ret r ∧ secuencia r = []) ∧
  (∃ r, BFS g nodo profundidadMax arreglo = Ret r ∧ secuencia r = []) ∧
  (∃ r, DFS g nodo arreglo = Ret r ∧ secuencia r = []).
Proof.
  intros _ Hn.
  unfold obtenerGradoSalida, obtenerGradoEntrada, getVecinos, BFS, DFS.
  rewrite !decide_True by lia.
  split_and!; try done; by exists (arreglo, 0).
Qed.

Lemma C7_witness :
  construido grafo_ejemplo ∧ (99 < 0 ∨ numNodos grafo_ejemplo ≤ 99) ∧
  obtenerGradoSalida grafo_ejemplo 99 = Ret 0 ∧
  obtenerGradoEntrada grafo_ejemplo 99 = Ret 0 ∧
  (∃ r, getVecinos grafo_ejemplo 99 [] = Ret r ∧ secuencia r = []) ∧
  (∃ r, BFS grafo_ejemplo 99 (-1) [] = Ret r ∧ secuencia r = []) ∧
  (∃ r, DFS grafo_ejemplo 99 [] = Ret r ∧ secuencia r = []).
Proof.
  split; [construido_ej|]. split; [simpl; lia|].
  apply (C7_nodo_invalido grafo_ejemplo 99 (-1) []); [construido_ej|simpl; lia].
Defined.

(** C8, as the code has it.  [cargarDatos] returns [false], leaving the
    object as it was, when the file cannot be opened, and never otherwise.
    A file that opens is loaded, with [true] returned, exactly when no pair
    has a negative origin and the sizes fit the [int] arithmetic of the
    loader, that is [2 * pairs + (greatest identifier + 1) + 1 <= INT_MAX];
    a file without pairs is loaded with [numNodos = 0] and
    [numAristas = 0]. *)
Theorem C8_cargarDatos_resultado (g0 : GrafoDisperso) :
  cargarDatos None g0 = Ret (false, g0) ∧
  (∀ ps b g, cargarDatos (Some ps) g0 = Ret (b, g) → b = true) ∧
  (∀ ps, (∃ g, cargarDatos (Some ps) g0 = Ret (true, g)) ↔
         origenes_validos ps ∧
         2 * Z.of_nat (length ps) + (nodo_maximo ps + 1) + 1 ≤ INT_MAX) ∧
  (∃ g, cargarDatos (Some []) g0 = Ret (true, g) ∧
        numNodos g = 0 ∧ numAristas g = 0).
Proof.
  split_and!.
  - done.
  - intros ps b g E. apply cargarDatos_Ret in E. tauto.
  - intros ps. split.
    + intros [g E]. apply cargarDatos_Ret in E. tauto.
    + intros [Hps Hint].
      destruct (cargarDatos_total ps g0 Hps Hint) as (g & E & _). by exists g.
  - eexists. split; [reflexivity|]. done.
Qed.

(** C8, as the claim states it, fails.  The file with the single pair
    [-1 0] opens, and the second pass reads [contadores[-1]]; the file with
    the single pair [0 2147483647] opens, and [nodoMaximo + 1] leaves the
    range of [int].  Neither load runs to a successful end. *)
Lemma C8_contraejemplo :
  ¬ (∃ g, cargarDatos (Some [(-1, 0)]) grafo_vacio = Ret (true, g)) ∧
  ¬ (∃ g, cargarDatos (Some [(0, 2147483647)]) grafo_vacio = Ret (true, g)).
Proof.
  split; intros [g E]; vm_compute in E; discriminate E.
Qed.

(** C9. The scenario [(0,1) (0,2) (1,2) (2,0)]. *)
Theorem C9_escenario :
  ∃ g, cargarDatos (Some ejemplo) grafo_vacio = Ret (true, g) ∧
    numNodos g = 3 ∧ numAristas g = 4 ∧
    obtenerGradoSalida g 0 = Ret 2 ∧ obtenerGradoSalida g 1 = Ret 1 ∧
    obtenerGradoSalida g 2 = Ret 1 ∧
    obtenerGradoEntrada g 0 = Ret 1 ∧ obtenerGradoEntrada g 1 = Ret 1 ∧
    obtenerGradoEntrada g 2 = Ret 2 ∧
    (∀ visitados, BFS g 0 (-1) visitados = Ret ([0; 1; 2], 3)) ∧
    (∀ visitados, DFS g 0 visitados = Ret ([0; 1; 2], 3)) ∧
    obtenerNodoMayorGrado g = Ret (0, 2).
Proof.
  exists grafo_ejemplo. split_and!; try (vm_compute; reflexivity).
  all: intros visitados; vm_compute; reflexivity.
Qed.

(** C10. On a built graph and from a valid start node, a negative depth
    bound other than -1 makes [BFS] return the sequence [[start]], as the
    bound 0 does. *)
Theorem C10_BFS_profundidad_negativa (g : GrafoDisperso) (s profundidadMax : Z)
    (visitados : list Z) :
  construido g → 0 ≤ s < numNodos g →
  profundidadMax < 0 → profundidadMax ≠ -1 →
  (∃ r, BFS g s profundidadMax visitados = Ret r ∧ secuencia r = [s]) ∧
  BFS g s profundidadMax visitados = BFS g s 0 visitados.
Proof.
  intros Hg%construido_ok Hs Hneg Hpm.
  rewrite !(BFS_cortado g Hg) by (done || lia).
  split; [|done]. by exists ([s], 1).
Qed.

Lemma C10_witness :
  construido grafo_ejemplo ∧ 0 ≤ 0 < numNodos grafo_ejemplo ∧ -2 < 0 ∧ -2 ≠ -1 ∧
  (∃ r, BFS grafo_ejemplo 0 (-2) [] = Ret r ∧ secuencia r = [0]) ∧
  BFS grafo_ejemplo 0 (-2) [] = BFS grafo_ejemplo 0 0 [].
Proof.
  split; [construido_ej|]. split; [simpl; lia|]. split; [lia|]. split; [lia|].
  apply (C10_BFS_profundidad_negativa grafo_ejemplo 0 (-2) []);
    [construido_ej|simpl; lia|lia|lia].
Defined.

(** * Further properties of the code *)

(** ** The loader, told on the edge list *)

Lemma foldl_max_alcanzado (ps : list (Z * Z)) : ∀ m,
  foldl (λ m p, Z.max (Z.max m p.1) p.2) m ps = m ∨
  ∃ p, p ∈ ps ∧ (p.1 = foldl (λ m p, Z.max (Z.max m p.1) p.2) m ps ∨
                 p.2 = foldl (λ m p, Z.max (Z.max m p.1) p.2) m ps).
Proof.
  induction ps as [|[o d] ps IH]; intros m; simpl; [by left|].
  destruct (IH (Z.max (Z.max m o) d)) as [E|(p & Hp & Hpm)].
  - rewrite E.
    destruct (decide (Z.max (Z.max m o) d = m)) as [Hm|Hm]; [by left|].
    right. exists (o, d). split; [by left|]. simpl. lia.
  - right. exists p. split; [by right|done].
Qed.

Lemma nodo_maximo_alcanzado ps :
  origenes_validos ps → ps ≠ [] →
  ∃ p, p ∈ ps ∧ (p.1 = nodo_maximo ps ∨ p.2 = nodo_maximo ps).
Proof.
  intros Hps Hne.
  destruct (foldl_max_alcanzado ps (-1)) as [E|H]; [|done].
  destruct ps as [|[o d] ps]; [done|].
  apply Forall_cons_1 in Hps as [Ho _]. simpl in Ho.
  destruct (nodo_maximo_cota ((o, d) :: ps)) as [_ Hmax].
  apply Forall_cons_1 in Hmax as [[Hmo _] _]. simpl in Hmo.
  unfold nodo_maximo in Hmo. lia.
Qed.

(** The fields that the loader does not assign. *)
Lemma construirCSR_campos g t g' :
  construirCSR g t = Ret g' →
  esDirigido g' = esDirigido g ∧
  capacidadAristas g' = capacidadAristas g ∧
  capacidadNodos g' = capacidadNodos g.
Proof.
  unfold construirCSR. intros E.
  repeat match type of E with
  | ligar ?m _ = _ => destruct m as [?| |]; cbn [ligar] in E; try discriminate E
  | (let '(_, _) := ?x in _) = _ => destruct x
  end.
  by injection E as <-.
Qed.

Lemma cargarDatos_campos ps g0 b g :
  cargarDatos (Some ps) g0 = Ret (b, g) →
  esDirigido g = esDirigido g0 ∧
  capacidadAristas g = capacidadAristas g0 ∧
  capacidadNodos g = capacidadNodos g0.
Proof.
  unfold cargarDatos. intros E.
  repeat match type of E with
  | ligar ?m _ = _ =>
      destruct m as [?| |] eqn:?; cbn [ligar] in E; try discriminate E
  | (let '(_, _) := ?x in _) = _ => destruct x
  end.
  injection E as <- <-.
  match goal with H : construirCSR _ _ = Ret _ |- _ =>
    apply construirCSR_campos in H; simpl in H; exact H
  end.
Qed.

Lemma desplazamiento_filter ps j :
  origenes_validos ps → 0 ≤ j →
  desplazamiento ps j = Z.of_nat (length (filter (λ p, p.1 < j) ps)).
Proof.
  intros Hps Hj. replace j with (Z.of_nat (Z.to_nat j)) by lia.
  induction (Z.to_nat j) as [|k IH]; simpl.
  - rewrite desplazamiento_0.
    clear Hj. induction Hps as [|[o d] ps Ho _ IH]; [done|].
    rewrite filter_cons_False; [done|simpl in *; lia].
  - replace (Z.of_nat (S k)) with (Z.of_nat k + 1) by lia.
    rewrite desplazamiento_S, IH by lia.
    unfold destinos. rewrite length_fmap.
    clear. induction ps as [|[o d] ps IH]; [done|].
    rewrite !filter_cons. simpl.
    destruct (decide (o < Z.of_nat k + 1)), (decide (o < Z.of_nat k)),
      (decide (o = Z.of_nat k)); simpl; lia.
Qed.

(** The loader, in closed form. *)
Lemma cargarDatos_csr_esperado ps g0 :
  origenes_validos ps → cabe_en_int ps →
  cargarDatos (Some ps) g0 = Ret (true, csr_esperado ps g0).
Proof.
  intros Hps Hint.
  destruct (cargarDatos_total ps g0 Hps Hint) as (g & E & _).
  rewrite E. do 2 f_equal.
  destruct (cargarDatos_campos _ _ _ _ E) as (Hdir & Hca & Hcn).
  apply cargarDatos_Ret in E
    as (_ & _ & _ & (Hn & Hmax & Hnil & Hna & Hvals & Hcols & Hlen & Hrow) & Hnm).
  destruct g as [n a dir vals cols rp ca cn]. simpl in *. subst.
  unfold csr_esperado. f_equal.
  apply list_eq. intros i.
  destruct (decide (i < Z.to_nat (nodo_maximo ps + 1 + 1))%nat) as [Hi|Hi].
  - rewrite list_lookup_fmap, lookup_seqZ_lt by lia. simpl.
    specialize (Hrow (Z.of_nat i) ltac:(lia)).
    unfold ver in Hrow. rewrite decide_True, Nat2Z.id in Hrow by lia.
    rewrite Hrow, desplazamiento_filter by (done || lia). by rewrite Z.add_0_l.
  - rewrite !lookup_ge_None_2; [done| |lia].
    rewrite length_fmap, length_seqZ. lia.
Qed.

(** X1. After a load that returns, [getNumAristas] is the number of pairs
    of the file, duplicates and loops included, and [getNumNodos] is the
    greatest identifier of the file plus one: every identifier is below
    it, and one of them is [getNumNodos - 1]; a file without pairs gives
    no node.  The flag [esDirigido] is left as it was. *)
Theorem X1_tamanos_del_grafo (ps : list (Z * Z)) (g0 g : GrafoDisperso) :
  cargarDatos (Some ps) g0 = Ret (true, g) →
  getNumAristas g = Z.of_nat (length ps) ∧
  Forall (λ p, p.1 < getNumNodos g ∧ p.2 < getNumNodos g) ps ∧
  (ps = [] → getNumNodos g = 0) ∧
  (ps ≠ [] → ∃ p, p ∈ ps ∧ (p.1 = getNumNodos g - 1 ∨ p.2 = getNumNodos g - 1)) ∧
  esGrafoDirigido g = esGrafoDirigido g0.
Proof.
  intros E. unfold getNumAristas, getNumNodos, esGrafoDirigido.
  destruct (cargarDatos_campos _ _ _ _ E) as (Hdir & _).
  apply cargarDatos_Ret in E
    as (_ & Hps & _ & (Hn & Hmax & Hnil & Hna & _) & Hnm).
  split_and!; try done.
  intros Hne. destruct (nodo_maximo_alcanzado ps Hps Hne) as (p & Hp & Hpm).
  exists p. split; [done|]. lia.
Qed.

Lemma X1_witness :
  cargarDatos (Some ejemplo) grafo_vacio = Ret (true, grafo_ejemplo) ∧
  getNumAristas grafo_ejemplo = Z.of_nat (length ejemplo) ∧
  Forall (λ p, p.1 < getNumNodos grafo_ejemplo ∧ p.2 < getNumNodos grafo_ejemplo)
    ejemplo ∧
  (ejemplo = [] → getNumNodos grafo_ejemplo = 0) ∧
  (ejemplo ≠ [] →
     ∃ p, p ∈ ejemplo ∧ (p.1 = getNumNodos grafo_ejemplo - 1 ∨
                          p.2 = getNumNodos grafo_ejemplo - 1)) ∧
  esGrafoDirigido grafo_ejemplo = esGrafoDirigido grafo_vacio.
Proof.
  split; [vm_compute; reflexivity|].
  apply (X1_tamanos_del_grafo ejemplo grafo_vacio grafo_ejemplo).
  vm_compute. reflexivity.
Defined.

(** X2. The loader in closed form.  For a file without negative origins
    whose sizes fit [int], [cargarDatos] returns [true] and leaves exactly
    this object: [numNodos] is the greatest identifier plus one,
    [numAristas] the number of pairs, [values] all ones, [column_indices]
    the destinations grouped by origin and in the order of the file within
    each group, [row_ptr[j]] the number of pairs whose origin is below
    [j].  Nothing of the arrays that the object held before is left, so
    that a second load gives the graph that a first one would give. *)
Theorem X2_carga_en_forma_cerrada (ps : list (Z * Z)) (g0 : GrafoDisperso) :
  origenes_validos ps → cabe_en_int ps →
  cargarDatos (Some ps) g0 = Ret (true, csr_esperado ps g0) ∧
  ∀ g1 g, cargarDatos (Some ps) g1 = Ret (true, g) →
    numNodos g = numNodos (csr_esperado ps g0) ∧
    numAristas g = numAristas (csr_esperado ps g0) ∧
    values g = values (csr_esperado ps g0) ∧
    column_indices g = column_indices (csr_esperado ps g0) ∧
    row_ptr g = row_ptr (csr_esperado ps g0).
Proof.
  intros Hps Hint. split; [by apply cargarDatos_csr_esperado|].
  intros g1 g E. rewrite (cargarDatos_csr_esperado ps g1 Hps Hint) in E.
  by injection E as <-.
Qed.

Lemma X2_witness :
  origenes_validos ejemplo ∧ cabe_en_int ejemplo ∧
  cargarDatos (Some ejemplo) grafo_vacio =
    Ret (true, csr_esperado ejemplo grafo_vacio) ∧
  ∀ g1 g, cargarDatos (Some ejemplo) g1 = Ret (true, g) →
    numNodos g = numNodos (csr_esperado ejemplo grafo_vacio) ∧
    numAristas g = numAristas (csr_esperado ejemplo grafo_vacio) ∧
    values g = values (csr_esperado ejemplo grafo_vacio) ∧
    column_indices g = column_indices (csr_esperado ejemplo grafo_vacio) ∧
    row_ptr g = row_ptr (csr_esperado ejemplo grafo_vacio).
Proof.
  assert (origenes_validos ejemplo) as Hps
    by (unfold origenes_validos, ejemplo;
        repeat (apply Forall_cons; split; [simpl; lia|]); apply Forall_nil_2).
  assert (cabe_en_int ejemplo) as Hint by (vm_compute; discriminate).
  split; [exact Hps|]. split; [exact Hint|].
  exact (X2_carga_en_forma_cerrada ejemplo grafo_vacio Hps Hint).
Defined.

(** ** Neighbours and degrees, told on the edge list *)

Lemma construido_de ps g0 g :
  sin_negativos ps → cargarDatos (Some ps) g0 = Ret (true, g) →
  csr_ok g ∧ csr_de ps g ∧ origenes_validos ps ∧
  2 * numAristas g + numNodos g + 1 ≤ INT_MAX.
Proof.
  intros Hps E.
  apply cargarDatos_Ret in E as (_ & Hor & Hint & Hcsr & Hnm).
  destruct (cabe_en_int_cotas ps g Hint Hcsr Hnm) as [Hni Hai].
  split; [by apply (csr_de_ok ps)|]. split; [done|]. split; [done|].
  unfold cabe_en_int in Hint. destruct Hcsr as (_ & _ & _ & Hna & _). lia.
Qed.

Lemma concat_fmap_fmap {A B : Type} (f : A → B) (ls : list (list A)) :
  concat ((λ l : list A, f <$> l) <$> ls) = f <$> concat ls.
Proof.
  induction ls as [|l ls IH]; [done|].
  rewrite fmap_cons. cbn [concat]. by rewrite fmap_app, IH.
Qed.

Lemma salientes_hasta ps (k : nat) :
  concat (salientes ps <$> seqZ 0 (Z.of_nat k)) ≡ₚ
  filter (λ p, 0 ≤ p.1 < Z.of_nat k) ps.
Proof.
  induction k as [|k IH].
  - simpl. induction ps as [|[o d] ps IHps]; [done|].
    rewrite filter_cons_False; [done|simpl; lia].
  - rewrite seqZ_S, fmap_app, concat_app, IH. simpl. rewrite app_nil_r.
    unfold salientes. rewrite Z.add_0_l. clear IH.
    induction ps as [|[o d] ps IHps]; [done|].
    rewrite !filter_cons. simpl.
    destruct (decide (0 ≤ o < Z.of_nat k)), (decide (o = Z.of_nat k)),
      (decide (0 ≤ o < Z.of_nat (S k))); try lia; simpl.
    + by rewrite IHps.
    + rewrite <- IHps. symmetry. apply Permutation_middle.
    + done.
Qed.

(** The edges stored are the pairs of the file, in another order. *)
Lemma salientes_todos ps n :
  Forall (λ p, 0 ≤ p.1 < n) ps → concat (salientes ps <$> seqZ 0 n) ≡ₚ ps.
Proof.
  intros Hps. destruct (decide (0 ≤ n)) as [Hn|Hn]; last first.
  { destruct ps as [|[o d] ps]; [by rewrite seqZ_nil by lia|].
    apply Forall_cons_1 in Hps as [Ho _]. simpl in Ho. lia. }
  replace n with (Z.of_nat (Z.to_nat n)) by lia. rewrite salientes_hasta.
  induction Hps as [|[o d] ps Ho _ IH]; [done|].
  rewrite filter_cons_True by (simpl in *; lia). by rewrite IH.
Qed.

Lemma columnas_permutacion ps g :
  csr_de ps g → origenes_validos ps → column_indices g ≡ₚ ps.*2.
Proof.
  intros (Hn & Hmax & _ & _ & _ & Hcols & _) Hps. rewrite Hcols.
  unfold filas.
  assert (destinos ps = (λ l : list (Z * Z), l.*2) ∘ salientes ps) as -> by done.
  rewrite list_fmap_compose, concat_fmap_fmap.
  apply fmap_Permutation, salientes_todos.
  unfold origenes_validos in Hps. rewrite Forall_forall in *.
  intros p Hp. specialize (Hps p Hp). specialize (Hmax p Hp). lia.
Qed.

Lemma length_filter_fmap_snd (ps : list (Z * Z)) v :
  length (filter (λ c, c = v) ps.*2) = length (entrantes ps v).
Proof.
  unfold entrantes. induction ps as [|[o d] ps IH]; [done|].
  rewrite fmap_cons, !filter_cons. cbn [snd].
  destruct (decide (d = v)); cbn [length]; by rewrite IH.
Qed.

Lemma obtenerGradoEntrada_cuenta g (Hg : csr_ok g) v :
  0 ≤ v < numNodos g →
  obtenerGradoEntrada g v =
  Ret (Z.of_nat (length (filter (λ c, c = v) (column_indices g)))).
Proof.
  intros Hv. unfold obtenerGradoEntrada. rewrite decide_False by lia.
  pose proof (ok_cols_len g Hg) as Hlen. pose proof (ok_aristas_int g Hg) as Hint.
  destruct (para_regla
    (λ i contador, contador =
       Z.of_nat (length (filter (λ c, c = v) (take (Z.to_nat i) (column_indices g)))))
    (fun i contador =>
       c <- leer (column_indices g) i ;;
       if decide (c = v) then entero (contador + 1) else Ret contador)
    0 (numAristas g) 0) as (c & -> & Hc); [lia| | |].
  - intros i contador Hi ->.
    destruct (column_indices_Some g Hg i Hi) as [c Hc].
    rewrite (leer_Ret _ _ _ Hc). cbn [ligar].
    replace (Z.to_nat (i + 1)) with (S (Z.to_nat i)) by lia.
    unfold ver in Hc. rewrite decide_True in Hc by lia.
    rewrite (take_S_r _ _ c) by done. rewrite filter_app, length_app.
    pose proof (length_filter (λ c, c = v) (take (Z.to_nat i) (column_indices g)))
      as Hf.
    rewrite length_take in Hf.
    case_decide.
    + rewrite entero_Ret by int_lia. eexists. split; [done|].
      rewrite filter_cons_True by done. simpl. lia.
    + eexists. split; [done|]. rewrite filter_cons_False by done. simpl. lia.
  - done.
  - rewrite Hc. by rewrite take_ge by lia.
Qed.

Lemma suma_cuentas (l : list Z) (k : nat) :
  suma ((λ v, Z.of_nat (length (filter (λ c, c = v) l))) <$> seqZ 0 (Z.of_nat k)) =
  Z.of_nat (length (filter (λ c, 0 ≤ c < Z.of_nat k) l)).
Proof.
  induction k as [|k IH].
  - simpl. induction l as [|c l IHl]; [done|].
    rewrite filter_cons_False; [done|lia].
  - rewrite seqZ_S, fmap_app, suma_app, IH. simpl. clear IH.
    induction l as [|c l IHl]; [done|].
    rewrite !filter_cons.
    destruct (decide (0 ≤ c < Z.of_nat k)), (decide (c = 0 + Z.of_nat k)),
      (decide (0 ≤ c < Z.of_nat (S k))); try lia; simpl in *; lia.
Qed.

(** X3. What [getVecinos] gives back is what the file said: for a graph
    loaded from the non-negative pairs [ps], the neighbours of a valid
    node [u] are the destinations of the pairs of origin [u], in the order
    of the file and with their repetitions; and [(u, v)] is a pair of the
    file exactly when [v] is among the neighbours that [getVecinos]
    returns for [u]. *)
Theorem X3_getVecinos_devuelve_el_archivo (ps : list (Z * Z))
    (g0 g : GrafoDisperso) (vecinos : list Z) :
  sin_negativos ps → cargarDatos (Some ps) g0 = Ret (true, g) →
  (∀ u, 0 ≤ u < getNumNodos g →
     ∃ r, getVecinos g u vecinos = Ret r ∧ secuencia r = (salientes ps u).*2 ∧
          r.2 = Z.of_nat (length (salientes ps u))) ∧
  (∀ u v, (u, v) ∈ ps ↔
     ∃ r, getVecinos g u vecinos = Ret r ∧ v ∈ secuencia r).
Proof.
  intros Hps E. destruct (construido_de ps g0 g Hps E) as (Hok & Hcsr & Hor & _).
  unfold getNumNodos.
  assert (∀ u, 0 ≤ u < numNodos g →
     ∃ r, getVecinos g u vecinos = Ret r ∧ secuencia r = (salientes ps u).*2 ∧
          r.2 = Z.of_nat (length (salientes ps u))) as Hvec.
  { intros u Hu.
    destruct (getVecinos_vecinos_de g Hok u vecinos Hu) as (r & Er & Hsec & Hr).
    exists r. rewrite (vecinos_de_destinos ps g u Hcsr Hor Hu) in Hsec, Hr.
    split; [done|]. split; [done|]. rewrite Hr.
    unfold destinos, salientes. by rewrite length_fmap. }
  split; [done|]. intros u v. split.
  - intros Hin.
    assert (0 ≤ u < numNodos g) as Hu.
    { destruct Hcsr as (_ & Hmax & _). unfold sin_negativos in Hps.
      rewrite Forall_forall in Hps, Hmax.
      specialize (Hps _ Hin). specialize (Hmax _ Hin). simpl in *. lia. }
    destruct (Hvec u Hu) as (r & Er & Hsec & _). exists r. split; [done|].
    rewrite Hsec. by apply (elem_of_destinos ps u v).
  - intros (r & Er & Hv).
    destruct (decide (0 ≤ u < numNodos g)) as [Hu|Hu].
    + destruct (Hvec u Hu) as (r' & Er' & Hsec & _).
      assert (r' = r) as -> by congruence.
      rewrite Hsec in Hv. by apply (elem_of_destinos ps u v).
    + unfold getVecinos in Er. rewrite decide_True in Er by lia.
      injection Er as <-. by apply elem_of_nil in Hv.
Qed.

Lemma X3_witness :
  sin_negativos ejemplo ∧
  cargarDatos (Some ejemplo) grafo_vacio = Ret (true, grafo_ejemplo) ∧
  (∀ u, 0 ≤ u < getNumNodos grafo_ejemplo →
     ∃ r, getVecinos grafo_ejemplo u [] = Ret r ∧
          secuencia r = (salientes ejemplo u).*2 ∧
          r.2 = Z.of_nat (length (salientes ejemplo u))) ∧
  (∀ u v, (u, v) ∈ ejemplo ↔
     ∃ r, getVecinos grafo_ejemplo u [] = Ret r ∧ v ∈ secuencia r).
Proof.
  split; [sin_negativos_ej|]. split; [vm_compute; reflexivity|].
  apply (X3_getVecinos_devuelve_el_archivo ejemplo grafo_vacio grafo_ejemplo []);
    [sin_negativos_ej|vm_compute; reflexivity].
Defined.

(** X4. The degrees count the pairs of the file: for a graph loaded from
    the non-negative pairs [ps] and a valid node [u], [obtenerGradoSalida]
    returns the number of pairs whose origin is [u], and
    [obtenerGradoEntrada] the number of pairs whose destination is [u]; a
    pair that occurs several times counts each time, and a loop [(u, u)]
    counts in both. *)
Theorem X4_grados_cuentan_el_archivo (ps : list (Z * Z)) (g0 g : GrafoDisperso)
    (u : Z) :
  sin_negativos ps → cargarDatos (Some ps) g0 = Ret (true, g) →
  0 ≤ u < getNumNodos g →
  obtenerGradoSalida g u = Ret (Z.of_nat (length (salientes ps u))) ∧
  obtenerGradoEntrada g u = Ret (Z.of_nat (length (entrantes ps u))).
Proof.
  intros Hps E Hu. destruct (construido_de ps g0 g Hps E) as (Hok & Hcsr & Hor & _).
  unfold getNumNodos in Hu. split.
  - rewrite (obtenerGradoSalida_grado g Hok u Hu), (grado_vecinos g Hok u Hu).
    rewrite (vecinos_de_destinos ps g u Hcsr Hor Hu).
    unfold destinos, salientes. by rewrite length_fmap.
  - rewrite (obtenerGradoEntrada_cuenta g Hok u Hu). do 2 f_equal.
    rewrite <- length_filter_fmap_snd.
    apply Permutation_length.
    by rewrite (columnas_permutacion ps g Hcsr Hor).
Qed.

Lemma X4_witness :
  sin_negativos ejemplo ∧
  cargarDatos (Some ejemplo) grafo_vacio = Ret (true, grafo_ejemplo) ∧
  0 ≤ 2 < getNumNodos grafo_ejemplo ∧
  obtenerGradoSalida grafo_ejemplo 2 = Ret (Z.of_nat (length (salientes ejemplo 2))) ∧
  obtenerGradoEntrada grafo_ejemplo 2 = Ret (Z.of_nat (length (entrantes ejemplo 2))).
Proof.
  split; [sin_negativos_ej|]. split; [vm_compute; reflexivity|].
  split; [unfold getNumNodos; simpl; lia|].
  apply (X4_grados_cuentan_el_archivo ejemplo grafo_vacio grafo_ejemplo 2);
    [sin_negativos_ej|vm_compute; reflexivity|unfold getNumNodos; simpl; lia].
Defined.

(** X5. On a built graph the in-degrees of the nodes [0 .. numNodos-1], as
    [obtenerGradoEntrada] returns them, add up to [numAristas]: every
    stored edge arrives at exactly one valid node. *)
Theorem X5_suma_de_grados_de_entrada (g : GrafoDisperso) :
  construido g →
  ∃ grados,
    Forall2 (λ i d, obtenerGradoEntrada g i = Ret d) (seqZ 0 (numNodos g)) grados ∧
    suma grados = getNumAristas g.
Proof.
  intros Hg%construido_ok.
  exists ((λ v, Z.of_nat (length (filter (λ c, c = v) (column_indices g)))) <$>
          seqZ 0 (numNodos g)).
  split.
  - apply Forall2_fmap_r, Forall_Forall2_diag, Forall_forall.
    intros i Hi%elem_of_seqZ. apply obtenerGradoEntrada_cuenta; [done|lia].
  - pose proof (ok_nodos g Hg) as Hn.
    replace (numNodos g) with (Z.of_nat (Z.to_nat (numNodos g))) at 1 by lia.
    rewrite suma_cuentas. unfold getNumAristas. rewrite <- (ok_cols_len g Hg).
    do 2 f_equal. pose proof (ok_cols g Hg) as Hcols.
    induction Hcols as [|c l Hc _ IH]; [done|].
    rewrite filter_cons_True by lia. by rewrite IH.
Qed.

Lemma X5_witness :
  construido grafo_ejemplo ∧
  ∃ grados,
    Forall2 (λ i d, obtenerGradoEntrada grafo_ejemplo i = Ret d)
      (seqZ 0 (numNodos grafo_ejemplo)) grados ∧
    suma grados = getNumAristas grafo_ejemplo.
Proof.
  split; [construido_ej|].
  apply (X5_suma_de_grados_de_entrada grafo_ejemplo). construido_ej.
Defined.

(** ** The node of greatest degree, once more *)

(** X6. [obtenerNodoMayorGrado] on a built graph: when the graph has no
    node (the file had no pair) it returns the node -1 with
    [gradoMaximo = 0]; when it has one, it returns a valid node and a
    [gradoMaximo] of at least 1.  So -1 is returned exactly for the graph
    without nodes. *)
Theorem X6_nodo_mayor_grado_centinela (g : GrafoDisperso) :
  construido g →
  ∃ nodo gradoMaximo,
    obtenerNodoMayorGrado g = Ret (nodo, gradoMaximo) ∧
    (getNumNodos g = 0 → nodo = -1 ∧ gradoMaximo = 0) ∧
    (getNumNodos g ≠ 0 → 0 ≤ nodo < getNumNodos g ∧ 0 < gradoMaximo).
Proof.
  intros Hg%construido_ok. unfold getNumNodos.
  pose proof (ok_nodos g Hg) as Hn.
  destruct (decide (numNodos g = 0)) as [H0|H0].
  - exists (-1), 0. unfold obtenerNodoMayorGrado. rewrite H0.
    split; [done|]. split; [done|]. lia.
  - destruct (obtenerNodoMayorGrado_spec g Hg ltac:(lia))
      as (nodo & gm & E & Hnodo & Hgr & Hmax & _).
    exists nodo, gm. split; [done|]. split; [lia|]. intros _. split; [done|].
    destruct (decide (0 < gm)) as [|Hgm]; [done|]. exfalso.
    pose proof (grados_nulos_row_ptr g Hg (Z.to_nat (numNodos g))) as H.
    replace (Z.of_nat (Z.to_nat (numNodos g))) with (numNodos g) in H by lia.
    assert (numAristas g ≤ 0) as Hle.
    { apply H; [lia| |apply (ok_row_n g Hg)].
      intros j Hj. specialize (Hmax j Hj). lia. }
    pose proof (ok_aristas g Hg ltac:(lia)). lia.
Qed.

Lemma X6_witness :
  construido grafo_ejemplo ∧
  ∃ nodo gradoMaximo,
    obtenerNodoMayorGrado grafo_ejemplo = Ret (nodo, gradoMaximo) ∧
    (getNumNodos grafo_ejemplo = 0 → nodo = -1 ∧ gradoMaximo = 0) ∧
    (getNumNodos grafo_ejemplo ≠ 0 →
       0 ≤ nodo < getNumNodos grafo_ejemplo ∧ 0 < gradoMaximo).
Proof.
  split; [construido_ej|].
  apply (X6_nodo_mayor_grado_centinela grafo_ejemplo). construido_ej.
Defined.

(** ** The order of the BFS result *)

Lemma distancia_unica g s v d d' :
  distancia g s v d → distancia g s v d' → d = d'.
Proof.
  intros [Hc Hmin] [Hc' Hmin'].
  pose proof (Hmin d' Hc'). pose proof (Hmin' d Hc). lia.
Qed.

(** The distance recorded for a node of the exhausted queue is its
    distance in the graph. *)
Lemma inv_BFS_distancia g s pm st v :
  inv_BFS g s pm st (length st.1) → v ∈ st.1 →
  distancia g s v (Z.to_nat (dist_de st.2 v)).
Proof.
  intros Hinv Hv.
  destruct (inv_camino _ _ _ _ _ Hinv v Hv) as (Hd & Hc & Hcaso).
  split; [done|]. intros k Hk.
  destruct (decide (pm = -1 ∨ Z.of_nat k ≤ pm)) as [Hpm|Hpm].
  - destruct (inv_BFS_completo g s pm st v k Hinv Hk Hpm) as [_ Hdk]. lia.
  - destruct Hcaso as [->|Hexp]; [lia|]. unfold explora in Hexp.
    destruct (decide (dist_de st.2 v - 1 >= pm)) as [Hge|Hlt]; [|lia].
    exfalso. apply Hexp. split; [lia|done].
Qed.

(** X7. The sequence that [BFS] returns, whatever the depth bound, starts
    with the start node and lists the nodes by non-decreasing distance
    from it: a node never comes before a node that is closer to the
    start. *)
Theorem X7_BFS_ordenado_por_distancia (g : GrafoDisperso) (s profundidadMax : Z)
    (visitados : list Z) :
  construido g → 0 ≤ s < getNumNodos g →
  ∃ r, BFS g s profundidadMax visitados = Ret r ∧
    head (secuencia r) = Some s ∧
    ∀ i j vi vj di dj, (i ≤ j)%nat →
      secuencia r !! i = Some vi → secuencia r !! j = Some vj →
      distancia g s vi di → distancia g s vj dj → (di ≤ dj)%nat.
Proof.
  intros Hg%construido_ok Hs.
  destruct (BFS_secuencia g Hg s profundidadMax visitados Hs)
    as (r & st & E & Hsec & Hinv).
  exists r. split; [done|]. rewrite Hsec. split.
  - destruct (inv_inicio _ _ _ _ _ Hinv) as [H0 _].
    destruct st.1; [done|]. simpl in *. done.
  - intros i j vi vj di dj Hij Hi Hj Hdi Hdj.
    pose proof (inv_orden _ _ _ _ _ Hinv i j vi vj Hij Hi Hj) as Hle.
    assert (vi ∈ st.1) as Hvi by (by eapply list_elem_of_lookup_2).
    assert (vj ∈ st.1) as Hvj by (by eapply list_elem_of_lookup_2).
    destruct (inv_camino _ _ _ _ _ Hinv vi Hvi) as (H0i & _).
    destruct (inv_camino _ _ _ _ _ Hinv vj Hvj) as (H0j & _).
    rewrite (distancia_unica g s vi di _ Hdi
               (inv_BFS_distancia g s profundidadMax st vi Hinv Hvi)).
    rewrite (distancia_unica g s vj dj _ Hdj
               (inv_BFS_distancia g s profundidadMax st vj Hinv Hvj)).
    lia.
Qed.

Lemma X7_witness :
  construido grafo_ejemplo ∧ 0 ≤ 0 < getNumNodos grafo_ejemplo ∧
  ∃ r, BFS grafo_ejemplo 0 (-1) [] = Ret r ∧
    head (secuencia r) = Some 0 ∧
    ∀ i j vi vj di dj, (i ≤ j)%nat →
      secuencia r !! i = Some vi → secuencia r !! j = Some vj →
      distancia grafo_ejemplo 0 vi di → distancia grafo_ejemplo 0 vj dj →
      (di ≤ dj)%nat.
Proof.
  split; [construido_ej|]. split; [unfold getNumNodos; simpl; lia|].
  apply (X7_BFS_ordenado_por_distancia grafo_ejemplo 0 (-1) []);
    [construido_ej|unfold getNumNodos; simpl; lia].
Defined.

(** ** BFS as a walk on lists, and the depth bound *)

Lemma visita_prefijo d st w : st.1 `prefix_of` (visita d st w).1.
Proof. unfold visita. case_decide; simpl; [done|]. by apply prefix_app_r. Qed.

Lemma foldl_visita_prefijo d vs : ∀ st, st.1 `prefix_of` (foldl (visita d) st vs).1.
Proof.
  induction vs as [|w vs IH]; intros st; simpl; [done|].
  etrans; [apply (visita_prefijo d st w)|apply IH].
Qed.

Lemma paso_puro_prefijo g pm st p : st.1 `prefix_of` (paso_puro g pm st p).1.
Proof.
  unfold paso_puro. destruct (st.1 !! p); [|done]. simpl.
  case_decide; [done|]. apply foldl_visita_prefijo.
Qed.

(** The walk only appends to the queue. *)
Lemma recorrido_puro_prefijo c g pm : ∀ st p,
  st.1 `prefix_of` (recorrido_puro c g pm st p).1.
Proof.
  induction c as [|c IH]; intros st p; simpl; [done|].
  case_decide; [|done]. etrans; [apply (paso_puro_prefijo g pm st p)|apply IH].
Qed.

(** Once the nodes left in the queue are at the depth bound or beyond, the
    walk changes nothing. *)
Lemma recorrido_puro_quieto c g pm : ∀ st p,
  pm ≠ -1 →
  (∀ i u, (p ≤ i)%nat → st.1 !! i = Some u → dist_de st.2 u >= pm) →
  recorrido_puro c g pm st p = st.
Proof.
  induction c as [|c IH]; intros st p Hpm H; simpl; [done|].
  case_decide as Hp; [|done].
  assert (paso_puro g pm st p = st) as ->.
  { unfold paso_puro. destruct (st.1 !! p) as [u|] eqn:Hu; [|done]. simpl.
    rewrite decide_True; [done|]. split; [done|]. by apply (H p). }
  apply IH; [done|]. intros i u Hi. apply H. lia.
Qed.

Section BFS_recorrido.
Context (g : GrafoDisperso) (Hg : csr_ok g).

(** A walk with a depth bound is the beginning of the walk with a greater
    bound, or with none. *)
Lemma recorrido_puro_cotas s pm pm' c : ∀ st p,
  pm ≠ -1 → pm' = -1 ∨ pm ≤ pm' → inv_BFS g s pm st p →
  (recorrido_puro c g pm st p).1 `prefix_of` (recorrido_puro c g pm' st p).1.
Proof.
  induction c as [|c IH]; intros st p Hpm Hpm' Hinv; simpl; [done|].
  case_decide as Hp; [|done].
  destruct (lookup_lt_is_Some_2 _ _ Hp) as [u Hu].
  destruct (decide (dist_de st.2 u >= pm)) as [Hge|Hlt].
  - assert (paso_puro g pm st p = st) as ->.
    { unfold paso_puro. rewrite Hu. simpl. by rewrite decide_True. }
    rewrite recorrido_puro_quieto; [|done|].
    + etrans; [apply (paso_puro_prefijo g pm' st p)|apply recorrido_puro_prefijo].
    + intros i ui Hi Hui.
      pose proof (inv_orden _ _ _ _ _ Hinv p i u ui ltac:(lia) Hu Hui). lia.
  - assert (paso_puro g pm' st p = paso_puro g pm st p) as ->.
    { unfold paso_puro. rewrite Hu. simpl. by rewrite !decide_False by lia. }
    apply IH; [done|done|]. by apply paso_puro_inv.
Qed.

(** The [while] of [BFS] runs the walk on lists. *)
Lemma bucle_BFS_recorrido s pm (combustible : nat) : ∀ e st,
  rep_BFS g e st → inv_BFS g s pm st (Z.to_nat (frente e)) →
  0 ≤ frente e ≤ final e →
  numNodos g - frente e ≤ Z.of_nat combustible →
  ∃ e', bucle_BFS combustible g pm e = Ret e' ∧
        rep_BFS g e' (recorrido_puro combustible g pm st (Z.to_nat (frente e))).
Proof.
  induction combustible as [|c IH]; intros e st Hrep Hinv Hf Hc.
  all: pose proof Hrep as (_ & _ & _ & _ & Hnd & Hran & _ & Hfin & _).
  all: pose proof (longitud_acotada _ _ (ok_nodos g Hg) Hnd Hran) as Hlen.
  - simpl. rewrite decide_False by lia. by exists e.
  - simpl. case_decide as Hlt.
    + rewrite decide_True by lia.
      destruct (paso_BFS_rep g Hg pm e st Hrep) as (e1 & -> & Hrep1 & Hf1); [lia| |].
      { intros u Hu. pose proof (ok_nodos_int g Hg).
        pose proof (inv_cota _ _ _ _ _ Hinv _ _ Hu).
        destruct (inv_camino _ _ _ _ _ Hinv u) as [? _];
          [by eapply list_elem_of_lookup_2|].
        int_lia. }
      cbn [ligar].
      destruct (paso_puro_inv g Hg s pm st (Z.to_nat (frente e)) Hinv)
        as [Hinv1 Hsub]; [lia|].
      pose proof Hrep1 as (_ & _ & _ & _ & Hnd1 & _ & _ & Hfin1 & _).
      replace (S (Z.to_nat (frente e))) with (Z.to_nat (frente e1)) by lia.
      apply (IH e1 _ Hrep1).
      * by replace (Z.to_nat (frente e1)) with (S (Z.to_nat (frente e))) by lia.
      * assert (length st.1 ≤ length (paso_puro g pm st (Z.to_nat (frente e))).1)%nat.
        { apply submseteq_length, NoDup_submseteq; done. }
        lia.
      * lia.
    + rewrite decide_False by lia. by exists e.
Qed.

(** [BFS] returns the queue of the walk on lists that starts from the
    arrays that [inicio_BFS] leaves. *)
Lemma BFS_recorrido s pm visitados :
  0 ≤ s < numNodos g →
  ∃ e0 st, inicio_BFS g s = Ret e0 ∧ inv_BFS g s pm ([s], distancias e0) 0 ∧
    st = recorrido_puro (Z.to_nat (numNodos g)) g pm ([s], distancias e0) 0 ∧
    BFS g s pm visitados = Ret (st.1, Z.of_nat (length st.1)).
Proof.
  intros Hs. unfold BFS. rewrite decide_False by lia.
  destruct (inicio_BFS_spec g s pm Hs)
    as (e0 & [Q0 dis0] & E0 & Hrep0 & Hinv0 & Hf0 & HQ0 & _).
  simpl in HQ0. subst Q0.
  pose proof Hrep0 as (_ & _ & _ & _ & _ & _ & Hdis0 & Hfin0 & _).
  simpl in Hdis0, Hfin0. subst dis0.
  exists e0, (recorrido_puro (Z.to_nat (numNodos g)) g pm ([s], distancias e0) 0).
  split; [done|]. split; [done|]. split; [done|].
  rewrite E0. cbn [ligar].
  destruct (bucle_BFS_recorrido s pm (Z.to_nat (numNodos g)) e0 _ Hrep0)
    as (e & -> & Hrep); [by rewrite Hf0|lia|lia|].
  rewrite Hf0 in Hrep. change (Z.to_nat 0) with 0%nat in Hrep.
  cbn [ligar].
  destruct Hrep as (_ & _ & Hre & _ & Hnd & Hran & _ & Hfin & Hcon & _ & Hres & _).
  pose proof (longitud_acotada _ _ (ok_nodos g Hg) Hnd Hran).
  rewrite copiar_resultado_spec by lia. cbn [ligar].
  by rewrite Hcon, Hfin, Nat2Z.id, Hres.
Qed.

Lemma BFS_prefijo s pm pm' visitados visitados' :
  0 ≤ s < numNodos g → pm ≠ -1 → pm' = -1 ∨ pm ≤ pm' →
  ∃ Q Q', BFS g s pm visitados = Ret (Q, Z.of_nat (length Q)) ∧
          BFS g s pm' visitados' = Ret (Q', Z.of_nat (length Q')) ∧
          Q `prefix_of` Q'.
Proof.
  intros Hs Hpm Hpm'.
  destruct (BFS_recorrido s pm visitados Hs) as (e0 & st & E0 & Hinv0 & Hst & E).
  destruct (BFS_recorrido s pm' visitados' Hs) as (e0' & st' & E0' & _ & Hst' & E').
  assert (e0' = e0) as -> by congruence.
  exists st.1, st'.1. split; [done|]. split; [done|]. subst st st'.
  by apply (recorrido_puro_cotas s).
Qed.

(** With a bound of [numNodos - 1] or more, nothing is cut. *)
Lemma BFS_saturado s pm visitados :
  0 ≤ s < numNodos g → numNodos g - 1 ≤ pm →
  BFS g s pm visitados = BFS g s (-1) visitados.
Proof.
  intros Hs Hpm.
  destruct (BFS_prefijo s pm (-1) visitados visitados Hs)
    as (Q & Q' & E & E' & [k Hk]); [lia|by left|].
  destruct (BFS_spec g Hg s pm visitados Hs) as (st & Est & Hinv).
  destruct (BFS_spec g Hg s (-1) visitados Hs) as (st' & Est' & Hinv').
  assert (st.1 = Q) as HQ by congruence.
  assert (st'.1 = Q') as HQ' by congruence.
  rewrite E, E'. destruct k as [|w k]; [by rewrite Hk, app_nil_r|].
  exfalso.
  assert (st'.1 !! length Q = Some w) as Hw.
  { rewrite HQ', Hk. by rewrite list_lookup_middle. }
  assert (w ∈ st'.1) as Hw' by (by eapply list_elem_of_lookup_2).
  pose proof (inv_cota _ _ _ _ _ Hinv' _ _ Hw) as Hcota.
  destruct (inv_camino _ _ _ _ _ Hinv' w Hw') as (Hd & Hc & _).
  pose proof (longitud_acotada _ _ (ok_nodos g Hg)
                (inv_nodup _ _ _ _ _ Hinv') (inv_rango _ _ _ _ _ Hinv')) as Hlen.
  rewrite HQ', Hk, length_app in Hlen. simpl in Hlen.
  destruct (inv_BFS_completo g s pm st w _ Hinv Hc) as [HwQ _]; [right; lia|].
  pose proof (inv_nodup _ _ _ _ _ Hinv') as Hnd. rewrite HQ', Hk in Hnd.
  apply NoDup_app in Hnd as (_ & Hdisj & _).
  apply (Hdisj w); [by rewrite <- HQ|by left].
Qed.
End BFS_recorrido.

(** X8. On a built graph and from a valid start node, a depth bound of
    [numNodos - 1] or more cuts nothing: [BFS] returns the very sequence,
    and the very count, that it returns without a bound. *)
Theorem X8_BFS_profundidad_saturada (g : GrafoDisperso) (s profundidadMax : Z)
    (visitados : list Z) :
  construido g → 0 ≤ s < getNumNodos g → getNumNodos g - 1 ≤ profundidadMax →
  BFS g s profundidadMax visitados = BFS g s (-1) visitados.
Proof. intros Hg%construido_ok Hs Hpm. by apply BFS_saturado. Qed.

Lemma X8_witness :
  construido grafo_ejemplo ∧ 0 ≤ 0 < getNumNodos grafo_ejemplo ∧
  getNumNodos grafo_ejemplo - 1 ≤ 2 ∧
  BFS grafo_ejemplo 0 2 [] = BFS grafo_ejemplo 0 (-1) [].
Proof.
  split; [construido_ej|]. split; [unfold getNumNodos; simpl; lia|].
  split; [unfold getNumNodos; simpl; lia|].
  apply (X8_BFS_profundidad_saturada grafo_ejemplo 0 2 []);
    [construido_ej|unfold getNumNodos; simpl; lia..].
Defined.

(** X9. Raising the depth bound only adds nodes at the end: on a built
    graph and from a valid start node, the sequence that [BFS] returns
    with a bound other than -1 is the beginning of the sequence that it
    returns with any greater bound, and of the one that it returns without
    a bound. *)
Theorem X9_BFS_prefijo_al_subir_la_cota (g : GrafoDisperso) (s pm pm' : Z)
    (visitados visitados' : list Z) :
  construido g → 0 ≤ s < getNumNodos g → pm ≠ -1 → pm' = -1 ∨ pm ≤ pm' →
  ∃ r r', BFS g s pm visitados = Ret r ∧ BFS g s pm' visitados' = Ret r' ∧
          secuencia r `prefix_of` secuencia r' ∧ r.2 ≤ r'.2.
Proof.
  intros Hg%construido_ok Hs Hpm Hpm'.
  destruct (BFS_prefijo g Hg s pm pm' visitados visitados' Hs Hpm Hpm')
    as (Q & Q' & E & E' & Hpre).
  eexists _, _. split; [exact E|]. split; [exact E'|].
  unfold secuencia. simpl. rewrite !Nat2Z.id, !take_ge by done.
  split; [done|]. apply prefix_length in Hpre. lia.
Qed.

Lemma X9_witness :
  construido grafo_ejemplo ∧ 0 ≤ 0 < getNumNodos grafo_ejemplo ∧ 0 ≠ -1 ∧
  (1 = -1 ∨ 0 ≤ 1) ∧
  ∃ r r', BFS grafo_ejemplo 0 0 [] = Ret r ∧ BFS grafo_ejemplo 0 1 [] = Ret r' ∧
          secuencia r `prefix_of` secuencia r' ∧ r.2 ≤ r'.2.
Proof.
  split; [construido_ej|]. split; [unfold getNumNodos; simpl; lia|].
  split; [lia|]. split; [lia|].
  apply (X9_BFS_prefijo_al_subir_la_cota grafo_ejemplo 0 0 1 [] []);
    [construido_ej|unfold getNumNodos; simpl; lia|lia|lia].
Defined.

(** ** The DFS result *)

Lemma alcanzable_rango g (Hg : csr_ok g) s v :
  0 ≤ s < numNodos g → alcanzable g s v → 0 ≤ v < numNodos g.
Proof.
  intros Hs [k Hk]. destruct Hk as [|k u v _ Huv]; [done|].
  by destruct (arista_rango g Hg u v Huv).
Qed.

(** X10. On a built graph and from a valid start node, [DFS] returns the
    nodes reachable from the start, each of them once and the start first;
    [cantidadVisitados] is their number, between 1 and [numNodos], the
    array handed back has exactly that many cells, and [BFS] without a
    bound reports the same number. *)
Theorem X10_DFS_alcanzables (g : GrafoDisperso) (s : Z) (visitados : list Z) :
  construido g → 0 ≤ s < getNumNodos g →
  ∃ r, DFS g s visitados = Ret r ∧
    NoDup (secuencia r) ∧ head (secuencia r) = Some s ∧
    (∀ v, v ∈ secuencia r ↔ alcanzable g s v) ∧
    1 ≤ r.2 ≤ getNumNodos g ∧ Z.of_nat (length r.1) = r.2 ∧
    ∃ rb, BFS g s (-1) visitados = Ret rb ∧ rb.2 = r.2.
Proof.
  intros Hg%construido_ok Hs. unfold getNumNodos in *.
  destruct (DFS_spec g Hg s visitados Hs) as (R & E & Hnd & Hhead & Halc).
  destruct (BFS_spec g Hg s (-1) visitados Hs) as (st & Eb & Hinv).
  exists (R, Z.of_nat (length R)). split; [done|].
  unfold secuencia. simpl. rewrite Nat2Z.id, take_ge by done.
  split_and!; try done.
  - destruct R; [done|]. simpl. lia.
  - apply longitud_acotada; [apply (ok_nodos g Hg)|done|].
    apply Forall_forall. intros v Hv%Halc. by apply (alcanzable_rango g Hg s).
  - eexists. split; [exact Eb|]. simpl. f_equal.
    apply Permutation_length, NoDup_Permutation;
      [apply (inv_nodup _ _ _ _ _ Hinv)|done|].
    intros v. rewrite Halc. split.
    + intros Hv. destruct (inv_camino _ _ _ _ _ Hinv v Hv) as (_ & Hc & _).
      by eexists.
    + intros [k Hk].
      by destruct (inv_BFS_completo g s (-1) st v k Hinv Hk); [left|].
Qed.

Lemma X10_witness :
  construido grafo_ejemplo ∧ 0 ≤ 1 < getNumNodos grafo_ejemplo ∧
  ∃ r, DFS grafo_ejemplo 1 [] = Ret r ∧
    NoDup (secuencia r) ∧ head (secuencia r) = Some 1 ∧
    (∀ v, v ∈ secuencia r ↔ alcanzable grafo_ejemplo 1 v) ∧
    1 ≤ r.2 ≤ getNumNodos grafo_ejemplo ∧ Z.of_nat (length r.1) = r.2 ∧
    ∃ rb, BFS grafo_ejemplo 1 (-1) [] = Ret rb ∧ rb.2 = r.2.
Proof.
  split; [construido_ej|]. split; [unfold getNumNodos; simpl; lia|].
  apply (X10_DFS_alcanzables grafo_ejemplo 1 []);
    [construido_ej|unfold getNumNodos; simpl; lia].
Defined.

(** ** The test functions of [main.cpp] *)

Lemma listar_spec arreglo cantidad maximo :
  0 ≤ cantidad ≤ Z.of_nat (length arreglo) → cantidad ≤ INT_MAX →
  0 ≤ maximo ≤ INT_MAX →
  listar arreglo cantidad maximo =
  Ret (take (Z.to_nat (Z.min cantidad maximo)) arreglo,
       if decide (cantidad > maximo) then Some (cantidad - maximo) else None).
Proof.
  intros Hc Hint Hm. unfold listar.
  set (limite := if decide (cantidad > maximo) then maximo else cantidad).
  assert (limite = Z.min cantidad maximo) as Hlim
    by (unfold limite; case_decide; lia).
  destruct (para_regla
    (λ i impresos, impresos = take (Z.to_nat i) arreglo)
    (fun i impresos =>
       x <- leer arreglo i ;; _ <- entero (limite - 1) ;; Ret (impresos ++ [x]))
    0 limite []) as (l & -> & ->); [lia| | |].
  - intros i l Hi ->. destruct (ver_rango_Some arreglo i) as [x Hx]; [lia|].
    rewrite (leer_Ret _ _ _ Hx). cbn [ligar].
    rewrite entero_Ret by int_lia. cbn [ligar].
    eexists. split; [done|].
    replace (Z.to_nat (i + 1)) with (S (Z.to_nat i)) by lia.
    unfold ver in Hx. rewrite decide_True in Hx by lia.
    by rewrite (take_S_r _ _ x).
  - done.
  - cbn [ligar]. rewrite Hlim.
    case_decide; [rewrite entero_Ret by int_lia|]; done.
Qed.

(** What the two test functions print for the outcome [r] of a traversal. *)
Lemma listado_de_recorrido g (Hg : csr_ok g) (r : list Z * Z) :
  0 ≤ r.2 ≤ numNodos g → r.2 ≤ Z.of_nat (length r.1) →
  (_ <- entero (getNumNodos g - 1) ;;
   let '(visitados, cantidadVisitados) := r in
   l <- listar visitados cantidadVisitados 20 ;;
   Ret (mkListado cantidadVisitados l.1 l.2)) =
  Ret (mkListado r.2 (take 20 (secuencia r))
         (if decide (r.2 > 20) then Some (r.2 - 20) else None)).
Proof.
  intros Hr Hlen. destruct r as [visitados cantidad]. simpl in *.
  pose proof (ok_nodos g Hg). pose proof (ok_nodos_int g Hg).
  unfold getNumNodos. rewrite entero_Ret by int_lia. cbn [ligar].
  rewrite listar_spec by int_lia. cbn [ligar]. simpl.
  do 2 f_equal. unfold secuencia. simpl. rewrite take_take. f_equal. lia.
Qed.

Lemma BFS_resultado g (Hg : csr_ok g) s pm visitados :
  ∃ r, BFS g s pm visitados = Ret r ∧ 0 ≤ r.2 ≤ numNodos g ∧
       (0 ≤ s < numNodos g → r.2 = Z.of_nat (length r.1)) ∧
       (¬ 0 ≤ s < numNodos g → r = (visitados, 0)).
Proof.
  pose proof (ok_nodos g Hg).
  destruct (decide (0 ≤ s < numNodos g)) as [Hs|Hs].
  - destruct (BFS_spec g Hg s pm visitados Hs) as (st & E & Hinv).
    eexists. split; [exact E|]. simpl. split; [|done].
    pose proof (longitud_acotada _ _ (ok_nodos g Hg)
                  (inv_nodup _ _ _ _ _ Hinv) (inv_rango _ _ _ _ _ Hinv)). lia.
  - exists (visitados, 0). unfold BFS. rewrite decide_True by lia.
    split; [done|]. simpl. split; [lia|done].
Qed.

Lemma DFS_resultado g (Hg : csr_ok g) s visitados :
  ∃ r, DFS g s visitados = Ret r ∧ 0 ≤ r.2 ≤ numNodos g ∧
       (0 ≤ s < numNodos g → r.2 = Z.of_nat (length r.1)) ∧
       (¬ 0 ≤ s < numNodos g → r = (visitados, 0)).
Proof.
  pose proof (ok_nodos g Hg).
  destruct (decide (0 ≤ s < numNodos g)) as [Hs|Hs].
  - destruct (DFS_spec g Hg s visitados Hs) as (R & E & Hnd & _ & Halc).
    eexists. split; [exact E|]. simpl. split; [|done]. split; [lia|].
    apply longitud_acotada; [done|done|].
    apply Forall_forall. intros v Hv%Halc. by apply (alcanzable_rango g Hg s).
  - exists (visitados, 0). unfold DFS. rewrite decide_True by lia.
    split; [done|]. simpl. split; [lia|done].
Qed.

(** X11. [probarBFS] on a built graph, whatever the start node and the
    depth bound that were typed: it runs [BFS] with a null [visitados] and
    never reads a cell outside the array that comes back.  It prints the
    count that [BFS] reports as the total, the first 20 nodes of the
    sequence in its order, and, when there are more than 20, how many are
    left out; for an invalid start node the total is 0 and no node is
    printed. *)
Theorem X11_probarBFS (g : GrafoDisperso) (nodoInicio profundidadMax : Z) :
  construido g →
  ∃ l r, probarBFS g nodoInicio profundidadMax = Ret l ∧
    BFS g nodoInicio profundidadMax [] = Ret r ∧
    total l = r.2 ∧ impresos l = take 20 (secuencia r) ∧
    restantes l = (if decide (r.2 > 20) then Some (r.2 - 20) else None) ∧
    (¬ 0 ≤ nodoInicio < getNumNodos g → l = mkListado 0 [] None).
Proof.
  intros Hg%construido_ok.
  destruct (BFS_resultado g Hg nodoInicio profundidadMax [])
    as (r & E & Hr & Hval & Hinv).
  pose proof (ok_nodos g Hg). pose proof (ok_nodos_int g Hg).
  eexists _, r. split.
  - unfold probarBFS. unfold getNumNodos at 1.
    rewrite entero_Ret by int_lia. cbn [ligar]. rewrite E. cbn [ligar].
    pose proof (listado_de_recorrido g Hg r Hr) as Hl.
    unfold getNumNodos at 1 in Hl. rewrite entero_Ret in Hl by int_lia.
    cbn [ligar] in Hl. apply Hl.
    destruct (decide (0 ≤ nodoInicio < numNodos g)) as [Hs|Hs].
    + rewrite (Hval Hs). lia.
    + rewrite (Hinv Hs). simpl. lia.
  - split; [done|]. simpl. split_and!; try done.
    intros Hs. rewrite (Hinv Hs). done.
Qed.

Lemma X11_witness :
  construido grafo_ejemplo ∧
  ∃ l r, probarBFS grafo_ejemplo 0 (-1) = Ret l ∧
    BFS grafo_ejemplo 0 (-1) [] = Ret r ∧
    total l = r.2 ∧ impresos l = take 20 (secuencia r) ∧
    restantes l = (if decide (r.2 > 20) then Some (r.2 - 20) else None) ∧
    (¬ 0 ≤ 0 < getNumNodos grafo_ejemplo → l = mkListado 0 [] None).
Proof.
  split; [construido_ej|].
  apply (X11_probarBFS grafo_ejemplo 0 (-1)). construido_ej.
Defined.

(** X12. [probarDFS] on a built graph, whatever the start node that was
    typed: it runs [DFS] with a null [visitados] and never reads a cell
    outside the array that comes back.  It prints the count that [DFS]
    reports as the total, the first 20 nodes of the sequence in its order,
    and, when there are more than 20, how many are left out; for an
    invalid start node the total is 0 and no node is printed. *)
Theorem X12_probarDFS (g : GrafoDisperso) (nodoInicio : Z) :
  construido g →
  ∃ l r, probarDFS g nodoInicio = Ret l ∧
    DFS g nodoInicio [] = Ret r ∧
    total l = r.2 ∧ impresos l = take 20 (secuencia r) ∧
    restantes l = (if decide (r.2 > 20) then Some (r.2 - 20) else None) ∧
    (¬ 0 ≤ nodoInicio < getNumNodos g → l = mkListado 0 [] None).
Proof.
  intros Hg%construido_ok.
  destruct (DFS_resultado g Hg nodoInicio []) as (r & E & Hr & Hval & Hinv).
  pose proof (ok_nodos g Hg). pose proof (ok_nodos_int g Hg).
  eexists _, r. split.
  - unfold probarDFS. unfold getNumNodos at 1.
    rewrite entero_Ret by int_lia. cbn [ligar]. rewrite E. cbn [ligar].
    pose proof (listado_de_recorrido g Hg r Hr) as Hl.
    unfold getNumNodos at 1 in Hl. rewrite entero_Ret in Hl by int_lia.
    cbn [ligar] in Hl. apply Hl.
    destruct (decide (0 ≤ nodoInicio < numNodos g)) as [Hs|Hs].
    + rewrite (Hval Hs). lia.
    + rewrite (Hinv Hs). simpl. lia.
  - split; [done|]. simpl. split_and!; try done.
    intros Hs. rewrite (Hinv Hs). done.
Qed.

Lemma X12_witness :
  construido grafo_ejemplo ∧
  ∃ l r, probarDFS grafo_ejemplo 0 = Ret l ∧
    DFS grafo_ejemplo 0 [] = Ret r ∧
    total l = r.2 ∧ impresos l = take 20 (secuencia r) ∧
    restantes l = (if decide (r.2 > 20) then Some (r.2 - 20) else None) ∧
    (¬ 0 ≤ 0 < getNumNodos grafo_ejemplo → l = mkListado 0 [] None).
Proof.
  split; [construido_ej|].
  apply (X12_probarDFS grafo_ejemplo 0). construido_ej.
Defined.

(** X13. [analizarNodo] on a built graph, whatever the node that was
    typed.  For a node outside [0, numNodos) it reports the error and asks
    the graph nothing.  For a valid node it prints the out-degree, the
    in-degree, their sum as the total degree (the sum stays within [int]),
    the number of neighbours, which is the out-degree, the first 15
    neighbours in the order of [getVecinos] and, when there are more than
    15, how many are left out; the array of neighbours is read only when
    [getVecinos] has allocated it. *)
Theorem X13_analizarNodo (g : GrafoDisperso) (nodo : Z) :
  construido g →
  (¬ 0 ≤ nodo < getNumNodos g → analizarNodo g nodo = Ret None) ∧
  (0 ≤ nodo < getNumNodos g →
     ∃ a r, analizarNodo g nodo = Ret (Some a) ∧
       obtenerGradoSalida g nodo = Ret (gradoSalida a) ∧
       obtenerGradoEntrada g nodo = Ret (gradoEntrada a) ∧
       gradoTotal a = gradoSalida a + gradoEntrada a ∧
       getVecinos g nodo [] = Ret r ∧
       cantidadVecinos a = r.2 ∧ cantidadVecinos a = gradoSalida a ∧
       vecinos_impresos a = take 15 (secuencia r) ∧
       vecinos_restantes a =
         (if decide (r.2 > 15) then Some (r.2 - 15) else None)).
Proof.
  intros (ps & g0 & Hps & E).
  destruct (construido_de ps g0 g Hps E) as (Hg & _ & _ & Hmem).
  pose proof (ok_nodos g Hg). pose proof (ok_nodos_int g Hg).
  unfold getNumNodos, analizarNodo. unfold getNumNodos.
  rewrite entero_Ret by int_lia. cbn [ligar]. split.
  - intros Hn. by rewrite decide_True by lia.
  - intros Hn. rewrite decide_False by lia.
    rewrite (obtenerGradoSalida_grado g Hg nodo Hn),
            (obtenerGradoEntrada_cuenta g Hg nodo Hn). cbn [ligar].
    destruct (getVecinos_vecinos_de g Hg nodo [] Hn) as (r & Er & Hsec & Hr).
    rewrite Er.
    destruct (tramo g Hg nodo Hn) as (a & b & Ha & Hb & Hab & HbN).
    pose proof (vecinos_de_length g Hg nodo a b Ha Hb) as Hlen.
    pose proof (grado_vecinos g Hg nodo Hn) as Hgr.
    pose proof (length_filter (λ c, c = nodo) (column_indices g)) as Hcnt.
    pose proof (ok_cols_len g Hg) as Hcl.
    rewrite entero_Ret by int_lia. cbn [ligar].
    assert (r.2 ≤ Z.of_nat (length r.1)) as Hcab.
    { pose proof (f_equal length Hsec) as Hl. unfold secuencia in Hl.
      rewrite length_take in Hl. lia. }
    destruct r as [vecinos cantidad]. simpl in Hr, Hcab.
    case_decide as Hpos.
    + rewrite listar_spec by int_lia. cbn [ligar].
      eexists _, _. split; [done|]. simpl.
      split_and!; try done; try lia.
      unfold secuencia. simpl. rewrite take_take. f_equal. lia.
    + eexists _, _. split; [done|]. simpl.
      split_and!; try done; try lia.
      * rewrite Hsec. assert (length (vecinos_de g nodo) = 0%nat) as Hnil by lia.
        apply nil_length_inv in Hnil. by rewrite Hnil.
      * cbn [snd]. by rewrite decide_False by lia.
Qed.

Lemma X13_witness :
  construido grafo_ejemplo ∧
  (¬ 0 ≤ 0 < getNumNodos grafo_ejemplo → analizarNodo grafo_ejemplo 0 = Ret None) ∧
  (0 ≤ 0 < getNumNodos grafo_ejemplo →
     ∃ a r, analizarNodo grafo_ejemplo 0 = Ret (Some a) ∧
       obtenerGradoSalida grafo_ejemplo 0 = Ret (gradoSalida a) ∧
       obtenerGradoEntrada grafo_ejemplo 0 = Ret (gradoEntrada a) ∧
       gradoTotal a = gradoSalida a + gradoEntrada a ∧
       getVecinos grafo_ejemplo 0 [] = Ret r ∧
       cantidadVecinos a = r.2 ∧ cantidadVecinos a = gradoSalida a ∧
       vecinos_impresos a = take 15 (secuencia r) ∧
       vecinos_restantes a =
         (if decide (r.2 > 15) then Some (r.2 - 15) else None)).
Proof.
  split; [construido_ej|].
  apply (X13_analizarNodo grafo_ejemplo 0). construido_ej.
Defined.

(** ** Destinations are not validated *)

Lemma ligar_Ret {A B : Type} (m : res A) (k : A → res B) (b : B) :
  ligar m k = Ret b → ∃ a, m = Ret a ∧ k a = Ret b.
Proof. destruct m as [a| |]; simpl; [by exists a|done|done]. Qed.

(** In a loop that returns, every turn has returned. *)
Lemma para_aux_Ret_cuerpo {St : Type} (cuerpo : Z → St → res St) (n : nat) :
  ∀ i st st', para_aux cuerpo i n st = Ret st' →
  ∀ j, i ≤ j < i + Z.of_nat n → ∃ s s', cuerpo j s = Ret s'.
Proof.
  induction n as [|n IH]; intros i st st' E j Hj; simpl in *; [lia|].
  apply ligar_Ret in E as (s1 & E1 & E2).
  destruct (decide (j = i)) as [->|Hne]; [by exists st, s1|].
  apply (IH _ _ _ E2). lia.
Qed.

Lemma para_Ret_cuerpo {St : Type} (cuerpo : Z → St → res St) a b st st' :
  para a b cuerpo st = Ret st' →
  ∀ j, a ≤ j < b → ∃ s s', cuerpo j s = Ret s'.
Proof.
  unfold para. intros E j Hj. apply (para_aux_Ret_cuerpo _ _ _ _ _ E). lia.
Qed.

(** The slot of a pair of the file. *)
Lemma celda_de_arista ps g u v :
  csr_de ps g → origenes_validos ps → (u, v) ∈ ps →
  0 ≤ u < numNodos g ∧
  ∃ a b i, ver (row_ptr g) u = Some a ∧ ver (row_ptr g) (u + 1) = Some b ∧
           a ≤ i < b ∧ ver (column_indices g) i = Some v.
Proof.
  intros Hcsr Hor Hin.
  pose proof Hcsr as (Hn & Hmax & _ & _ & _ & _ & _ & Hrow).
  assert (0 ≤ u < numNodos g) as Hu.
  { unfold origenes_validos in Hor. rewrite Forall_forall in Hor, Hmax.
    specialize (Hor _ Hin). specialize (Hmax _ Hin). simpl in *. lia. }
  split; [done|].
  pose proof (Hrow u ltac:(lia)) as Ha. pose proof (Hrow (u + 1) ltac:(lia)) as Hb.
  assert (v ∈ vecinos_de g u) as Hv.
  { rewrite (vecinos_de_destinos ps g u Hcsr Hor Hu). by apply elem_of_destinos. }
  apply list_elem_of_lookup_1 in Hv as [k Hk].
  unfold vecinos_de in Hk. rewrite Ha, Hb in Hk.
  apply lookup_take_Some in Hk as [Hk Hlt]. rewrite lookup_drop in Hk.
  assert (0 ≤ desplazamiento ps u) by (unfold desplazamiento; lia).
  eexists _, _, (desplazamiento ps u + Z.of_nat k).
  split; [done|]. split; [done|]. split; [lia|].
  unfold ver. rewrite decide_True by lia.
  rewrite <- Hk. f_equal. lia.
Qed.

Lemma BFS_destino_negativo ps g u v pm visitados :
  csr_de ps g → origenes_validos ps → numNodos g ≤ INT_MAX →
  (u, v) ∈ ps → v < 0 → pm = -1 ∨ 1 ≤ pm →
  BFS g u pm visitados = Indefinido.
Proof.
  intros Hcsr Hor Hint Hin Hv Hpm.
  destruct (celda_de_arista ps g u v Hcsr Hor Hin)
    as (Hu & a & b & i & Ha & Hb & Hi & Hci).
  destruct (BFS g u pm visitados) as [r| |] eqn:E;
    [exfalso|done|by apply BFS_no_agota in E].
  unfold BFS in E. rewrite decide_False in E by lia.
  destruct (inicio_BFS_spec g u pm Hu)
    as (e0 & [Q dis] & E0 & Hrep0 & _ & Hf0 & HQ & Hd0).
  simpl in HQ, Hd0. subst Q.
  destruct Hrep0 as (_ & _ & _ & Hdl & _ & _ & Hdis & Hfin & _ & Hcola & _).
  simpl in Hdl, Hdis, Hfin, Hcola.
  rewrite E0 in E. cbn [ligar] in E.
  apply ligar_Ret in E as (e & Eb & _).
  destruct (Z.to_nat (numNodos g)) as [|c] eqn:Hn; [lia|]. simpl in Eb.
  rewrite decide_True in Eb by lia.
  apply ligar_Ret in Eb as (e1 & Ep & _).
  assert (ver (cola e0) (frente e0) = Some u) as Hcu.
  { rewrite Hf0. unfold ver. simpl. destruct (cola e0); simpl in *; congruence. }
  assert (ver (distancias e0) u = Some 0) as Hdu.
  { rewrite Hdis. unfold dist_de in Hd0.
    destruct (ver_rango_Some dis u) as [x Hx]; [lia|].
    rewrite Hx in Hd0. simpl in Hd0. by subst x. }
  unfold paso_BFS in Ep. cbn [distancias] in Ep.
  rewrite (leer_Ret _ _ _ Hcu) in Ep. cbn [ligar] in Ep.
  rewrite entero_Ret in Ep by int_lia. cbn [ligar] in Ep.
  rewrite (leer_Ret _ _ _ Hdu) in Ep. cbn [ligar] in Ep.
  rewrite decide_False in Ep by lia.
  rewrite (leer_Ret _ _ _ Ha) in Ep. cbn [ligar] in Ep.
  rewrite entero_Ret in Ep by int_lia. cbn [ligar] in Ep.
  rewrite (leer_Ret _ _ _ Hb) in Ep. cbn [ligar] in Ep.
  destruct (para_Ret_cuerpo _ _ _ _ _ Ep i Hi) as (s & s' & Es).
  unfold visitar_vecino in Es. rewrite (leer_Ret _ _ _ Hci) in Es.
  cbn [ligar] in Es. unfold leer in Es. by rewrite decide_False in Es by lia.
Qed.

Lemma DFSRecursivo_S c g nodoActual e :
  DFSRecursivo (S c) g nodoActual e =
  (vi <- escribir (dfs_visitados e) nodoActual true ;;
   re <- escribir (dfs_resultado e) (dfs_contador e) nodoActual ;;
   contador' <- entero (dfs_contador e + 1) ;;
   inicioVecinos <- leer (row_ptr g) nodoActual ;;
   nodo1 <- entero (nodoActual + 1) ;;
   finVecinos <- leer (row_ptr g) nodo1 ;;
   para inicioVecinos finVecinos
     (fun i e =>
        vecino <- leer (column_indices g) i ;;
        m <- leer (dfs_visitados e) vecino ;;
        if m then Ret e else DFSRecursivo c g vecino e)
     (mkDFS vi re contador')).
Proof. reflexivity. Qed.

Lemma DFS_destino_negativo ps g u v visitados :
  csr_de ps g → origenes_validos ps → numNodos g ≤ INT_MAX →
  (u, v) ∈ ps → v < 0 →
  DFS g u visitados = Indefinido.
Proof.
  intros Hcsr Hor Hint Hin Hv.
  destruct (celda_de_arista ps g u v Hcsr Hor Hin)
    as (Hu & a & b & i & Ha & Hb & Hi & Hci).
  destruct (DFS g u visitados) as [r| |] eqn:E;
    [exfalso|done|by apply DFS_no_agota in E].
  unfold DFS in E. rewrite decide_False in E by lia.
  apply ligar_Ret in E as (ma & _ & E).
  apply ligar_Ret in E as (e & Er & _).
  destruct (Z.to_nat (numNodos g)) as [|c] eqn:Hn; [lia|].
  rewrite DFSRecursivo_S in Er.
  rewrite (entero_Ret (u + 1)), (leer_Ret _ _ _ Ha) in Er by int_lia.
  cbn [ligar] in Er. rewrite (leer_Ret _ _ _ Hb) in Er. cbn [ligar] in Er.
  apply ligar_Ret in Er as (vi & _ & Er).
  apply ligar_Ret in Er as (re & _ & Er).
  apply ligar_Ret in Er as (contador' & _ & Er).
  destruct (para_Ret_cuerpo _ _ _ _ _ Er i Hi) as (s & s' & Es).
  cbn beta in Es. rewrite (leer_Ret _ _ _ Hci) in Es.
  cbn [ligar] in Es. unfold leer in Es. by rewrite decide_False in Es by lia.
Qed.

(** X14. The loader does not validate the destinations, and the
    traversals trust them.  Whenever a file that is loaded, with [true]
    returned, holds a pair [(u, v)] with [v] negative, [BFS] from [u]
    without a depth bound or with a bound of 1 or more, and [DFS] from
    [u], index the array of marks with [v]: undefined behaviour. *)
Theorem X14_destino_negativo_sin_validar (ps : list (Z * Z))
    (g0 g : GrafoDisperso) (u v profundidadMax : Z) (visitados : list Z) :
  cargarDatos (Some ps) g0 = Ret (true, g) → (u, v) ∈ ps → v < 0 →
  profundidadMax = -1 ∨ 1 ≤ profundidadMax →
  BFS g u profundidadMax visitados = Indefinido ∧
  DFS g u visitados = Indefinido.
Proof.
  intros E Hin Hv Hpm.
  apply cargarDatos_Ret in E as (_ & Hor & Hint & Hcsr & Hnm).
  destruct (cabe_en_int_cotas ps g Hint Hcsr Hnm) as [Hni _].
  split.
  - by apply (BFS_destino_negativo ps g u v).
  - by apply (DFS_destino_negativo ps g u v).
Qed.

Lemma X14_witness :
  cargarDatos (Some [(0, -1)]) grafo_vacio =
    Ret (true,
         {| numNodos := 1; numAristas := 1; esDirigido := true;
            values := [1]; column_indices := [-1]; row_ptr := [0; 1];
            capacidadAristas := 0; capacidadNodos := 0 |}) ∧
  (0, -1) ∈ [(0, -1)] ∧ -1 < 0 ∧ (-1 = -1 ∨ 1 ≤ -1) ∧
  BFS {| numNodos := 1; numAristas := 1; esDirigido := true;
         values := [1]; column_indices := [-1]; row_ptr := [0; 1];
         capacidadAristas := 0; capacidadNodos := 0 |} 0 (-1) [] = Indefinido ∧
  DFS {| numNodos := 1; numAristas := 1; esDirigido := true;
         values := [1]; column_indices := [-1]; row_ptr := [0; 1];
         capacidadAristas := 0; capacidadNodos := 0 |} 0 [] = Indefinido.
Proof.
  split; [vm_compute; reflexivity|]. split; [by left|]. split; [lia|].
  split; [by left|].
  apply (X14_destino_negativo_sin_validar [(0, -1)] grafo_vacio _ 0 (-1) (-1) []);
    [vm_compute; reflexivity|by left|lia|by left].
Defined.

(** ** The loops are bounded *)

(** X15. On every object, built or not, and for all arguments, the
    [while] of [BFS] takes at most [numNodos] turns and the calls of
    [DFSRecursivo] nest at most [numNodos] deep: the embedding, which
    gives [numNodos] units of fuel to each, never runs out of it.  A
    traversal thus either returns or has left defined behaviour. *)
Theorem X15_recorridos_acotados (g : GrafoDisperso) (s profundidadMax : Z)
    (visitados : list Z) :
  BFS g s profundidadMax visitados ≠ SinCombustible ∧
  DFS g s visitados ≠ SinCombustible.
Proof. split; [apply BFS_no_agota|apply DFS_no_agota]. Qed.

(** ** More pairs, more nodes found *)

Lemma camino_monotono g g' s k v :
  (∀ u w, arista g u w → arista g' u w) → camino g s k v → camino g' s k v.
Proof.
  intros Hsub Hk. induction Hk as [|k u v _ IH Huv]; [constructor|].
  apply camino_S with u; [done|by apply Hsub].
Qed.

Lemma BFS_monotono g g' (Hg : csr_ok g) (Hg' : csr_ok g') s pm visitados :
  (∀ u w, arista g u w → arista g' u w) →
  0 ≤ s < numNodos g → 0 ≤ s < numNodos g' →
  ∃ Q Q', BFS g s pm visitados = Ret (Q, Z.of_nat (length Q)) ∧
          BFS g' s pm visitados = Ret (Q', Z.of_nat (length Q')) ∧
          (∀ v, v ∈ Q → v ∈ Q') ∧ (length Q ≤ length Q')%nat.
Proof.
  intros Hsub Hs Hs'.
  destruct (BFS_spec g Hg s pm visitados Hs) as (st & E & Hinv).
  destruct (BFS_spec g' Hg' s pm visitados Hs') as (st' & E' & Hinv').
  exists st.1, st'.1. split; [done|]. split; [done|].
  assert (∀ v, v ∈ st.1 → v ∈ st'.1) as Hin.
  { intros v Hv. destruct (inv_camino _ _ _ _ _ Hinv v Hv) as (Hd & Hc & Hcaso).
    apply (camino_monotono g g') in Hc; [|done].
    destruct Hcaso as [H0|Hexp].
    - rewrite H0 in Hc. inversion Hc; subst.
      destruct (inv_inicio _ _ _ _ _ Hinv') as [Hs0 _].
      by eapply list_elem_of_lookup_2.
    - destruct (inv_BFS_completo g' s pm st' v _ Hinv' Hc) as [Hv' _]; [|done].
      unfold explora in Hexp.
      destruct (decide (pm = -1)) as [|Hpm]; [by left|right].
      destruct (decide (dist_de st.2 v - 1 >= pm)) as [Hge|Hlt]; [|lia].
      exfalso. by apply Hexp. }
  split; [done|].
  apply submseteq_length, NoDup_submseteq; [apply (inv_nodup _ _ _ _ _ Hinv)|done].
Qed.

(** X16. Adding pairs to the file never takes a node away from what a
    traversal finds.  If every pair of the file [ps] is also a pair of the
    file [ps'] (both of non-negative pairs, both loaded), then the graph
    of [ps'] has at least as many nodes, and from a start node that is
    valid in the graph of [ps], [BFS] with any depth bound and [DFS] find
    in the graph of [ps'] every node that they find in the graph of
    [ps].  Hence two files with the same set of pairs, whatever the order
    and the repetitions, give traversals that find the same nodes. *)
Theorem X16_mas_pares_mas_alcance (ps ps' : list (Z * Z))
    (g0 g0' g g' : GrafoDisperso) (s profundidadMax : Z) (visitados : list Z) :
  sin_negativos ps → sin_negativos ps' →
  cargarDatos (Some ps) g0 = Ret (true, g) →
  cargarDatos (Some ps') g0' = Ret (true, g') →
  (∀ p, p ∈ ps → p ∈ ps') → 0 ≤ s < getNumNodos g →
  getNumNodos g ≤ getNumNodos g' ∧
  ∃ rb rb' rd rd',
    BFS g s profundidadMax visitados = Ret rb ∧
    BFS g' s profundidadMax visitados = Ret rb' ∧
    DFS g s visitados = Ret rd ∧ DFS g' s visitados = Ret rd' ∧
    (∀ v, v ∈ secuencia rb → v ∈ secuencia rb') ∧ rb.2 ≤ rb'.2 ∧
    (∀ v, v ∈ secuencia rd → v ∈ secuencia rd').
Proof.
  intros Hps Hps' E E' Hsub Hs. unfold getNumNodos in *.
  destruct (construido_de ps g0 g Hps E) as (Hg & Hcsr & Hor & _).
  destruct (construido_de ps' g0' g' Hps' E') as (Hg' & Hcsr' & Hor' & _).
  apply cargarDatos_Ret in E as (_ & _ & Hint & _ & Hnm).
  apply cargarDatos_Ret in E' as (_ & _ & Hint' & _ & Hnm').
  destruct (cabe_en_int_cotas ps g Hint Hcsr Hnm) as [Hni Hai].
  destruct (cabe_en_int_cotas ps' g' Hint' Hcsr' Hnm') as [Hni' Hai'].
  assert (numNodos g ≤ numNodos g') as Hle.
  { assert (ps ≠ []) as Hne.
    { intros ->. destruct Hcsr as (_ & _ & Hnil & _). specialize (Hnil eq_refl). lia. }
    destruct (nodo_maximo_alcanzado ps Hor Hne) as (p & Hp & Hpm).
    destruct Hcsr' as (_ & Hmax' & _). rewrite Forall_forall in Hmax'.
    specialize (Hmax' p (Hsub p Hp)). lia. }
  split; [done|].
  assert (∀ u w, arista g u w → arista g' u w) as Har.
  { intros u w Huw.
    apply (arista_construido ps g u w Hps Hcsr Hni Hai) in Huw.
    apply (arista_construido ps' g' u w Hps' Hcsr' Hni' Hai'). by apply Hsub. }
  destruct (BFS_monotono g g' Hg Hg' s profundidadMax visitados Har Hs ltac:(lia))
    as (Q & Q' & Eb & Eb' & Hin & Hlen).
  destruct (DFS_spec g Hg s visitados Hs) as (R & Ed & _ & _ & Halc).
  destruct (DFS_spec g' Hg' s visitados ltac:(lia)) as (R' & Ed' & _ & _ & Halc').
  eexists _, _, _, _. split; [exact Eb|]. split; [exact Eb'|].
  split; [exact Ed|]. split; [exact Ed'|].
  unfold secuencia. simpl. rewrite !Nat2Z.id, !take_ge by done.
  split; [done|]. split; [lia|].
  intros v [k Hk]%Halc. apply Halc'. exists k. by apply (camino_monotono g g').
Qed.

Lemma X16_witness :
  sin_negativos ejemplo ∧ sin_negativos cadena ∧
  cargarDatos (Some ejemplo) grafo_vacio = Ret (true, grafo_ejemplo) ∧
  cargarDatos (Some (ejemplo ++ cadena)) grafo_vacio =
    Ret (true, csr_esperado (ejemplo ++ cadena) grafo_vacio) ∧
  (∀ p, p ∈ ejemplo → p ∈ ejemplo ++ cadena) ∧
  0 ≤ 0 < getNumNodos grafo_ejemplo ∧
  getNumNodos grafo_ejemplo ≤
    getNumNodos (csr_esperado (ejemplo ++ cadena) grafo_vacio) ∧
  ∃ rb rb' rd rd',
    BFS grafo_ejemplo 0 1 [] = Ret rb ∧
    BFS (csr_esperado (ejemplo ++ cadena) grafo_vacio) 0 1 [] = Ret rb' ∧
    DFS grafo_ejemplo 0 [] = Ret rd ∧
    DFS (csr_esperado (ejemplo ++ cadena) grafo_vacio) 0 [] = Ret rd' ∧
    (∀ v, v ∈ secuencia rb → v ∈ secuencia rb') ∧ rb.2 ≤ rb'.2 ∧
    (∀ v, v ∈ secuencia rd → v ∈ secuencia rd').
Proof.
  assert (sin_negativos cadena) as Hc
    by (unfold sin_negativos, cadena;
        repeat (apply Forall_cons; split; [simpl; lia|]); apply Forall_nil_2).
  assert (sin_negativos (ejemplo ++ cadena)) as Hec
    by (apply Forall_app; split; [sin_negativos_ej|exact Hc]).
  split; [sin_negativos_ej|]. split; [exact Hc|].
  split; [vm_compute; reflexivity|]. split; [vm_compute; reflexivity|].
  split; [intros p Hp; apply elem_of_app; by left|].
  split; [unfold getNumNodos; simpl; lia|].
  apply (X16_mas_pares_mas_alcance ejemplo (ejemplo ++ cadena)
           grafo_vacio grafo_vacio grafo_ejemplo _ 0 1 []);
    [sin_negativos_ej|exact Hec|vm_compute; reflexivity|vm_compute; reflexivity
    |intros p Hp; apply elem_of_app; by left|unfold getNumNodos; simpl; lia].
Defined.

(** ** The pointer that [getVecinos] hands back *)

(** X17. [getVecinos] on a built graph and the caller's pointer.  The
    count that it reports is the out-degree of the node, 0 for a node
    outside [0, numNodos).  When the count is 0, for an invalid node as
    for a valid node without out-edges, the pointer [vecinos] is left as
    the caller had it: nothing has been allocated.  When the count is
    positive, [vecinos] is a new array of exactly that many cells. *)
Theorem X17_getVecinos_y_el_puntero (g : GrafoDisperso) (nodo : Z)
    (vecinos : list Z) :
  construido g →
  ∃ r, getVecinos g nodo vecinos = Ret r ∧ 0 ≤ r.2 ∧
    obtenerGradoSalida g nodo = Ret r.2 ∧
    (r.2 = 0 → r.1 = vecinos) ∧
    (0 < r.2 → Z.of_nat (length r.1) = r.2).
Proof.
  intros Hg%construido_ok.
  destruct (decide (0 ≤ nodo < numNodos g)) as [Hn|Hn]; last first.
  { exists (vecinos, 0). unfold getVecinos, obtenerGradoSalida.
    rewrite !decide_True by lia. simpl. split_and!; (done || lia). }
  rewrite (obtenerGradoSalida_grado g Hg nodo Hn).
  unfold getVecinos, grado. rewrite decide_False by lia.
  destruct (tramo g Hg nodo Hn) as (a & b & Ha & Hb & Hab & HbN).
  pose proof (ok_nodos_int g Hg). pose proof (ok_aristas_int g Hg).
  rewrite Ha, Hb. simpl. corre. case_decide as Hpos.
  - lazymatch goal with |- context [para 0 _ ?cuerpo ?v0] =>
      destruct (para_regla (λ _ v, length v = Z.to_nat (b - a))
        cuerpo 0 (b - a) v0) as (v & -> & Hlv)
    end; [lia| | |].
    + intros i v Hi Hlv.
      destruct (column_indices_Some g Hg (a + i)) as [x Hx]; [lia|].
      corre. eexists. split; [done|]. by rewrite length_insert.
    + by rewrite length_nuevo.
    + cbn [ligar]. eexists. split; [done|]. simpl.
      split_and!; try done; lia.
  - eexists. split; [done|]. simpl. split_and!; try done; lia.
Qed.

Lemma X17_witness :
  construido grafo_ejemplo ∧
  ∃ r, getVecinos grafo_ejemplo 0 [] = Ret r ∧ 0 ≤ r.2 ∧
    obtenerGradoSalida grafo_ejemplo 0 = Ret r.2 ∧
    (r.2 = 0 → r.1 = []) ∧
    (0 < r.2 → Z.of_nat (length r.1) = r.2).
Proof.
  split; [construido_ej|].
  apply (X17_getVecinos_y_el_puntero grafo_ejemplo 0 []). construido_ej.
Defined.

(** ** The BFS result as a tree *)

Lemma inv_BFS_padre g s pm st j v :
  inv_BFS g s pm st (length st.1) → st.1 !! j = Some v → v ≠ s →
  ∃ i u d, (i < j)%nat ∧ st.1 !! i = Some u ∧ arista g u v ∧
           distancia g s u d ∧ distancia g s v (S d).
Proof.
  intros Hinv Hj Hvs.
  assert (v ∈ st.1) as Hv by (by eapply list_elem_of_lookup_2).
  pose proof (inv_BFS_distancia g s pm st v Hinv Hv) as Hdv.
  destruct (inv_camino _ _ _ _ _ Hinv v Hv) as (H0 & Hc & Hcaso).
  destruct (Z.to_nat (dist_de st.2 v)) as [|k] eqn:Hk.
  { inversion Hc; subst. done. }
  inversion Hc as [|k' u v' Hcu Huv]; subst.
  destruct (inv_BFS_completo g s pm st u k Hinv Hcu) as [Hu Hdu].
  { destruct Hcaso as [?|Hexp]; [lia|]. unfold explora in Hexp.
    destruct (decide (pm = -1)) as [|Hpm]; [by left|right].
    destruct (decide (dist_de st.2 v - 1 >= pm)) as [Hge|Hlt]; [|lia].
    exfalso. by apply Hexp. }
  pose proof (inv_BFS_distancia g s pm st u Hinv Hu) as Hdist.
  destruct (inv_camino _ _ _ _ _ Hinv u Hu) as (H0u & Hcu' & _).
  assert (Z.to_nat (dist_de st.2 u) = k) as Hku.
  { destruct Hdv as [_ Hmin].
    specialize (Hmin (S (Z.to_nat (dist_de st.2 u)))
                  (camino_S g s _ u v Hcu' Huv)). lia. }
  apply list_elem_of_lookup_1 in Hu as [i Hi].
  exists i, u, k. rewrite Hku in Hdist. split_and!; try done.
  destruct (decide (i < j)%nat) as [|Hge]; [done|]. exfalso.
  pose proof (inv_orden _ _ _ _ _ Hinv j i v u ltac:(lia) Hj Hi). lia.
Qed.

(** X18. The sequence that [BFS] returns on a built graph is that of a
    breadth-first tree: whatever the depth bound, every node of the
    sequence other than the start comes after a node of the sequence that
    has an edge to it and is one step closer to the start. *)
Theorem X18_BFS_arbol (g : GrafoDisperso) (s profundidadMax : Z)
    (visitados : list Z) :
  construido g → 0 ≤ s < getNumNodos g →
  ∃ r, BFS g s profundidadMax visitados = Ret r ∧
    ∀ j v, secuencia r !! j = Some v → v ≠ s →
      ∃ i u d, (i < j)%nat ∧ secuencia r !! i = Some u ∧ arista g u v ∧
               distancia g s u d ∧ distancia g s v (S d).
Proof.
  intros Hg%construido_ok Hs.
  destruct (BFS_secuencia g Hg s profundidadMax visitados Hs)
    as (r & st & E & Hsec & Hinv).
  exists r. split; [done|]. rewrite Hsec. intros j v.
  by apply (inv_BFS_padre g s profundidadMax).
Qed.

Lemma X18_witness :
  construido grafo_ejemplo ∧ 0 ≤ 0 < getNumNodos grafo_ejemplo ∧
  ∃ r, BFS grafo_ejemplo 0 (-1) [] = Ret r ∧
    ∀ j v, secuencia r !! j = Some v → v ≠ 0 →
      ∃ i u d, (i < j)%nat ∧ secuencia r !! i = Some u ∧
               arista grafo_ejemplo u v ∧
               distancia grafo_ejemplo 0 u d ∧ distancia grafo_ejemplo 0 v (S d).
Proof.
  split; [construido_ej|]. split; [unfold getNumNodos; simpl; lia|].
  apply (X18_BFS_arbol grafo_ejemplo 0 (-1) []);
    [construido_ej|unfold getNumNodos; simpl; lia].
Defined.

(** ** The DFS result goes deeper first *)

Section DFS_profundidad.
Context (g : GrafoDisperso) (Hg : csr_ok g).

Lemma DFSRecursivo_profundidad (combustible : nat) : ∀ u e R,
  rep_DFS g e R → 0 ≤ u < numNodos g → u ∉ R →
  numNodos g - Z.of_nat (length R) ≤ Z.of_nat combustible →
  ∃ e' R', DFSRecursivo combustible g u e = Ret e' ∧
    rep_DFS g e' (R ++ u :: R') ∧
    regla_profundidad g (R ++ u :: R') (length R).
Proof.
  induction combustible as [|c IH]; intros u e R Hrep Hu HuR Hc.
  all: pose proof Hrep as (Hvi & Hre & Hcon & Hres & Hnd & Hran & Hmar).
  all: assert (NoDup (R ++ [u])) as Hnd1 by
    (apply NoDup_app; split; [done|]; split; [|apply NoDup_singleton];
     intros x Hx Hx'; apply list_elem_of_singleton in Hx' as ->; done).
  all: assert (Forall (λ v, 0 ≤ v < numNodos g) (R ++ [u])) as Hran1 by
    (apply Forall_app; split; [done|]; by constructor).
  all: pose proof (longitud_acotada _ _ (ok_nodos g Hg) Hnd1 Hran1) as Hlen1.
  all: rewrite length_app in Hlen1; simpl in Hlen1.
  - lia.
  - pose proof (ok_nodos_int g Hg) as Hni.
    simpl. corre.
    destruct (tramo g Hg u Hu) as (a & b & Ha & Hb & _).
    corre.
    pose proof (vecinos_de_length g Hg u a b Ha Hb) as Hlen.
    lazymatch goal with |- context [para a b ?cuerpo ?e1] =>
      destruct (para_regla
        (λ i e', ∃ R1, rep_DFS g e' (R ++ u :: R1) ∧
           head R1 = head (filter (λ w, w ∉ R ++ [u])
                             (take (Z.to_nat (i - a)) (vecinos_de g u))) ∧
           (∀ j x w, (length R < j)%nat → (R ++ u :: R1) !! j = Some x →
              primer_vecino_nuevo g (take (S j) (R ++ u :: R1)) x = Some w →
              (R ++ u :: R1) !! (S j) = Some w))
        cuerpo a b e1) as (e' & E & R' & Hrep' & Hhead & Hregla)
    end; [lia| | |].
    + intros i e1 Hi (R1 & Hrep1 & Hhead1 & Hregla1).
      destruct (vecinos_de_ver g Hg u a b i Ha Hb Hi) as (w & Hw & Hw' & Hwr).
      pose proof Hrep1 as (_ & _ & _ & _ & Hnd' & Hran' & Hmar1).
      rewrite (leer_Ret _ _ _ Hw). cbn [ligar].
      rewrite (leer_Ret _ _ _ (Hmar1 w Hwr)). cbn [ligar].
      replace (Z.to_nat (i + 1 - a)) with (S (Z.to_nat (i - a))) by lia.
      rewrite (take_S_r _ _ w Hw'), filter_app.
      destruct (filter (λ w, w ∉ R ++ [u])
                  (take (Z.to_nat (i - a)) (vecinos_de g u))) as [|f F].
      all: case_bool_decide as Hin.
      * (* no new neighbour so far, and this one has been visited *)
        exists e1. split; [done|]. exists R1. split; [done|]. split; [|done].
        destruct R1 as [|y R1]; [|done]. simpl.
        rewrite filter_cons_False; [done|]. intros Hno. by apply Hno.
      * (* this one is the first new neighbour *)
        destruct R1 as [|y R1]; [|done].
        destruct (IH w e1 (R ++ [u]) Hrep1 Hwr Hin)
          as (e2 & R2 & -> & Hrep2 & Hregla2).
        { rewrite length_app. simpl. lia. }
        assert ((R ++ [u]) ++ w :: R2 = R ++ u :: w :: R2) as Eq
          by (by rewrite <- app_assoc).
        rewrite Eq in *.
        exists e2. split; [done|]. exists (w :: R2). split; [done|]. split.
        -- simpl. by rewrite filter_cons_True.
        -- intros j x y Hj. apply Hregla2. rewrite length_app. simpl. lia.
      * (* a new neighbour was found before; this one has been visited *)
        exists e1. split; [done|]. exists R1. by split.
      * (* a new neighbour was found before; this one is explored next *)
        destruct (IH w e1 (R ++ u :: R1) Hrep1 Hwr Hin)
          as (e2 & R2 & -> & Hrep2 & Hregla2).
        { rewrite length_app. simpl.
          pose proof (longitud_acotada _ _ (ok_nodos g Hg) Hnd' Hran') as Hl.
          rewrite length_app in Hl. simpl in Hl. lia. }
        assert ((R ++ u :: R1) ++ w :: R2 = R ++ u :: (R1 ++ w :: R2)) as Eq
          by (by rewrite <- app_assoc).
        exists e2. split; [done|]. exists (R1 ++ w :: R2).
        rewrite <- Eq. split; [done|]. split.
        -- destruct R1 as [|y R1]; [done|]. done.
        -- intros j x y Hj Hx Hp.
           destruct (decide (j < length (R ++ u :: R1))%nat) as [Hlt|Hge].
           ++ rewrite lookup_app_l in Hx by done.
              rewrite take_app_le in Hp by lia.
              pose proof (Hregla1 j x y Hj Hx Hp) as Hy.
              pose proof (lookup_lt_Some _ _ _ Hy).
              by rewrite lookup_app_l.
           ++ apply (Hregla2 j x y); [lia|done|done].
    + exists []. split_and!.
      * unfold rep_DFS. simpl. rewrite !length_insert, length_app. simpl.
        rewrite Hcon, Nat2Z.id.
        replace (length R + 1)%nat with (S (length R)) by lia.
        rewrite take_snoc_insert by lia. rewrite Hres.
        split_and!; try done; try lia.
        intros v Hv. rewrite ver_insert by lia. case_decide as Hvu.
        -- subst v. rewrite bool_decide_eq_true_2; [done|].
           apply elem_of_app. right. by left.
        -- rewrite (Hmar v Hv). f_equal. apply bool_decide_ext.
           rewrite elem_of_app, list_elem_of_singleton. tauto.
      * by replace (Z.to_nat (a - a)) with 0%nat by lia.
      * intros j x w Hj Hx. apply lookup_lt_Some in Hx.
        rewrite length_app in Hx. simpl in Hx. lia.
    + exists e', R'. split; [done|]. split; [done|].
      rewrite take_ge in Hhead by lia.
      intros j x w Hj Hx Hp.
      destruct (decide (j = length R)) as [->|Hne]; [|apply (Hregla j x); [lia|done..]].
      rewrite list_lookup_middle in Hx by done. injection Hx as <-.
      assert (take (S (length R)) (R ++ u :: R') = R ++ [u]) as Ht.
      { rewrite (cons_middle u R R'), app_assoc.
        apply take_app_length'. rewrite length_app. simpl. lia. }
      unfold primer_vecino_nuevo in Hp. rewrite Ht, <- Hhead in Hp.
      rewrite (cons_middle u R R'), app_assoc, lookup_app_r;
        rewrite length_app; simpl; [|lia].
      replace (S (length R) - (length R + 1))%nat with 0%nat by lia.
      by destruct R'.
Qed.

Lemma DFS_profundidad s visitados :
  0 ≤ s < numNodos g →
  ∃ R, DFS g s visitados = Ret (R, Z.of_nat (length R)) ∧
       Forall (λ v, 0 ≤ v < numNodos g) R ∧ regla_profundidad g R 0.
Proof.
  intros Hs. unfold DFS. rewrite decide_False by lia.
  destruct (para_regla
    (λ i ma, length ma = Z.to_nat (numNodos g) ∧
             ∀ k, 0 ≤ k < i → ver ma k = Some false)
    (fun i ma => escribir ma i false)
    0 (numNodos g) (nuevo (numNodos g) false)) as (ma & -> & Hma & Hfalse);
    [lia| | |].
  - intros i ma Hi (Hma & Hfalse). corre.
    eexists. split; [done|]. rewrite length_insert. split; [done|].
    intros k Hk. rewrite ver_insert by lia. case_decide; [done|].
    apply Hfalse. lia.
  - rewrite length_nuevo. split; [done|]. lia.
  - cbn [ligar].
    destruct (DFSRecursivo_profundidad (Z.to_nat (numNodos g)) s
                (mkDFS ma (nuevo (numNodos g) 0) 0) [])
      as (e & R & -> & Hrep & Hregla).
    + unfold rep_DFS. simpl. rewrite length_nuevo. split_and!; try done.
      apply NoDup_nil_2.
    + done.
    + apply not_elem_of_nil.
    + simpl. lia.
    + cbn [ligar]. simpl in Hrep, Hregla.
      destruct Hrep as (_ & Hre & Hcon & Hres & Hnd & Hran & _).
      pose proof (longitud_acotada _ _ (ok_nodos g Hg) Hnd Hran).
      rewrite copiar_resultado_spec by lia. cbn [ligar].
      exists (s :: R). rewrite Hcon, Nat2Z.id, Hres. by split.
Qed.
End DFS_profundidad.

(** X19. The sequence that [DFS] returns on a built graph goes deeper
    first: whenever the node at a position of the sequence has a neighbour
    that is not among the nodes listed up to that position, the node at
    the next position is the first such neighbour, in the order in which
    [getVecinos] returns the neighbours. *)
Theorem X19_DFS_en_profundidad (g : GrafoDisperso) (s : Z) (visitados : list Z) :
  construido g → 0 ≤ s < getNumNodos g →
  ∃ r, DFS g s visitados = Ret r ∧
    ∀ j x rv w, secuencia r !! j = Some x →
      getVecinos g x [] = Ret rv →
      head (filter (λ w, w ∉ take (S j) (secuencia r)) (secuencia rv)) = Some w →
      secuencia r !! (S j) = Some w.
Proof.
  intros Hg%construido_ok Hs.
  destruct (DFS_profundidad g Hg s visitados Hs) as (R & E & Hran & Hregla).
  eexists. split; [exact E|].
  assert (secuencia (R, Z.of_nat (length R)) = R) as ->
    by (unfold secuencia; simpl; by rewrite Nat2Z.id, take_ge).
  intros j x rv w Hx Erv Hp.
  assert (0 ≤ x < numNodos g) as Hxr.
  { rewrite Forall_forall in Hran. apply Hran. by eapply list_elem_of_lookup_2. }
  destruct (getVecinos_vecinos_de g Hg x [] Hxr) as (rv' & Erv' & Hsec & _).
  assert (rv' = rv) as -> by congruence. rewrite Hsec in Hp.
  apply (Hregla j x w); [lia|done|done].
Qed.

Lemma X19_witness :
  construido grafo_ejemplo ∧ 0 ≤ 0 < getNumNodos grafo_ejemplo ∧
  ∃ r, DFS grafo_ejemplo 0 [] = Ret r ∧
    ∀ j x rv w, secuencia r !! j = Some x →
      getVecinos grafo_ejemplo x [] = Ret rv →
      head (filter (λ w, w ∉ take (S j) (secuencia r)) (secuencia rv)) = Some w →
      secuencia r !! (S j) = Some w.
Proof.
  split; [construido_ej|]. split; [unfold getNumNodos; simpl; lia|].
  apply (X19_DFS_en_profundidad grafo_ejemplo 0 []);
    [construido_ej|unfold getNumNodos; simpl; lia].
Defined.

